(** * render.py: the render scheduler of songs-to-youtube

    A shallow embedding of [src/render.py]: the process handler that
    streams the two pipes of an external command, the combine worker
    that concatenates the songs of an album, the per-album helper that
    gates the combine job on its songs, and the [Renderer] that owns the
    thread queue, the results dictionary and the cancellation flag.

    Python objects are modelled as follows.
    - [str] is [string]; a character is a code point below 256.
    - [int] is [Z]; [float] is an IEEE binary64 value of [SpecFloat].
    - a [dict] whose iteration order is observed is an association list,
      the [results] dictionary is a [gmap], a [set] is a [gset].
    - a raised exception is the [Raise] case of the [exc] monad.
    - Qt signals are recorded in the [emitted] log of the state, and the
      slots connected to them are called in connection order.
    - what the worker threads send is handled by the main thread one
      input at a time ([step]); a batch is a list of such inputs. *)

From Stdlib Require Import ZArith Lia Bool Ascii String SpecFloat.
From stdpp Require Import gmap strings list.

(** ** Exceptions *)

Inductive pyexc := ValueError | ZeroDivisionError | OverflowError | FileNotFoundError | KeyError.

Inductive exc (A : Type) :=
  | Ret (a : A)
  | Raise (e : pyexc).
Arguments Ret {A} a.
Arguments Raise {A} e.

#[global] Instance exc_ret : MRet exc := @Ret.
#[global] Instance exc_bind : MBind exc := fun A B k m =>
  match m with
  | Ret a => k a
  | Raise e => Raise e
  end.
#[global] Instance exc_fmap : FMap exc := fun A B f m =>
  match m with
  | Ret a => Ret (f a)
  | Raise e => Raise e
  end.

(** ** Python strings *)

(** [str.isspace] on one character (code points below 256). *)
Definition isspace (c : ascii) : bool :=
  let n := nat_of_ascii c in
  ((9 <=? n) && (n <=? 13)) || ((28 <=? n) && (n <=? 32)) || (n =? 133) || (n =? 160).

Definition isdigit (c : ascii) : bool :=
  let n := nat_of_ascii c in (48 <=? n) && (n <=? 57).

Definition digit_value (c : ascii) : Z := Z.of_nat (nat_of_ascii c - 48).

Fixpoint lstrip (s : string) : string :=
  match s with
  | EmptyString => EmptyString
  | String c rest => if isspace c then lstrip rest else s
  end.

Fixpoint rstrip (s : string) : string :=
  match s with
  | EmptyString => EmptyString
  | String c rest =>
      match rstrip rest with
      | EmptyString => if isspace c then EmptyString else String c EmptyString
      | r => String c r
      end
  end.

(** The line feed that ends a line. *)
Definition newline : string := String (ascii_of_nat 10) EmptyString.

(** [s.strip()] *)
Definition strip (s : string) : string := rstrip (lstrip s).

(** [s.split(sep)] for a one-character separator. *)
Fixpoint split (sep : ascii) (s : string) : list string :=
  match s with
  | EmptyString => [EmptyString]
  | String c rest =>
      if Ascii.eqb c sep then EmptyString :: split sep rest
      else match split sep rest with
           | h :: t => String c h :: t
           | [] => [String c EmptyString]
           end
  end.

(** The digits of a decimal literal after its first digit: single
    underscores are allowed between digits. *)
Fixpoint int_digits (acc : Z) (s : string) : exc Z :=
  match s with
  | EmptyString => Ret acc
  | String c rest =>
      if isdigit c then int_digits (10 * acc + digit_value c) rest
      else if Ascii.eqb c "_" then
        match rest with
        | String d rest' =>
            if isdigit d then int_digits (10 * acc + digit_value d) rest'
            else Raise ValueError
        | EmptyString => Raise ValueError
        end
      else Raise ValueError
  end.

Definition int_unsigned (s : string) : exc Z :=
  match s with
  | String c rest => if isdigit c then int_digits (digit_value c) rest else Raise ValueError
  | EmptyString => Raise ValueError
  end.

(** [int(s)] in base 10: surrounding whitespace, an optional sign, digits.
    The limit on the number of digits of recent interpreters is not
    modelled. *)
Definition py_int (s : string) : exc Z :=
  match strip s with
  | String "+" rest => int_unsigned rest
  | String "-" rest => Z.opp <$> int_unsigned rest
  | t => int_unsigned t
  end.

(** ** Python floats (IEEE binary64) *)

Definition prec : Z := 53.
Definition emax : Z := 1024.

Definition check_finite (f : spec_float) : exc spec_float :=
  match f with
  | S754_infinity _ => Raise OverflowError
  | _ => Ret f
  end.

(** [float(z)] *)
Definition float_of_int (z : Z) : exc spec_float :=
  check_finite (binary_normalize prec emax z 0 false).

Definition exact_int (z : Z) : spec_float :=
  match z with
  | Z0 => S754_zero false
  | Zpos p => S754_finite false p 0
  | Zneg p => S754_finite true p 0
  end.

(** [a / b] on two ints: the correctly rounded quotient. *)
Definition py_truediv (a b : Z) : exc spec_float :=
  if (b =? 0)%Z then Raise ZeroDivisionError
  else if (a =? 0)%Z then Ret (S754_zero (b <? 0)%Z)
  else check_finite (SFdiv prec emax (exact_int a) (exact_int b)).

(** [x * n] for a float [x] and an int [n]. *)
Definition py_float_mul_int (x : spec_float) (n : Z) : exc spec_float :=
  y ← float_of_int n; Ret (SFmul prec emax x y).

(** [int(x)] on a float: truncation towards zero. *)
Definition int_of_float (x : spec_float) : exc Z :=
  match x with
  | S754_zero _ => Ret 0%Z
  | S754_nan => Raise ValueError
  | S754_infinity _ => Raise OverflowError
  | S754_finite s m e =>
      let v := match e with
               | Zneg k => Z.shiftr (Zpos m) (Zpos k)
               | _ => Z.shiftl (Zpos m) e
               end in
      Ret (if s then (- v)%Z else v)
  end.

(** ** ProcessHandler *)

Module ProcessHandler.

Inductive pipe := p_stdout | p_stderr.

(** A line read from a pipe, as [line.decode('utf-8')] sees it. *)
Inductive raw_line :=
  | Utf8 (text : string)
  | BadUtf8.

(** What a reader puts on the queue: [Some (pipe, line)], or [None] for
    the pair [(None, None)]. *)
Definition item : Type := option (pipe * string).

Fixpoint read_pipe (p : pipe) (lines : list raw_line) : list item :=
  match lines with
  | [] => [None]
  | Utf8 text :: rest => Some (p, text) :: read_pipe p rest
  | BadUtf8 :: _ => [None]
  end.

Record process := Process {
  out_lines : list raw_line;
  err_lines : list raw_line;
  returncode : Z
}.

(** The order in which the two reader threads fill the queue: [true]
    lets the reader of standard output put its next item. *)
Fixpoint merge (sched : list bool) (a b : list item) : list item :=
  match sched with
  | [] => a ++ b
  | true :: sched' =>
      match a with
      | x :: a' => x :: merge sched' a' b
      | [] => b
      end
  | false :: sched' =>
      match b with
      | y :: b' => y :: merge sched' a b'
      | [] => a
      end
  end.

Inductive signal :=
  | stdout (line : string)
  | stderr (line : string).

(** The [while True] loop of [run] over the items the queue delivers.
    [None] is a loop that waits for ever on a queue that stays empty. *)
Fixpoint loop (q : list item) : option (list signal) :=
  match q with
  | [] => None
  | None :: _ => Some []
  | Some (p_stdout, line) :: q' => cons (stdout line) <$> loop q'
  | Some (p_stderr, line) :: q' => cons (stderr line) <$> loop q'
  end.

(** The signal that carries a queued line. *)
Definition signal_of (x : pipe * string) : signal :=
  match x with
  | (p_stdout, line) => stdout line
  | (p_stderr, line) => stderr line
  end.

(** [PROCESSES.remove(p)] *)
Fixpoint remove (p : nat) (l : list nat) : list nat :=
  match l with
  | [] => []
  | x :: l' => if Nat.eqb x p then l' else x :: remove p l'
  end.

(** [run] on the spawned process [p] with handle [h]: the emitted
    signals, the returned [error] and the registry afterwards. *)
Definition run (h : nat) (p : process) (sched : list bool) (PROCESSES : list nat)
  : option (list signal * bool * list nat) :=
  let PROCESSES := PROCESSES ++ [h] in
  let q := merge sched (read_pipe p_stdout (out_lines p)) (read_pipe p_stderr (err_lines p)) in
  sigs ← loop q;
  let error := negb (returncode p =? 0)%Z in
  Some (sigs, error, remove h PROCESSES).

(** The lines a pipe delivers before it ends or fails to decode. *)
Fixpoint produced (lines : list raw_line) : list string :=
  match lines with
  | Utf8 text :: rest => text :: produced rest
  | _ => []
  end.

End ProcessHandler.

(** ** Worker signals *)

Inductive wsignal :=
  | w_finished (success : bool)
  | w_error (msg : string)
  | w_progress (line : string).

Definition forward (s : ProcessHandler.signal) : wsignal :=
  match s with
  | ProcessHandler.stdout line => w_progress line
  | ProcessHandler.stderr line => w_error line
  end.

(** ** CombineSongWorker *)

Module CombineSongWorker.

(** [s.replace("'", "'\\''")] *)
Fixpoint escape (s : string) : string :=
  match s with
  | EmptyString => EmptyString
  | String c rest =>
      if Ascii.eqb c "'" then String "'" (String "\" (String "'" (String "'" (escape rest))))
      else String c (escape rest)
  end.

(** The contents written to the temporary song list. *)
Fixpoint song_list (children : list string) : string :=
  match children with
  | [] => EmptyString
  | c :: rest => ("file 'file:" +:+ escape c +:+ "'" +:+ newline) +:+ song_list rest
  end.

(** [os.remove(path)] on the set of existing paths. *)
Definition os_remove (path : string) (fs : gset string) : exc (gset string) :=
  if bool_decide (path ∈ fs) then Ret (fs ∖ {[path]}) else Raise FileNotFoundError.

(** The [for] loop over the children that removes their files; the
    file system is returned also when a removal raises. *)
Fixpoint remove_children (children : list string) (fs : gset string) : gset string * exc unit :=
  match children with
  | [] => (fs, Ret tt)
  | c :: rest =>
      match os_remove c fs with
      | Ret fs' => remove_children rest fs'
      | Raise e => (fs, Raise e)
      end
  end.

(** [run]: [command_str] is the outcome of formatting the command
    template, [p] the process that the handler spawns for it, and [fs]
    the files that exist when the handler returns.  [None] when the
    handler never returns. *)
Definition run (children : list string) (command_str : exc string)
    (h : nat) (p : ProcessHandler.process) (sched : list bool) (PROCESSES : list nat)
    (fs : gset string) : option (list wsignal * gset string * list nat) :=
  match command_str with
  | Raise _ => Some ([w_error "traceback"; w_finished false], fs, PROCESSES)
  | Ret _ =>
      match ProcessHandler.run h p sched PROCESSES with
      | None => None
      | Some (sigs, errors, PROCESSES') =>
          let lines := map forward sigs in
          match remove_children children fs with
          | (fs', Ret _) => Some (lines ++ [w_finished (negb errors)], fs', PROCESSES')
          | (fs', Raise _) => Some (lines ++ [w_error "traceback"; w_finished false], fs', PROCESSES')
          end
      end
  end.

End CombineSongWorker.

(** ** Songs, albums and dictionaries *)

Record Song := { fileOutput : string; duration_ms : Z }.

Inductive AlbumPlaylist := SINGLE | MULTIPLE | OTHER.

Record Album := {
  a_fileOutput : string;
  a_duration_ms : Z;
  getChildren : list Song;
  albumPlaylist : AlbumPlaylist
}.

(** A [dict] with string keys, in insertion order. *)
Fixpoint dict_get {V} (k : string) (d : list (string * V)) : option V :=
  match d with
  | [] => None
  | (k', v) :: d' => if String.eqb k' k then Some v else dict_get k d'
  end.

Fixpoint dict_set {V} (k : string) (v : V) (d : list (string * V)) : list (string * V) :=
  match d with
  | [] => [(k, v)]
  | (k', v') :: d' => if String.eqb k' k then (k', v) :: d' else (k', v') :: dict_set k v d'
  end.

Fixpoint dict_del {V} (k : string) (d : list (string * V)) : list (string * V) :=
  match d with
  | [] => []
  | (k', v') :: d' => if String.eqb k' k then d' else (k', v') :: dict_del k d'
  end.

(** The loop of [thread_finished] that deletes the first entry whose
    value is [thread]. *)
Fixpoint del_thread (thread : nat) (d : list (string * nat)) : list (string * nat) :=
  match d with
  | [] => []
  | (k, t) :: d' => if Nat.eqb t thread then d' else (k, t) :: del_thread thread d'
  end.

(** [l.remove(x)] when [x] is in [l]. *)
Fixpoint list_remove (x : nat) (l : list nat) : list nat :=
  match l with
  | [] => []
  | y :: l' => if Nat.eqb y x then l' else y :: list_remove x l'
  end.

Definition mem (x : nat) (l : list nat) : bool := existsb (Nat.eqb x) l.

(** ** Threads, workers and the state of the renderer *)

Inductive tstatus := NotStarted | Running | Done.

#[global] Instance tstatus_eq_dec : EqDecision tstatus.
Proof. solve_decision. Defined.

Inductive pstatus := NoProcess | Live | Exited.

(** A [QThread] with the worker that was moved to it. *)
Record slot := Slot {
  w_name : string;          (* str(worker) *)
  w_duration : Z;           (* worker.get_duration_ms() *)
  t_status : tstatus;
  t_quit : bool;            (* thread.quit() was called *)
  w_done : bool;            (* the worker has emitted finished *)
  w_process : pstatus
}.

Record AlbumRenderHelper := Helper {
  album : Album;
  h_workers : gset string;
  combine_worker : string;
  h_error : bool
}.

Inductive event :=
  | Finished (results : gmap string bool)
  | WorkerProgress (name : string) (percent : Z)
  | WorkerError (name : string) (msg : string)
  | WorkerDone (name : string) (success : bool).

Record state := State {
  pool : list slot;                 (* the thread objects, by identity *)
  threads : list nat;
  workers : list (string * nat);
  helpers : list AlbumRenderHelper;
  results : gmap string bool;
  working : bool;
  cancelled : bool;
  PROCESSES : list nat;             (* handles of registered processes *)
  maxProcesses : Z;                 (* get_setting("maxProcesses") *)
  emitted : list event;             (* signals of the renderer, oldest first *)
  warnings : list string            (* logger.warning *)
}.

Definition set_pool (f : list slot → list slot) (σ : state) : state :=
  State (f (pool σ)) (threads σ) (workers σ) (helpers σ) (results σ) (working σ)
        (cancelled σ) (PROCESSES σ) (maxProcesses σ) (emitted σ) (warnings σ).
Definition set_threads (f : list nat → list nat) (σ : state) : state :=
  State (pool σ) (f (threads σ)) (workers σ) (helpers σ) (results σ) (working σ)
        (cancelled σ) (PROCESSES σ) (maxProcesses σ) (emitted σ) (warnings σ).
Definition set_workers (f : list (string * nat) → list (string * nat)) (σ : state) : state :=
  State (pool σ) (threads σ) (f (workers σ)) (helpers σ) (results σ) (working σ)
        (cancelled σ) (PROCESSES σ) (maxProcesses σ) (emitted σ) (warnings σ).
Definition set_helpers (f : list AlbumRenderHelper → list AlbumRenderHelper) (σ : state) : state :=
  State (pool σ) (threads σ) (workers σ) (f (helpers σ)) (results σ) (working σ)
        (cancelled σ) (PROCESSES σ) (maxProcesses σ) (emitted σ) (warnings σ).
Definition set_results (f : gmap string bool → gmap string bool) (σ : state) : state :=
  State (pool σ) (threads σ) (workers σ) (helpers σ) (f (results σ)) (working σ)
        (cancelled σ) (PROCESSES σ) (maxProcesses σ) (emitted σ) (warnings σ).
Definition set_working (b : bool) (σ : state) : state :=
  State (pool σ) (threads σ) (workers σ) (helpers σ) (results σ) b
        (cancelled σ) (PROCESSES σ) (maxProcesses σ) (emitted σ) (warnings σ).
Definition set_cancelled (b : bool) (σ : state) : state :=
  State (pool σ) (threads σ) (workers σ) (helpers σ) (results σ) (working σ)
        b (PROCESSES σ) (maxProcesses σ) (emitted σ) (warnings σ).
Definition set_PROCESSES (f : list nat → list nat) (σ : state) : state :=
  State (pool σ) (threads σ) (workers σ) (helpers σ) (results σ) (working σ)
        (cancelled σ) (f (PROCESSES σ)) (maxProcesses σ) (emitted σ) (warnings σ).
Definition emit (e : event) (σ : state) : state :=
  State (pool σ) (threads σ) (workers σ) (helpers σ) (results σ) (working σ)
        (cancelled σ) (PROCESSES σ) (maxProcesses σ) (emitted σ ++ [e]) (warnings σ).
Definition warn (msg : string) (σ : state) : state :=
  State (pool σ) (threads σ) (workers σ) (helpers σ) (results σ) (working σ)
        (cancelled σ) (PROCESSES σ) (maxProcesses σ) (emitted σ) (warnings σ ++ [msg]).

(** [Renderer.__init__] *)
Definition init (maxp : Z) : state :=
  State [] [] [] [] ∅ false false [] maxp [] [].

Definition isRunning (t : nat) (σ : state) : bool :=
  match pool σ !! t with
  | Some sl => match t_status sl with Running => true | _ => false end
  | None => false
  end.

Definition with_status (st : tstatus) (sl : slot) : slot :=
  Slot (w_name sl) (w_duration sl) st (t_quit sl) (w_done sl) (w_process sl).
Definition with_quit (sl : slot) : slot :=
  Slot (w_name sl) (w_duration sl) (t_status sl) true (w_done sl) (w_process sl).
Definition with_done (sl : slot) : slot :=
  Slot (w_name sl) (w_duration sl) (t_status sl) (t_quit sl) true (w_process sl).
Definition with_process (p : pstatus) (sl : slot) : slot :=
  Slot (w_name sl) (w_duration sl) (t_status sl) (t_quit sl) (w_done sl) p.

Definition update_slot (t : nat) (f : slot → slot) (σ : state) : state :=
  set_pool (fun p => match p !! t with Some sl => <[t := f sl]> p | None => p end) σ.

(** [thread.start()]: nothing happens on a thread that is running. *)
Definition thread_start (t : nat) (σ : state) : state :=
  if isRunning t σ then σ else update_slot t (with_status Running) σ.

(** [thread.quit()] *)
Definition thread_quit (t : nat) (σ : state) : state := update_slot t with_quit σ.

(** ** Renderer: the methods the helpers call *)

Definition render (σ : state) : state :=
  let σ := set_working true σ in
  let σ := if (length (workers σ) =? 0) then emit (Finished (results σ)) (set_working false σ) else σ in
  let n := Z.to_nat (Z.min (maxProcesses σ) (Z.of_nat (length (threads σ)))) in
  foldl (fun σ t => thread_start t σ) σ (take n (threads σ)).

Definition start_worker (worker_name : string) (σ : state) : state :=
  match dict_get worker_name (workers σ) with
  | Some thread =>
      if mem thread (threads σ) then σ
      else
        let σ := set_threads (fun l => l ++ [thread]) σ in
        if working σ then σ else render σ
  | None => σ
  end.

Definition cancel_worker (worker_name : string) (σ : state) : state :=
  match dict_get worker_name (workers σ) with
  | Some thread =>
      let σ := thread_quit thread σ in
      let σ := if mem thread (threads σ) then set_threads (list_remove thread) σ else σ in
      let σ := if (length (threads σ) =? 0) then set_working false σ else σ in
      set_workers (dict_del worker_name) σ
  | None => σ
  end.

(** ** AlbumRenderHelper *)

Definition with_workers (ws : gset string) (h : AlbumRenderHelper) : AlbumRenderHelper :=
  Helper (album h) ws (combine_worker h) (h_error h).
Definition with_error (h : AlbumRenderHelper) : AlbumRenderHelper :=
  Helper (album h) (h_workers h) (combine_worker h) true.

(** [worker_done] of the helper at index [i]. *)
Definition helper_worker_done (i : nat) (worker : string) (success : bool) (σ : state) : state :=
  match helpers σ !! i with
  | None => σ
  | Some h =>
      let h := if bool_decide (worker ∈ h_workers h) then
                 let h := with_workers (h_workers h ∖ {[worker]}) h in
                 if success then h else with_error h
               else h in
      let σ := set_helpers (fun hs => <[i := h]> hs) σ in
      if (size (h_workers h) =? 0) && negb (h_error h)
      then start_worker (combine_worker h) σ
      else σ
  end.

(** [worker_error] of the helper at index [i]. *)
Definition helper_worker_error (i : nat) (worker : string) (error : string) (σ : state) : state :=
  match helpers σ !! i with
  | None => σ
  | Some h =>
      if bool_decide (worker ∈ h_workers h) then
        let σ := set_helpers (fun hs => <[i := with_error h]> hs) σ in
        cancel_worker (combine_worker h) σ
      else σ
  end.

(** ** Renderer: signals and slots *)

(** [self.worker_done.emit(name, success)]: every helper is connected. *)
Definition emit_worker_done (name : string) (success : bool) (σ : state) : state :=
  let σ := emit (WorkerDone name success) σ in
  foldl (fun σ i => helper_worker_done i name success σ) σ (seq 0 (length (helpers σ))).

(** [self.worker_error.emit(name, error)] *)
Definition emit_worker_error (name : string) (error : string) (σ : state) : state :=
  let σ := emit (WorkerError name error) σ in
  foldl (fun σ i => helper_worker_error i name error σ) σ (seq 0 (length (helpers σ))).

(** The computation inside the [try] of [_worker_progress]: the
    percentage to emit, or nothing for a line with another key. *)
Definition progress_percent (total_time_ms : Z) (progress : string) : exc (option Z) :=
  match split "=" (strip progress) with
  | [key; value] =>
      if String.eqb key "out_time_us" then
        us ← py_int value;
        let current_time_ms := (us `div` 1000)%Z in
        q ← py_truediv current_time_ms total_time_ms;
        x ← py_float_mul_int q 100;
        n ← int_of_float x;
        Ret (Some (Z.max 0 (Z.min n 100)))
      else Ret None
  | _ => Raise ValueError
  end.

Definition warning_prefix : string := "Could not parse worker_progress line: ".

(** [try: body except: handler] with a bare [except]. *)
Definition try_except {A} (body : exc A) (handler : pyexc → exc A) : exc A :=
  match body with
  | Ret a => Ret a
  | Raise e => handler e
  end.

Definition _worker_progress (t : nat) (progress : string) (σ : state) : exc state :=
  match pool σ !! t with
  | None => Ret σ
  | Some sl =>
      try_except
        (percent ← progress_percent (w_duration sl) progress;
         match percent with
         | Some percent => Ret (emit (WorkerProgress (w_name sl) percent) σ)
         | None => Ret σ
         end)
        (fun _ => Ret (warn (warning_prefix +:+ progress) σ))
  end.

Definition worker_finished (t : nat) (success : bool) (σ : state) : state :=
  match pool σ !! t with
  | None => σ
  | Some sl =>
      let σ := set_results (fun r => <[w_name sl := success]> r) σ in
      if cancelled σ then σ
      else thread_quit t (emit_worker_done (w_name sl) success σ)
  end.

(** The first thread of the queue that is not running. *)
Definition first_unstarted (σ : state) : option nat :=
  List.find (fun t => negb (isRunning t σ)) (threads σ).

Definition thread_finished (thread : nat) (σ : state) : state :=
  if cancelled σ then σ
  else
    let σ := if mem thread (threads σ) then set_threads (list_remove thread) σ else σ in
    let σ := set_workers (del_thread thread) σ in
    let σ := if (length (threads σ) =? 0) then set_working false σ else σ in
    let σ := if (length (workers σ) =? 0) then emit (Finished (results σ)) σ else σ in
    match first_unstarted σ with
    | Some t => set_working true (thread_start t σ)
    | None => σ
    end.

(** [clean_up]: every registered process is killed. *)
Definition clean_up (σ : state) : state :=
  foldl (fun σ p => update_slot p (with_process Exited) σ) σ (PROCESSES σ).

(** The body of the loop of [cancel] for one entry of [workers]. *)
Definition mark_unfinished (σ : state) (w : string * nat) : state :=
  match results σ !! w.1 with
  | None => set_results (fun r => <[w.1 := false]> r) σ
  | Some _ => σ
  end.

Definition cancel (σ : state) : state :=
  let σ := clean_up σ in
  let σ := set_cancelled true σ in
  let σ := foldl mark_unfinished σ (workers σ) in
  emit (Finished (results σ)) σ.

(** ** Renderer: submitting jobs *)

Definition add_worker (name : string) (duration : Z) (auto_start : bool) (σ : state) : state :=
  let thread := length (pool σ) in
  let σ := set_pool (fun p => p ++ [Slot name duration NotStarted false false NoProcess]) σ in
  let σ := if auto_start then set_threads (fun l => l ++ [thread]) σ else σ in
  set_workers (dict_set name thread) σ.

Definition add_render_song_job (song : Song) (σ : state) : string * state :=
  (fileOutput song, add_worker (fileOutput song) (duration_ms song) true σ).

Definition combine_songs_into_album (a : Album) (σ : state) : string * state :=
  (a_fileOutput a, add_worker (a_fileOutput a) (a_duration_ms a) false σ).

(** [AlbumRenderHelper(album).render(renderer)] *)
Definition helper_render (a : Album) (σ : state) : AlbumRenderHelper * state :=
  let '(ws, σ) := foldl (fun '(ws, σ) song =>
                           let '(worker, σ) := add_render_song_job song σ in
                           (ws ∪ {[worker]}, σ))
                        (∅, σ) (getChildren a) in
  let '(combine, σ) := combine_songs_into_album a σ in
  (Helper a ws combine false, σ).

Definition add_render_album_job (a : Album) (σ : state) : state :=
  if (length (getChildren a) =? 0) then σ
  else match albumPlaylist a with
       | SINGLE =>
           let '(h, σ) := helper_render a σ in
           set_helpers (fun hs => hs ++ [h]) σ
       | MULTIPLE => foldl (fun σ song => (add_render_song_job song σ).2) σ (getChildren a)
       | OTHER => σ
       end.

(** ** Batches and what happens while one runs *)

Inductive submission :=
  | SubmitSong (song : Song)
  | SubmitAlbum (a : Album).

Definition submit (σ : state) (s : submission) : state :=
  match s with
  | SubmitSong song => (add_render_song_job song σ).2
  | SubmitAlbum a => add_render_album_job a σ
  end.

(** The jobs a batch registers, and the batch once [render] is called. *)
Definition setup (maxp : Z) (batch : list submission) : state :=
  foldl submit (init maxp) batch.

Definition start (maxp : Z) (batch : list submission) : state :=
  render (setup maxp batch).

(** The names of the jobs of a batch. *)
Definition album_jobs (a : Album) : list string :=
  if (length (getChildren a) =? 0) then []
  else match albumPlaylist a with
       | SINGLE => map fileOutput (getChildren a) ++ [a_fileOutput a]
       | MULTIPLE => map fileOutput (getChildren a)
       | OTHER => []
       end.

Definition jobs (batch : list submission) : list string :=
  concat (map (fun s => match s with
                        | SubmitSong song => [fileOutput song]
                        | SubmitAlbum a => album_jobs a
                        end) batch).

(** Job identities are unique in a batch. *)
Definition unique_jobs (batch : list submission) : bool :=
  bool_decide (NoDup (jobs batch)).

(** What the main thread receives while a batch runs. *)
Inductive input :=
  | Popen (t : nat)                       (* the worker of thread t has spawned its process *)
  | Line (t : nat) (line : string)        (* a line of standard output *)
  | Err (t : nat) (msg : string)          (* a line of standard error, or a traceback *)
  | Fin (t : nat) (success : bool)        (* worker.finished(success) *)
  | ThreadFin (t : nat)                   (* thread.finished *)
  | Cancel.                               (* the user cancels *)

(** The worker of thread [t] is executing [run]. *)
Definition active (t : nat) (σ : state) : bool :=
  match pool σ !! t with
  | Some sl => match t_status sl with Running => negb (w_done sl) | _ => false end
  | None => false
  end.

Definition has_process (t : nat) (σ : state) : bool :=
  match pool σ !! t with
  | Some sl => match w_process sl with NoProcess => false | _ => true end
  | None => false
  end.

Definition quitting (t : nat) (σ : state) : bool :=
  match pool σ !! t with
  | Some sl => match t_status sl with Running => t_quit sl | _ => false end
  | None => false
  end.

(** One input handled by the main thread; [None] when the input cannot
    arrive in this state. *)
Definition step (σ : state) (i : input) : option state :=
  match i with
  | Popen t =>
      if active t σ && negb (has_process t σ)
      then Some (set_PROCESSES (fun l => l ++ [t]) (update_slot t (with_process Live) σ))
      else None
  | Line t line =>
      if active t σ && has_process t σ
      then match _worker_progress t line σ with
           | Ret σ' => Some σ'
           | Raise _ => None
           end
      else None
  | Err t msg =>
      if active t σ
      then match pool σ !! t with
           | Some sl => Some (emit_worker_error (w_name sl) msg σ)
           | None => None
           end
      else None
  | Fin t success =>
      if active t σ && (has_process t σ || negb success)
      then
        let σ := if has_process t σ
                 then set_PROCESSES (ProcessHandler.remove t) (update_slot t (with_process Exited) σ)
                 else σ in
        Some (worker_finished t success (update_slot t with_done σ))
      else None
  | ThreadFin t =>
      if quitting t σ
      then Some (thread_finished t (update_slot t (with_status Done) σ))
      else None
  | Cancel => Some (cancel σ)
  end.

Fixpoint steps (σ : state) (ins : list input) : option state :=
  match ins with
  | [] => Some σ
  | i :: ins' =>
      match step σ i with
      | Some σ' => steps σ' ins'
      | None => None
      end
  end.

(** The threads that are running, and those that were ever started. *)
Definition running_count (σ : state) : nat :=
  length (filter (fun sl => t_status sl = Running) (pool σ)).

Definition started_count (σ : state) : nat :=
  length (filter (fun sl => t_status sl ≠ NotStarted) (pool σ)).

(** The thread of the worker called [name] was started. *)
Definition started (name : string) (σ : state) : Prop :=
  ∃ t sl, pool σ !! t = Some sl ∧ w_name sl = name ∧ t_status sl ≠ NotStarted.

(** The thread of the worker called [name] is in the queue. *)
Definition queued (name : string) (σ : state) : Prop :=
  ∃ t, dict_get name (workers σ) = Some t ∧ t ∈ threads σ.

(** ** Progress lines as the specification words them *)

(** A non-empty string of decimal digits, and the number it writes. *)
Fixpoint all_digits (s : string) : bool :=
  match s with
  | EmptyString => true
  | String c rest => isdigit c && all_digits rest
  end.

Definition is_decimal (s : string) : bool :=
  match s with
  | EmptyString => false
  | _ => all_digits s
  end.

Fixpoint decimal_from (acc : Z) (s : string) : Z :=
  match s with
  | EmptyString => acc
  | String c rest => decimal_from (10 * acc + digit_value c) rest
  end.

Definition decimal_value (s : string) : Z := decimal_from 0 s.

(** An integer as it is printed: digits after an optional sign. *)
Definition is_integer (s : string) : bool :=
  match s with
  | String c rest =>
      if Ascii.eqb c "-" || Ascii.eqb c "+" then is_decimal rest else is_decimal s
  | EmptyString => false
  end.

Definition integer_value (s : string) : Z :=
  match s with
  | String c rest =>
      if Ascii.eqb c "-" then (- decimal_value rest)%Z
      else if Ascii.eqb c "+" then decimal_value rest
      else decimal_value s
  | EmptyString => 0%Z
  end.

Fixpoint all_space (s : string) : bool :=
  match s with
  | EmptyString => true
  | String c rest => isspace c && all_space rest
  end.

(** The elapsed time in milliseconds, divided by the duration hint, scaled
    to an integer percentage and clamped to [0, 100]. *)
Definition percent_of (elapsed_us duration : Z) : exc Z :=
  let elapsed_ms := (elapsed_us `div` 1000)%Z in
  q ← py_truediv elapsed_ms duration;
  x ← py_float_mul_int q 100;
  n ← int_of_float x;
  Ret (Z.max 0 (Z.min n 100)).

(** The number of occurrences of a character, which decides how many
    parts [split] returns. *)
Fixpoint count_char (c : ascii) (s : string) : nat :=
  match s with
  | EmptyString => 0
  | String c' rest => (if Ascii.eqb c' c then 1 else 0) + count_char c rest
  end.

(** ** What the operations of the renderer leave alone *)

(** The fields of a slot that only its worker changes. *)
Definition same_worker (a b : slot) : Prop :=
  w_name a = w_name b ∧ w_duration a = w_duration b ∧ w_done a = w_done b.

Definition is_finished (e : event) : Prop :=
  match e with
  | Finished _ => True
  | _ => False
  end.

Definition is_done (e : event) : Prop :=
  match e with
  | WorkerDone _ _ => True
  | _ => False
  end.

(** [σ'] differs from [σ] in the queue, the registry of workers, the
    helpers, the state of the threads and the flag [working] at most,
    and every signal emitted in between satisfies [P]. *)
Record frame (P : event → Prop) (σ σ' : state) : Prop := {
  frame_results : results σ' = results σ;
  frame_cancelled : cancelled σ' = cancelled σ;
  frame_max : maxProcesses σ' = maxProcesses σ;
  frame_processes : PROCESSES σ' = PROCESSES σ;
  frame_warnings : warnings σ' = warnings σ;
  frame_pool : Forall2 same_worker (pool σ) (pool σ');
  frame_emitted : ∃ new, emitted σ' = emitted σ ++ new ∧ Forall P new
}.

(** The helper after its [worker_done], and after its [worker_error]. *)
Definition done_update (worker : string) (success : bool) (h : AlbumRenderHelper)
  : AlbumRenderHelper :=
  if bool_decide (worker ∈ h_workers h) then
    let h := with_workers (h_workers h ∖ {[worker]}) h in
    if success then h else with_error h
  else h.

Definition error_update (worker : string) (h : AlbumRenderHelper) : AlbumRenderHelper :=
  if bool_decide (worker ∈ h_workers h) then with_error h else h.

(** The songs a helper waits for. *)
Definition upstream (h : AlbumRenderHelper) : list string :=
  fileOutput <$> getChildren (album h).

(** ** Batches used as examples *)

Definition song_a : Song := {| fileOutput := "a.mp4"; duration_ms := 10000 |}.
Definition song_b : Song := {| fileOutput := "b.mp4"; duration_ms := 10000 |}.

(** An album of one song that is rendered to a single file. *)
Definition album_of_one : Album :=
  {| a_fileOutput := "album.mp4"; a_duration_ms := 10000;
     getChildren := [song_a]; albumPlaylist := SINGLE |}.

Definition album_of_two : Album :=
  {| a_fileOutput := "album.mp4"; a_duration_ms := 20000;
     getChildren := [song_a; song_b]; albumPlaylist := SINGLE |}.

Definition album_of_three : Album :=
  {| a_fileOutput := "album.mp4"; a_duration_ms := 30000;
     getChildren := [song_a; song_b; {| fileOutput := "c.mp4"; duration_ms := 10000 |}];
     albumPlaylist := SINGLE |}.

(** The [worker_done] and the [worker_error] signals of a log. *)
Definition done_signals (log : list event) : list (string * bool) :=
  omap (fun e => match e with WorkerDone n s => Some (n, s) | _ => None end) log.

Definition error_signals (log : list event) : list (string * string) :=
  omap (fun e => match e with WorkerError n m => Some (n, m) | _ => None end) log.

(** The results carried by the [finished] signals of a log. *)
Definition finished_results (log : list event) : list (gmap string bool) :=
  omap (fun e => match e with Finished r => Some r | _ => None end) log.

(** ** Invariants of a running batch *)

(** The thread [t] belongs to the worker called [n]. *)
Definition slot_named (σ : state) (t : nat) (n : string) : Prop :=
  ∃ sl, pool σ !! t = Some sl ∧ w_name sl = n.

(** What holds of the queue also while threads are being started. *)
Record queue_inv (σ : state) : Prop := {
  inv_max : (0 ≤ maxProcesses σ)%Z;
  inv_names : NoDup (w_name <$> pool σ);
  inv_threads : NoDup (threads σ);
  inv_keys : NoDup (workers σ).*1;
  inv_workers : ∀ n t, dict_get n (workers σ) = Some t → slot_named σ t n;
  inv_running : ∀ t, isRunning t σ = true → t ∈ threads σ;
  inv_combine : NoDup (combine_worker <$> helpers σ);
  inv_gate : ∀ h t sl,
    h ∈ helpers σ → pool σ !! t = Some sl → w_name sl = combine_worker h →
    t ∈ threads σ ∨ t_status sl ≠ NotStarted →
    h_workers h = ∅ ∧ h_error h = false
}.

Record sched_inv (σ : state) : Prop := {
  inv_queue : queue_inv σ;
  inv_working : working σ = false → ∀ t, isRunning t σ = false;
  inv_count : (Z.of_nat (running_count σ) ≤ maxProcesses σ)%Z
}.

(** The fields the invariants of the scheduler read. *)
Definition core (σ : state) :=
  (maxProcesses σ, pool σ, threads σ, workers σ, helpers σ, working σ).

(** A helper without error has released its combine job once no song
    is pending, and still finds it registered before that. *)
Definition release_inv (σ : state) : Prop :=
  ∀ h, h ∈ helpers σ → h_error h = false →
    (h_workers h = ∅ → started (combine_worker h) σ ∨ queued (combine_worker h) σ) ∧
    (h_workers h ≠ ∅ → ∃ t, dict_get (combine_worker h) (workers σ) = Some t).

(** What holds while the jobs of a batch are being registered. *)
Record setup_inv (σ : state) : Prop := {
  su_status : ∀ t sl, pool σ !! t = Some sl → t_status sl = NotStarted;
  su_names : NoDup (w_name <$> pool σ);
  su_threads : NoDup (threads σ);
  su_bound : ∀ t, t ∈ threads σ → t < length (pool σ);
  su_keys : NoDup (workers σ).*1;
  su_keys_names : ∀ n, n ∈ (workers σ).*1 → n ∈ w_name <$> pool σ;
  su_workers : ∀ n t, dict_get n (workers σ) = Some t → slot_named σ t n;
  su_nonempty : workers σ = [] → threads σ = [];
  su_combine : NoDup (combine_worker <$> helpers σ);
  su_helpers : ∀ h, h ∈ helpers σ →
    h_error h = false ∧ h_workers h ≠ ∅ ∧ h_workers h = list_to_set (upstream h) ∧
    ∃ t, dict_get (combine_worker h) (workers σ) = Some t ∧ t ∉ threads σ;
  su_working : working σ = false;
  su_emitted : emitted σ = []
}.

(** The songs of an album are registered one after the other. *)
Definition add_songs (σ : state) (songs : list Song) : state :=
  foldl (fun σ song => (add_render_song_job song σ).2) σ songs.

(** Signals that no helper listens to. *)
Definition silent (e : event) : Prop :=
  match e with
  | WorkerDone _ _ | WorkerError _ _ => False
  | _ => True
  end.

(** [σ'] has the helpers and the workers of [σ], and only silent signals
    were emitted in between. *)
Record quiet (σ σ' : state) : Prop := {
  quiet_helpers : helpers σ' = helpers σ;
  quiet_pool : Forall2 same_worker (pool σ) (pool σ');
  quiet_emitted : ∃ new, emitted σ' = emitted σ ++ new ∧ Forall silent new
}.

(** What the log of signals says about the helpers. *)
Record events_inv (σ : state) : Prop := {
  ev_sub : ∀ h u, h ∈ helpers σ → u ∈ h_workers h → u ∈ upstream h;
  ev_pending : ∀ h u t sl,
    h ∈ helpers σ → u ∈ upstream h → pool σ !! t = Some sl → w_name sl = u →
    w_done sl = false → u ∈ h_workers h;
  ev_failed : ∀ h u,
    h ∈ helpers σ → u ∈ upstream h →
    WorkerDone u false ∈ emitted σ ∨ (∃ m, WorkerError u m ∈ emitted σ) →
    h_error h = true;
  ev_done : ∀ h u b, h ∈ helpers σ → WorkerDone u b ∈ emitted σ → u ∉ h_workers h;
  ev_error : ∀ h,
    h ∈ helpers σ → h_error h = true →
    ∃ u, u ∈ upstream h ∧
         (WorkerDone u false ∈ emitted σ ∨ (∃ m, WorkerError u m ∈ emitted σ));
  ev_reported : ∀ h u,
    h ∈ helpers σ → u ∈ upstream h → u ∉ h_workers h → ∃ b, WorkerDone u b ∈ emitted σ
}.

(** ** Dependency groups *)

(** The combine job was handed to the queue: its thread is in the queue
    or was started from it. *)
Definition released (name : string) (σ : state) : Prop :=
  started name σ ∨ queued name σ.

(** Every song of the helper has reported success, and none has reported
    a failure or raised an error. *)
Definition all_succeeded (h : AlbumRenderHelper) (σ : state) : Prop :=
  ∀ u, u ∈ upstream h →
    WorkerDone u true ∈ emitted σ ∧ (WorkerDone u false ∉ emitted σ) ∧
    (∀ m, WorkerError u m ∉ emitted σ).

(** A song of the helper has reported a failure or raised an error. *)
Definition some_failed (h : AlbumRenderHelper) (σ : state) : Prop :=
  ∃ u, u ∈ upstream h ∧
       (WorkerDone u false ∈ emitted σ ∨ (∃ m, WorkerError u m ∈ emitted σ)).

(** The events a completion may add to the log. *)
Definition done_or_finished (n : string) (s : bool) (e : event) : Prop :=
  e = WorkerDone n s ∨ is_finished e.

(** ** RenderSongWorker *)

Module RenderSongWorker.

(** [run]: [command_str] is the outcome of formatting the command
    template of the song and [p] the process that the handler spawns
    for it.  [None] when the handler never returns. *)
Definition run (command_str : exc string)
    (h : nat) (p : ProcessHandler.process) (sched : list bool) (PROCESSES : list nat)
    : option (list wsignal * list nat) :=
  match command_str with
  | Raise _ => Some ([w_error "traceback"; w_finished false], PROCESSES)
  | Ret _ =>
      match ProcessHandler.run h p sched PROCESSES with
      | None => None
      | Some (sigs, errors, PROCESSES') =>
          Some (map forward sigs ++ [w_finished (negb errors)], PROCESSES')
      end
  end.

End RenderSongWorker.

(** ** What signals carry *)

(** The lines a list of handler signals carries for each stream. *)
Definition stdout_lines (sigs : list ProcessHandler.signal) : list string :=
  omap (fun s => match s with ProcessHandler.stdout line => Some line | _ => None end) sigs.

Definition stderr_lines (sigs : list ProcessHandler.signal) : list string :=
  omap (fun s => match s with ProcessHandler.stderr line => Some line | _ => None end) sigs.

(** The lines a worker passes on as progress, and those it reports as
    errors. *)
Definition progress_lines (sigs : list wsignal) : list string :=
  omap (fun s => match s with w_progress line => Some line | _ => None end) sigs.

Definition error_lines (sigs : list wsignal) : list string :=
  omap (fun s => match s with w_error msg => Some msg | _ => None end) sigs.

Definition is_w_finished (s : wsignal) : Prop :=
  match s with
  | w_finished _ => True
  | _ => False
  end.

(** The number of single quotes of a path. *)
Definition quotes (s : string) : nat := count_char "'" s.

(** The items a pipe puts on the queue for its lines. *)
Definition queued_lines (p : ProcessHandler.pipe) (lines : list string) : list ProcessHandler.item :=
  (fun line => Some (p, line)) <$> lines.

(** ** Registering the jobs of a batch *)

(** A thread as [add_worker] creates it. *)
Definition new_slot (sl : slot) : Prop :=
  t_status sl = NotStarted ∧ t_quit sl = false ∧ w_done sl = false ∧ w_process sl = NoProcess.

(** Nothing has run yet: what holds while jobs are registered, whatever
    their names. *)
Record pristine (maxp : Z) (σ : state) : Prop := {
  pr_slots : Forall new_slot (pool σ);
  pr_threads : ∀ t, t ∈ threads σ → t < length (pool σ);
  pr_queue : NoDup (threads σ);
  pr_keys : ∀ n, n ∈ (workers σ).*1 ↔ n ∈ w_name <$> pool σ;
  pr_idle : σ = State (pool σ) (threads σ) (workers σ) (helpers σ) ∅ false false [] maxp [] []
}.

(** The albums of a batch that are rendered to a single file, and the
    helper that [AlbumRenderHelper(album).render(renderer)] returns. *)
Definition single_albums (batch : list submission) : list Album :=
  omap (fun s => match s with
                 | SubmitAlbum a =>
                     if (length (getChildren a) =? 0) then None
                     else match albumPlaylist a with SINGLE => Some a | _ => None end
                 | SubmitSong _ => None
                 end) batch.

Definition helper_of (a : Album) : AlbumRenderHelper :=
  Helper a (list_to_set (fileOutput <$> getChildren a)) (a_fileOutput a) false.

(** ** Accounting for the jobs of a running batch *)

(** The helper of the combine job called [n] has seen an error: the job
    was cancelled, or will not be released. *)
Definition failed_combine (n : string) (σ : state) : Prop :=
  ∃ h, h ∈ helpers σ ∧ combine_worker h = n ∧ h_error h = true.

(** What the helpers may change when a job reports its completion:
    threads are put on the queue from the registry and started. *)
Record admits (σ σ' : state) : Prop := {
  ad_pool : ∀ t sl', pool σ' !! t = Some sl' →
    ∃ sl, pool σ !! t = Some sl ∧
      (sl' = sl ∨
       (sl' = with_status Running sl ∧ t_status sl ≠ Running ∧
        (t ∈ threads σ ∨ ∃ n, dict_get n (workers σ) = Some t)));
  ad_length : length (pool σ') = length (pool σ);
  ad_threads : ∀ t, t ∈ threads σ' → t ∈ threads σ ∨ ∃ n, dict_get n (workers σ) = Some t;
  ad_workers : workers σ' = workers σ;
  ad_results : results σ' = results σ;
  ad_emitted : emitted σ' = emitted σ;
  ad_cancelled : cancelled σ' = cancelled σ;
  ad_failed : ∀ n, failed_combine n σ → failed_combine n σ'
}.

(** What the helpers may change when a job raises an error: combine
    jobs are taken off the queue and out of the registry. *)
Record revokes (σ σ' : state) : Prop := {
  rv_pool : ∀ t sl', pool σ' !! t = Some sl' →
    ∃ sl, pool σ !! t = Some sl ∧
      (sl' = sl ∨ (sl' = with_quit sl ∧ failed_combine (w_name sl) σ'));
  rv_length : length (pool σ') = length (pool σ);
  rv_threads : ∀ t, t ∈ threads σ' → t ∈ threads σ;
  rv_registered : ∀ n t, dict_get n (workers σ') = Some t → dict_get n (workers σ) = Some t;
  rv_workers : ∀ n t, dict_get n (workers σ) = Some t →
    dict_get n (workers σ') = Some t ∨ (failed_combine n σ' ∧ t ∉ threads σ');
  rv_results : results σ' = results σ;
  rv_emitted : emitted σ' = emitted σ;
  rv_cancelled : cancelled σ' = cancelled σ;
  rv_failed : ∀ n, failed_combine n σ → failed_combine n σ'
}.

(** The fields the accounts read. *)
Definition books (σ : state) :=
  (pool σ, threads σ, workers σ, helpers σ, results σ, emitted σ, cancelled σ).

(** The accounts of a running batch: every thread of the queue is
    registered; a thread that has finished is neither queued nor
    registered; every job is registered, has a result, or is the combine
    job of a helper that has seen an error; and the signals that were
    emitted agree with the results. *)
Record ledger (σ : state) : Prop := {
  lg_reg : ∀ t, t ∈ threads σ → ∃ n, dict_get n (workers σ) = Some t;
  lg_over : cancelled σ = false → ∀ t sl, pool σ !! t = Some sl → t_status sl = Done →
    (t ∉ threads σ) ∧ ∀ n, dict_get n (workers σ) ≠ Some t;
  lg_cover : ∀ n, n ∈ w_name <$> pool σ →
    n ∈ (workers σ).*1 ∨ is_Some (results σ !! n) ∨ failed_combine n σ;
  lg_keys : ∀ n, is_Some (results σ !! n) → n ∈ w_name <$> pool σ;
  lg_quit : ∀ t sl, pool σ !! t = Some sl → t_quit sl = true →
    is_Some (results σ !! w_name sl) ∨ failed_combine (w_name sl) σ;
  lg_fin : ∀ r, Finished r ∈ emitted σ →
    (∀ n, is_Some (r !! n) → n ∈ w_name <$> pool σ) ∧
    (∀ n, n ∈ w_name <$> pool σ → is_Some (r !! n) ∨ failed_combine n σ);
  lg_done : ∀ n s, WorkerDone n s ∈ emitted σ →
    results σ !! n = Some s ∧
    ∃ t sl, pool σ !! t = Some sl ∧ w_name sl = n ∧ w_done sl = true;
  lg_once : NoDup (done_signals (emitted σ)).*1;
  lg_single : cancelled σ = false →
    length (finished_results (emitted σ)) ≤ 1 ∧
    (finished_results (emitted σ) ≠ [] → workers σ = [])
}.

(** A song of the album has reported a failure or raised an error. *)
Definition album_failed (a : Album) (σ : state) : Prop :=
  ∃ song, song ∈ getChildren a ∧
    (WorkerDone (fileOutput song) false ∈ emitted σ ∨
     ∃ m, WorkerError (fileOutput song) m ∈ emitted σ).

(** The helpers of a batch and their albums. *)
Definition helpers_of (batch : list submission) (σ : state) : Prop :=
  album <$> helpers σ = single_albums batch ∧
  ∀ h, h ∈ helpers σ → combine_worker h = a_fileOutput (album h).

(** The threads of [σ'] are those of [σ], each in the state it had. *)
Definition keeps_status (σ σ' : state) : Prop :=
  length (pool σ') = length (pool σ) ∧
  ∀ t sl', pool σ' !! t = Some sl' → ∃ sl, pool σ !! t = Some sl ∧ t_status sl' = t_status sl.
(** If a thread of the queue is waiting, a thread is running. *)
Definition moving (σ : state) : Prop :=
  cancelled σ = false → ∀ t, t ∈ threads σ → isRunning t σ = false →
  ∃ t', isRunning t' σ = true.

(** A helper as it may become while the batch runs: it keeps its album
    and its combine job, loses pending songs only, and keeps an error. *)
Definition later_helper (h h' : AlbumRenderHelper) : Prop :=
  album h' = album h ∧ combine_worker h' = combine_worker h ∧
  h_workers h' ⊆ h_workers h ∧ (h_error h = true → h_error h' = true).


(** * Properties *)

(** ** ProcessHandler *)

Section ProcessHandlerFacts.
Import ProcessHandler.

Lemma read_pipe_sentinel p lines : None ∈ read_pipe p lines.
Proof.
  induction lines as [|[text|] rest IH]; simpl.
  - apply list_elem_of_here.
  - by apply list_elem_of_further.
  - apply list_elem_of_here.
Qed.

(** Each reader puts the pair [(None, None)] once, as its last item. *)
Lemma read_pipe_one_sentinel p lines :
  ∃ items, read_pipe p lines = (Some <$> items) ++ [None].
Proof.
  induction lines as [|[text|] rest [items IH]]; simpl.
  - by exists [].
  - exists ((p, text) :: items). by rewrite IH.
  - by exists [].
Qed.

Lemma merge_sentinel sched a b : None ∈ a → None ∈ merge sched a b.
Proof.
  revert a b. induction sched as [|[] sched IH]; intros a b Ha; simpl.
  - apply elem_of_app. by left.
  - destruct a as [|x a']; [by apply not_elem_of_nil in Ha|].
    apply elem_of_cons in Ha as [<-|Ha].
    + apply list_elem_of_here.
    + apply list_elem_of_further. by apply IH.
  - destruct b as [|y b']; [done|].
    apply list_elem_of_further. by apply IH.
Qed.

Lemma loop_returns q : None ∈ q → is_Some (loop q).
Proof.
  induction q as [|[[[] line]|] q IH]; intros Hq; simpl.
  - by apply not_elem_of_nil in Hq.
  - apply elem_of_cons in Hq as [?|Hq]; [done|].
    destruct (IH Hq) as [sigs ->]. by eexists.
  - apply elem_of_cons in Hq as [?|Hq]; [done|].
    destruct (IH Hq) as [sigs ->]. by eexists.
  - by eexists.
Qed.

(** The lines queued before the first end-of-stream pair are forwarded
    in queue order, each on the signal of its pipe. *)
Lemma loop_until_sentinel items rest :
  loop ((Some <$> items) ++ None :: rest) = Some (signal_of <$> items).
Proof.
  induction items as [|[[] line] items IH]; [done| |];
    rewrite !fmap_cons; cbn [app loop]; by rewrite IH.
Qed.

Lemma run_returns h p sched PS :
  ∃ sigs PS', run h p sched PS = Some (sigs, negb (returncode p =? 0)%Z, PS').
Proof.
  unfold run.
  destruct (loop_returns (merge sched (read_pipe p_stdout (out_lines p))
                                      (read_pipe p_stderr (err_lines p)))) as [sigs Hs].
  { apply merge_sentinel, read_pipe_sentinel. }
  rewrite Hs. simpl. by eexists _, _.
Qed.

End ProcessHandlerFacts.

(** C8. [ProcessHandler.run] returns, and the error it returns is true
    exactly when the exit status of the process is not zero, whatever
    the process wrote on standard error and whatever the order in which
    the readers filled the queue. *)
Theorem run_error_iff_nonzero_exit h p sched PS :
  ∃ sigs error PS',
    ProcessHandler.run h p sched PS = Some (sigs, error, PS') ∧
    (error = true ↔ ProcessHandler.returncode p ≠ 0%Z).
Proof.
  destruct (run_returns h p sched PS) as (sigs & PS' & Hrun).
  exists sigs, (negb (ProcessHandler.returncode p =? 0)%Z), PS'. split; [done|].
  destruct (Z.eqb_spec (ProcessHandler.returncode p) 0) as [->|Hne]; simpl.
  - split; [done|]. intros H. by destruct H.
  - done.
Qed.

(** C4. A process writes nothing on standard output and one line on
    standard error; the reader of standard output reaches the end first.
    [run] stops at the first end-of-stream pair and returns without
    forwarding the line that standard error produced. *)
Example run_drops_lines_after_first_sentinel :
  let p := ProcessHandler.Process [] [ProcessHandler.Utf8 "boom"] 1 in
  ProcessHandler.produced (ProcessHandler.err_lines p) = ["boom"] ∧
  ProcessHandler.merge [true] (ProcessHandler.read_pipe ProcessHandler.p_stdout (ProcessHandler.out_lines p))
                              (ProcessHandler.read_pipe ProcessHandler.p_stderr (ProcessHandler.err_lines p))
    = [None; Some (ProcessHandler.p_stderr, "boom"); None] ∧
  ProcessHandler.run 0 p [true] [] = Some ([], true, []).
Proof. by vm_compute. Qed.

(** ** CombineSongWorker *)

Section CombineFacts.
Import CombineSongWorker.

Lemma remove_children_all children (fs : gset string) :
  NoDup children → (∀ c, c ∈ children → c ∈ fs) →
  remove_children children fs = (fs ∖ list_to_set children, Ret tt).
Proof.
  revert fs. induction children as [|c rest IH]; intros fs Hnd Hin; simpl.
  - f_equal. set_solver.
  - apply NoDup_cons in Hnd as [Hc Hnd].
    unfold os_remove. rewrite bool_decide_eq_true_2 by (apply Hin; left).
    rewrite IH; [|done|].
    + f_equal. set_solver.
    + intros c' Hc'. apply elem_of_difference. split.
      * apply Hin. by right.
      * intros ->%elem_of_singleton. done.
Qed.

End CombineFacts.




(** ** Progress lines *)

Lemma digit_not_space c : isdigit c = true → isspace c = false.
Proof. destruct c as [[] [] [] [] [] [] [] []]; by vm_compute. Qed.

Lemma digit_not_equals c : isdigit c = true → Ascii.eqb c "=" = false.
Proof. destruct c as [[] [] [] [] [] [] [] []]; by vm_compute. Qed.

Lemma lstrip_digits c rest : isdigit c = true → lstrip (String c rest) = String c rest.
Proof. intros Hc. simpl. by rewrite digit_not_space. Qed.

Lemma rstrip_digits s : all_digits s = true → rstrip s = s.
Proof.
  induction s as [|c rest IH]; [done|]. simpl.
  intros [Hc Hrest]%andb_true_iff. rewrite IH by done.
  destruct rest; [|done]. by rewrite digit_not_space.
Qed.

Lemma rstrip_spaces ws : all_space ws = true → rstrip ws = EmptyString.
Proof.
  induction ws as [|c rest IH]; [done|]. simpl.
  intros [Hc Hrest]%andb_true_iff. by rewrite IH, Hc.
Qed.

Lemma rstrip_app_spaces s ws : all_space ws = true → rstrip (s +:+ ws) = rstrip s.
Proof.
  intros Hws. induction s as [|c rest IH]; simpl.
  - by apply rstrip_spaces.
  - by rewrite IH.
Qed.

Lemma lstrip_spaces_app ws s : all_space ws = true → lstrip (ws +:+ s) = lstrip s.
Proof.
  induction ws as [|c rest IH]; [done|]. simpl.
  intros [Hc Hrest]%andb_true_iff. rewrite Hc. by apply IH.
Qed.

Lemma split_digits s : all_digits s = true → split "=" s = [s].
Proof.
  induction s as [|c rest IH]; [done|]. simpl.
  intros [Hc Hrest]%andb_true_iff. by rewrite digit_not_equals, IH.
Qed.

Lemma int_digits_decimal acc s : all_digits s = true → int_digits acc s = Ret (decimal_from acc s).
Proof.
  revert acc. induction s as [|c rest IH]; intros acc; [done|]. simpl.
  intros [Hc Hrest]%andb_true_iff. rewrite Hc. by apply IH.
Qed.

Lemma int_unsigned_decimal s : is_decimal s = true → int_unsigned s = Ret (decimal_value s).
Proof.
  destruct s as [|c rest]; [done|]. simpl.
  intros [Hc Hrest]%andb_true_iff. rewrite Hc.
  by rewrite (int_digits_decimal _ rest Hrest).
Qed.

(** The characters of a printed integer: no whitespace and no [=]. *)
Lemma integer_chars s :
  is_integer s = true →
  ∃ c rest, s = String c rest ∧ isspace c = false ∧ Ascii.eqb c "=" = false ∧
            all_digits rest = true.
Proof.
  destruct s as [|c rest]; [done|]. simpl. intros H. exists c, rest. split; [done|].
  destruct (Ascii.eqb c "-") eqn:Hm.
  { apply Ascii.eqb_eq in Hm as ->. simpl in H. by destruct rest. }
  destruct (Ascii.eqb c "+") eqn:Hp.
  { apply Ascii.eqb_eq in Hp as ->. simpl in H. by destruct rest. }
  simpl in H. apply andb_true_iff in H as [Hc Hrest].
  by rewrite digit_not_space, digit_not_equals.
Qed.

Lemma strip_integer s : is_integer s = true → strip s = s.
Proof.
  intros (c & rest & -> & Hsp & _ & Hrest)%integer_chars.
  unfold strip. simpl. rewrite Hsp. simpl. rewrite rstrip_digits by done.
  destruct rest; [|done]. by rewrite Hsp.
Qed.

Lemma split_integer s : is_integer s = true → split "=" s = [s].
Proof.
  intros (c & rest & -> & _ & Heq & Hrest)%integer_chars.
  simpl. by rewrite Heq, split_digits.
Qed.

Lemma py_int_integer s : is_integer s = true → py_int s = Ret (integer_value s).
Proof.
  intros Hs. unfold py_int. rewrite strip_integer by done.
  destruct s as [|c rest]; [done|]. simpl in Hs. unfold integer_value.
  destruct (Ascii.eqb c "-") eqn:Hm.
  { apply Ascii.eqb_eq in Hm as ->. simpl in Hs. by rewrite int_unsigned_decimal. }
  destruct (Ascii.eqb c "+") eqn:Hp.
  { apply Ascii.eqb_eq in Hp as ->. simpl in Hs. by rewrite int_unsigned_decimal. }
  simpl in Hs. rewrite <- (int_unsigned_decimal (String c rest) Hs).
  destruct c as [[] [] [] [] [] [] [] []]; try discriminate Hm; try discriminate Hp; reflexivity.
Qed.

Lemma rstrip_app_kept a b : rstrip b ≠ EmptyString → rstrip (a +:+ b) = a +:+ rstrip b.
Proof.
  intros Hb. induction a as [|c a IH]; [done|].
  change (rstrip (String c a +:+ b))
    with (match rstrip (a +:+ b) with
          | EmptyString => if isspace c then EmptyString else String c EmptyString
          | r => String c r
          end).
  rewrite IH. destruct a; simpl; [|done]. by destruct (rstrip b).
Qed.

(** The line the external tool writes for the elapsed time, with any
    whitespace around it, is split into its key and its value. *)
Lemma strip_progress_line ws1 v ws2 :
  is_integer v = true → all_space ws1 = true → all_space ws2 = true →
  strip (ws1 +:+ ("out_time_us=" +:+ v) +:+ ws2) = "out_time_us=" +:+ v.
Proof.
  intros Hv H1 H2. unfold strip.
  rewrite lstrip_spaces_app by done.
  change (lstrip (("out_time_us=" +:+ v) +:+ ws2)) with (("out_time_us=" +:+ v) +:+ ws2).
  rewrite rstrip_app_spaces by done.
  pose proof (strip_integer v Hv) as Hs.
  destruct (integer_chars v Hv) as (c & rest & -> & Hsp & _ & _).
  unfold strip in Hs. simpl in Hs. rewrite Hsp in Hs.
  rewrite rstrip_app_kept; by rewrite Hs.
Qed.

Lemma split_progress_line v :
  is_integer v = true → split "=" ("out_time_us=" +:+ v) = ["out_time_us"; v].
Proof.
  intros Hv. pose proof (split_integer v Hv) as Hs.
  destruct (integer_chars v Hv) as (c & rest & -> & _ & _ & _).
  change (split "=" ("out_time_us=" +:+ String c rest))
    with ("out_time_us" :: split "=" (String c rest)).
  by rewrite Hs.
Qed.

Lemma progress_percent_integer d ws1 v ws2 :
  is_integer v = true → all_space ws1 = true → all_space ws2 = true →
  progress_percent d (ws1 +:+ ("out_time_us=" +:+ v) +:+ ws2) = Some <$> percent_of (integer_value v) d.
Proof.
  intros Hv H1 H2. unfold progress_percent.
  rewrite strip_progress_line, split_progress_line by done.
  change ("out_time_us" =? "out_time_us")%string with true. cbv iota.
  rewrite py_int_integer by done.
  unfold percent_of, mbind, exc_bind, fmap, exc_fmap, mret, exc_ret.
  destruct (py_truediv _ _) as [q|]; [|done].
  destruct (py_float_mul_int q 100) as [x|]; [|done].
  by destruct (int_of_float x).
Qed.

Lemma progress_percent_clamped d line pct :
  progress_percent d line = Ret (Some pct) → (0 ≤ pct ≤ 100)%Z.
Proof.
  unfold progress_percent.
  destruct (split "=" (strip line)) as [|key [|value [|]]]; try discriminate.
  destruct (key =? "out_time_us")%string; [|discriminate].
  unfold mbind, exc_bind.
  destruct (py_int value); [|discriminate].
  destruct (py_truediv _ _) as [q|]; [|discriminate].
  destruct (py_float_mul_int q 100) as [x|]; [|discriminate].
  destruct (int_of_float x) as [n|]; [|discriminate].
  intros [= <-]. lia.
Qed.

Lemma percent_of_clamped us d pct : percent_of us d = Ret pct → (0 ≤ pct ≤ 100)%Z.
Proof.
  unfold percent_of, mbind, exc_bind.
  destruct (py_truediv _ _) as [q|]; [|discriminate].
  destruct (py_float_mul_int q 100) as [x|]; [|discriminate].
  destruct (int_of_float x) as [n|]; [|discriminate].
  intros [= <-]. lia.
Qed.

Lemma check_finite_raises f e : check_finite f = Raise e → e = OverflowError.
Proof. destruct f; simpl; congruence. Qed.

Lemma py_float_mul_int_100 q : ∃ x, py_float_mul_int q 100 = Ret x.
Proof. by eexists. Qed.

Lemma int_of_float_raises x e : int_of_float x = Raise e → e ≠ ZeroDivisionError.
Proof. destruct x; simpl; congruence. Qed.

Lemma percent_of_defined us d e :
  (0 < d)%Z → percent_of us d = Raise e → e ≠ ZeroDivisionError.
Proof.
  intros Hd. unfold percent_of, mbind, exc_bind.
  destruct (py_truediv _ d) as [q|e'] eqn:Hq.
  - destruct (py_float_mul_int_100 q) as [x ->].
    destruct (int_of_float x) as [n|e''] eqn:Hx; [done|].
    intros [= <-]. by eapply int_of_float_raises.
  - intros [= <-]. unfold py_truediv in Hq.
    destruct (Z.eqb_spec d 0) as [->|_]; [lia|].
    destruct (_ =? 0)%Z; [done|].
    by apply check_finite_raises in Hq as ->.
Qed.



(** The float quotient is truncated: 29 ms of 100 ms are shown as 28;
    a negative elapsed time is shown as 0. *)
Example percent_of_truncates : percent_of 29000 100 = Ret 28%Z.
Proof. vm_compute. reflexivity. Qed.

Example negative_elapsed_time :
  progress_percent 10000 ("out_time_us=-1500" +:+ newline) = Ret (Some 0%Z).
Proof. vm_compute. reflexivity. Qed.

Lemma split_length sep s : length (split sep s) = S (count_char sep s).
Proof.
  induction s as [|c rest IH]; [done|]. simpl.
  destruct (Ascii.eqb c sep); simpl.
  - by rewrite IH.
  - destruct (split sep rest) as [|h tl]; [done|]. simpl in *. lia.
Qed.

Lemma progress_percent_not_two_parts d line :
  count_char "=" (strip line) ≠ 1 → progress_percent d line = Raise ValueError.
Proof.
  intros Hn. unfold progress_percent.
  pose proof (split_length "=" (strip line)) as Hlen.
  destruct (split "=" (strip line)) as [|key [|value [|]]]; simpl in Hlen; try done.
  lia.
Qed.

Lemma progress_percent_zero_duration line key value :
  split "=" (strip line) = [key; value] → key = "out_time_us" →
  ∃ e, progress_percent 0 line = Raise e.
Proof.
  intros Hs ->. unfold progress_percent. rewrite Hs.
  change ("out_time_us" =? "out_time_us")%string with true. cbv iota.
  unfold mbind, exc_bind. destruct (py_int value); by eexists.
Qed.

(** C10, as the code has it. The handler returns for every line and
    every job and emits at most one progress event and nothing else.  A
    line that does not consist of one key and one value, a value that is
    not an integer, and a duration hint of zero produce no event and one
    warning in the log; a line with another key produces no event and no
    warning. *)
Theorem progress_handler_never_raises σ t sl line :
  pool σ !! t = Some sl →
  ∃ σ', _worker_progress t line σ = Ret σ' ∧
    (σ' = σ ∨ σ' = warn (warning_prefix +:+ line) σ ∨
     ∃ pct, σ' = emit (WorkerProgress (w_name sl) pct) σ) ∧
    (count_char "=" (strip line) ≠ 1 → σ' = warn (warning_prefix +:+ line) σ) ∧
    (∀ key value, split "=" (strip line) = [key; value] →
       (key ≠ "out_time_us" → σ' = σ) ∧
       (key = "out_time_us" →
          ((∃ e, py_int value = Raise e) ∨ w_duration sl = 0%Z) →
          σ' = warn (warning_prefix +:+ line) σ)).
Proof.
  intros Ht. unfold _worker_progress. rewrite Ht.
  destruct (progress_percent (w_duration sl) line) as [[pct|]|e] eqn:Hp; simpl;
    eexists; (split; [reflexivity|]).
  - split; [right; right; by eexists|]. split.
    + intros Hn. by rewrite progress_percent_not_two_parts in Hp.
    + intros key value Hs. split.
      * intros Hk. unfold progress_percent in Hp. rewrite Hs in Hp.
        apply String.eqb_neq in Hk. by rewrite Hk in Hp.
      * intros -> [[e He]|Hz].
        -- unfold progress_percent in Hp. rewrite Hs in Hp. simpl in Hp.
           unfold mbind, exc_bind in Hp. by rewrite He in Hp.
        -- destruct (progress_percent_zero_duration line _ value Hs eq_refl) as [e He].
           rewrite Hz in Hp. by rewrite He in Hp.
  - split; [by left|]. split.
    + intros Hn. by rewrite progress_percent_not_two_parts in Hp.
    + intros key value Hs. split; [done|].
      intros -> [[e He]|Hz].
      * unfold progress_percent in Hp. rewrite Hs in Hp. simpl in Hp.
        unfold mbind, exc_bind in Hp. by rewrite He in Hp.
      * destruct (progress_percent_zero_duration line _ value Hs eq_refl) as [e He].
        rewrite Hz in Hp. by rewrite He in Hp.
  - split; [right; by left|]. split; [done|].
    intros key value Hs. split; [|done].
    intros Hk. unfold progress_percent in Hp. rewrite Hs in Hp.
    apply String.eqb_neq in Hk. by rewrite Hk in Hp.
Qed.

Lemma progress_handler_never_raises_witness :
  let σ := start 1 [SubmitSong {| fileOutput := "a.mp4"; duration_ms := 0 |}] in
  ∃ σ', _worker_progress 0 "out_time_us=1000" σ = Ret σ' ∧
        σ' = warn (warning_prefix +:+ "out_time_us=1000") σ.
Proof.
  intros σ.
  destruct (progress_handler_never_raises σ 0
              (Slot "a.mp4" 0 Running false false NoProcess) "out_time_us=1000" eq_refl)
    as (σ' & Hrun & _ & _ & Hparts).
  exists σ'. split; [exact Hrun|].
  exact (proj2 (Hparts "out_time_us" "1000" eq_refl) eq_refl (or_intror eq_refl)).
Defined.

(** C10, as the specification words it, fails for a line with another
    key: no progress event is emitted and nothing is logged. *)
Lemma other_key_is_not_logged :
  let σ := start 1 [SubmitSong {| fileOutput := "a.mp4"; duration_ms := 10000 |}] in
  ∃ σ', _worker_progress 0 "frame=10" σ = Ret σ' ∧
        emitted σ' = emitted σ ∧ warnings σ' = warnings σ ∧ warnings σ' = [].
Proof. by eexists. Qed.

(** ** Frame conditions of the operations *)

Lemma same_worker_refl sl : same_worker sl sl.
Proof. by repeat split. Qed.

Lemma same_worker_trans a b c : same_worker a b → same_worker b c → same_worker a c.
Proof. intros (?&?&?) (?&?&?). repeat split; congruence. Qed.

Lemma pool_refl (p : list slot) : Forall2 same_worker p p.
Proof. induction p; constructor; auto using same_worker_refl. Qed.

Lemma pool_trans (p q r : list slot) :
  Forall2 same_worker p q → Forall2 same_worker q r → Forall2 same_worker p r.
Proof.
  intros Hpq. revert r. induction Hpq; intros r Hqr; inversion Hqr; subst; constructor;
    eauto using same_worker_trans.
Qed.

Lemma pool_insert (p : list slot) t sl f :
  p !! t = Some sl → same_worker sl (f sl) → Forall2 same_worker p (<[t := f sl]> p).
Proof.
  revert t. induction p as [|a p IH]; intros [|t] Ht Hf; simplify_eq/=.
  - constructor; [done|apply pool_refl].
  - constructor; [apply same_worker_refl|by apply IH].
Qed.

Lemma pool_lookup (p q : list slot) t sl :
  Forall2 same_worker p q → q !! t = Some sl → ∃ sl0, p !! t = Some sl0 ∧ same_worker sl0 sl.
Proof.
  intros H. revert t. induction H as [|a b p q Hab Hpq IH]; intros [|t] Ht; simplify_eq/=; eauto.
Qed.

Lemma pool_lookup_l (p q : list slot) t sl :
  Forall2 same_worker p q → p !! t = Some sl → ∃ sl', q !! t = Some sl' ∧ same_worker sl sl'.
Proof.
  intros H. revert t. induction H as [|a b p q Hab Hpq IH]; intros [|t] Ht; simplify_eq/=; eauto.
Qed.

Lemma frame_refl P σ : frame P σ σ.
Proof. split; try done; [apply pool_refl|]. exists []. by rewrite app_nil_r. Qed.

Lemma frame_trans P σ1 σ2 σ3 : frame P σ1 σ2 → frame P σ2 σ3 → frame P σ1 σ3.
Proof.
  intros [? ? ? ? ? ? (n1 & E1 & F1)] [? ? ? ? ? ? (n2 & E2 & F2)].
  split; try congruence.
  - by eapply pool_trans.
  - exists (n1 ++ n2). rewrite E2, E1, app_assoc. split; [done|]. by apply Forall_app.
Qed.

Lemma frame_mono (P Q : event → Prop) σ σ' : (∀ e, P e → Q e) → frame P σ σ' → frame Q σ σ'.
Proof.
  intros HPQ [? ? ? ? ? ? (n & E & F)]. split; try done.
  exists n. split; [done|]. eapply Forall_impl; eauto.
Qed.

Lemma frame_foldl {A} P (f : state → A → state) (l : list A) σ :
  (∀ σ a, frame P σ (f σ a)) → frame P σ (foldl f σ l).
Proof.
  intros Hf. revert σ. induction l as [|a l IH]; intros σ; simpl.
  - apply frame_refl.
  - eapply frame_trans; [apply Hf|apply IH].
Qed.

Lemma update_slot_frame P t f σ :
  (∀ sl, same_worker sl (f sl)) → frame P σ (update_slot t f σ).
Proof.
  intros Hf. split; try done.
  - simpl. destruct (pool σ !! t) eqn:Ht; [by apply pool_insert|apply pool_refl].
  - exists []. by rewrite app_nil_r.
Qed.

Lemma thread_start_frame P t σ : frame P σ (thread_start t σ).
Proof.
  unfold thread_start. destruct (isRunning t σ); [apply frame_refl|].
  by apply update_slot_frame.
Qed.

Lemma thread_quit_frame P t σ : frame P σ (thread_quit t σ).
Proof. by apply update_slot_frame. Qed.

Lemma set_threads_frame P f σ : frame P σ (set_threads f σ).
Proof. split; try done; [apply pool_refl|]. exists []. by rewrite app_nil_r. Qed.

Lemma set_workers_frame P f σ : frame P σ (set_workers f σ).
Proof. split; try done; [apply pool_refl|]. exists []. by rewrite app_nil_r. Qed.

Lemma set_working_frame P b σ : frame P σ (set_working b σ).
Proof. split; try done; [apply pool_refl|]. exists []. by rewrite app_nil_r. Qed.

Lemma set_helpers_frame P f σ : frame P σ (set_helpers f σ).
Proof. split; try done; [apply pool_refl|]. exists []. by rewrite app_nil_r. Qed.

Lemma emit_frame (P : event → Prop) e σ : P e → frame P σ (emit e σ).
Proof. intros He. split; try done; [apply pool_refl|]. exists [e]. split; [done|]. by constructor. Qed.

Lemma render_frame σ : frame is_finished σ (render σ).
Proof.
  unfold render.
  eapply frame_trans; [|apply frame_foldl; intros; apply thread_start_frame].
  destruct (length (workers (set_working true σ)) =? 0).
  - eapply frame_trans; [apply set_working_frame|].
    eapply frame_trans; [apply set_working_frame|]. by apply emit_frame.
  - apply set_working_frame.
Qed.

Lemma start_worker_frame name σ : frame is_finished σ (start_worker name σ).
Proof.
  unfold start_worker. destruct (dict_get name (workers σ)) as [t|]; [|apply frame_refl].
  destruct (mem t (threads σ)); [apply frame_refl|].
  destruct (working _).
  - apply set_threads_frame.
  - eapply frame_trans; [apply set_threads_frame|apply render_frame].
Qed.

Lemma cancel_worker_frame P name σ : frame P σ (cancel_worker name σ).
Proof.
  unfold cancel_worker. destruct (dict_get name (workers σ)) as [t|]; [|apply frame_refl].
  eapply frame_trans; [|apply set_workers_frame].
  eapply frame_trans; [apply thread_quit_frame|].
  destruct (mem t (threads (thread_quit t σ))).
  - eapply frame_trans; [apply set_threads_frame|].
    destruct (length _ =? 0); [apply set_working_frame|apply frame_refl].
  - destruct (length _ =? 0); [apply set_working_frame|apply frame_refl].
Qed.

Lemma helper_worker_done_frame i n s σ : frame is_finished σ (helper_worker_done i n s σ).
Proof.
  unfold helper_worker_done. destruct (helpers σ !! i) as [h|]; [|apply frame_refl].
  destruct (_ && _).
  - eapply frame_trans; [apply set_helpers_frame|apply start_worker_frame].
  - apply set_helpers_frame.
Qed.

Lemma helper_worker_error_frame P i n e σ : frame P σ (helper_worker_error i n e σ).
Proof.
  unfold helper_worker_error. destruct (helpers σ !! i) as [h|]; [|apply frame_refl].
  destruct (bool_decide _); [|apply frame_refl].
  eapply frame_trans; [apply set_helpers_frame|apply cancel_worker_frame].
Qed.

Lemma emit_worker_done_frame n s σ : frame (done_or_finished n s) σ (emit_worker_done n s σ).
Proof.
  unfold emit_worker_done.
  eapply frame_trans; [apply emit_frame; by left|].
  apply frame_foldl. intros σ' i.
  eapply frame_mono; [|apply helper_worker_done_frame]. intros e He. by right.
Qed.

Lemma emit_worker_error_frame n m σ : frame (eq (WorkerError n m)) σ (emit_worker_error n m σ).
Proof.
  unfold emit_worker_error.
  eapply frame_trans; [by apply emit_frame|].
  apply frame_foldl. intros σ' i. apply helper_worker_error_frame.
Qed.

Lemma clean_up_cancelled σ : cancelled (clean_up σ) = cancelled σ ∧ emitted (clean_up σ) = emitted σ.
Proof.
  unfold clean_up. generalize (PROCESSES σ). intros l. revert σ.
  induction l as [|p l IH]; intros σ; [done|]. simpl.
  destruct (IH (update_slot p (with_process Exited) σ)) as [-> ->]. done.
Qed.

Lemma mark_unfinished_foldl l σ :
  cancelled (foldl mark_unfinished σ l) = cancelled σ ∧
  emitted (foldl mark_unfinished σ l) = emitted σ.
Proof.
  revert σ. induction l as [|w l IH]; intros σ; [done|]. simpl.
  destruct (IH (mark_unfinished σ w)) as [-> ->].
  unfold mark_unfinished. by destruct (results σ !! w.1).
Qed.

Lemma cancel_emitted σ :
  cancelled (cancel σ) = true ∧ ∃ r, emitted (cancel σ) = emitted σ ++ [Finished r].
Proof.
  unfold cancel. cbv zeta.
  destruct (mark_unfinished_foldl (workers (set_cancelled true (clean_up σ)))
              (set_cancelled true (clean_up σ))) as [Hc He].
  split.
  - change (cancelled (emit ?e ?s)) with (cancelled s). by rewrite Hc.
  - eexists. change (emitted (emit ?e ?s)) with (emitted s ++ [e]).
    rewrite He. change (emitted (set_cancelled true ?s)) with (emitted s).
    by rewrite (proj2 (clean_up_cancelled σ)).
Qed.

(** ** Cancellation *)

Lemma worker_finished_cancelled t success σ :
  cancelled σ = true →
  cancelled (worker_finished t success σ) = true ∧
  emitted (worker_finished t success σ) = emitted σ.
Proof.
  intros Hc. unfold worker_finished. destruct (pool σ !! t) as [sl|]; [|done].
  cbv zeta. change (cancelled (set_results ?f σ)) with (cancelled σ). by rewrite Hc.
Qed.

Lemma step_after_cancel σ i σ' :
  cancelled σ = true → step σ i = Some σ' →
  cancelled σ' = true ∧ ∃ new, emitted σ' = emitted σ ++ new ∧ Forall (λ e, ¬ is_done e) new.
Proof.
  intros Hc. destruct i as [t|t line|t msg|t success|t|]; simpl.
  - destruct (_ && _); [|done]. intros [= <-]. split; [done|].
    exists []. by rewrite app_nil_r.
  - destruct (_ && _); [|done]. unfold _worker_progress.
    destruct (pool σ !! t) as [sl|]; simpl.
    + destruct (progress_percent _ _) as [[pct|]|]; simpl; intros [= <-]; (split; [done|]).
      * exists [WorkerProgress (w_name sl) pct]. split; [done|]. constructor; [|done]. by intros [].
      * exists []. by rewrite app_nil_r.
      * exists []. by rewrite app_nil_r.
    + intros [= <-]. split; [done|]. exists []. by rewrite app_nil_r.
  - destruct (active t σ); [|done]. destruct (pool σ !! t) as [sl|]; [|done].
    intros [= <-]. destruct (emit_worker_error_frame (w_name sl) msg σ) as [_ Hcan _ _ _ _ (new & E & F)].
    split; [congruence|]. exists new. split; [done|].
    eapply Forall_impl; [exact F|]. intros e <-. by intros [].
  - destruct (_ && _); [|done]. intros [= <-].
    set (σ1 := update_slot t with_done _).
    assert (H1 : cancelled σ1 = true ∧ emitted σ1 = emitted σ).
    { unfold σ1. destruct (has_process t σ); simpl; done. }
    destruct H1 as [Hc1 He1]. clearbody σ1.
    destruct (worker_finished_cancelled t success σ1 Hc1) as [-> ->].
    split; [done|]. exists []. by rewrite app_nil_r.
  - destruct (quitting t σ); [|done]. intros [= <-]. unfold thread_finished. simpl.
    rewrite Hc. simpl. split; [done|]. exists []. by rewrite app_nil_r.
  - intros [= <-]. destruct (cancel_emitted σ) as [Hcan [r Hr]]. split; [done|].
    exists [Finished r]. split; [done|]. constructor; [|done]. by intros [].
Qed.

(** C7, as the code has it. Once the cancellation flag is set it stays
    set, and no [worker_done] signal is emitted whatever is received
    afterwards: the per-job completion emissions are suppressed.
    Progress emissions are not guarded by the flag. *)
Theorem no_completion_emitted_after_cancel σ ins σ' :
  cancelled σ = true → steps σ ins = Some σ' →
  cancelled σ' = true ∧
  ∃ new, emitted σ' = emitted σ ++ new ∧ ∀ name success, WorkerDone name success ∉ new.
Proof.
  revert σ. induction ins as [|i ins IH]; intros σ Hc; simpl.
  - intros [= <-]. split; [done|]. exists []. rewrite app_nil_r. split; [done|].
    intros ? ?. apply not_elem_of_nil.
  - destruct (step σ i) as [σ1|] eqn:Hs; [|done]. intros Hrest.
    destruct (step_after_cancel σ i σ1 Hc Hs) as [Hc1 (new1 & E1 & F1)].
    destruct (IH σ1 Hc1 Hrest) as [Hc' (new2 & E2 & F2)].
    split; [done|]. exists (new1 ++ new2). rewrite E2, E1, app_assoc. split; [done|].
    intros name success [Hin|Hin]%elem_of_app.
    + rewrite Forall_forall in F1. by apply (F1 _ Hin).
    + by apply (F2 name success).
Qed.

(** ** Dictionaries and lists *)

Section Dict.
Context {V : Type}.
Implicit Types d : list (string * V).

Lemma dict_get_elem k v d : dict_get k d = Some v → (k, v) ∈ d.
Proof.
  induction d as [|[k' v'] d IH]; [done|]. simpl.
  destruct (String.eqb_spec k' k) as [->|Hne].
  - intros [= ->]. apply list_elem_of_here.
  - intros H. apply list_elem_of_further. by apply IH.
Qed.

Lemma dict_get_not_key k d : k ∉ d.*1 → dict_get k d = None.
Proof.
  induction d as [|[k' v'] d IH]; [done|]. simpl.
  intros Hk. apply not_elem_of_cons in Hk as [Hne Hk].
  destruct (String.eqb_spec k' k) as [->|_]; [done|]. by apply IH.
Qed.

Lemma dict_get_key k v d : dict_get k d = Some v → k ∈ d.*1.
Proof.
  intros H%dict_get_elem. apply list_elem_of_fmap. by exists (k, v).
Qed.

Lemma dict_set_get_eq k v d : dict_get k (dict_set k v d) = Some v.
Proof.
  induction d as [|[k' v'] d IH]; simpl.
  - by rewrite String.eqb_refl.
  - destruct (String.eqb_spec k' k) as [->|Hne]; simpl.
    + by rewrite String.eqb_refl.
    + by apply String.eqb_neq in Hne as ->.
Qed.

Lemma dict_set_get_ne k k' v d : k ≠ k' → dict_get k' (dict_set k v d) = dict_get k' d.
Proof.
  intros Hne. induction d as [|[k0 v0] d IH]; simpl.
  - by apply String.eqb_neq in Hne as ->.
  - destruct (String.eqb_spec k0 k) as [->|Hne0]; simpl.
    + by apply String.eqb_neq in Hne as ->.
    + by rewrite IH.
Qed.

Lemma dict_set_fresh k v d : k ∉ d.*1 → dict_set k v d = d ++ [(k, v)].
Proof.
  induction d as [|[k0 v0] d IH]; [done|]. simpl.
  intros Hk. apply not_elem_of_cons in Hk as [Hne Hk].
  destruct (String.eqb_spec k0 k) as [->|_]; [done|]. by rewrite IH.
Qed.

Lemma dict_del_get_ne k k' d : k ≠ k' → dict_get k' (dict_del k d) = dict_get k' d.
Proof.
  intros Hne. induction d as [|[k0 v0] d IH]; [done|]. simpl.
  destruct (String.eqb_spec k0 k) as [->|Hne0]; simpl.
  - by apply String.eqb_neq in Hne as ->.
  - by rewrite IH.
Qed.

Lemma dict_del_keys k d : NoDup d.*1 → NoDup (dict_del k d).*1.
Proof.
  induction d as [|[k0 v0] d IH]; [done|]. simpl.
  intros [Hk Hnd]%NoDup_cons.
  destruct (String.eqb_spec k0 k) as [->|Hne0]; [done|]. simpl.
  apply NoDup_cons. split; [|by apply IH].
  intros Hin. apply Hk. clear -Hin.
  induction d as [|[k1 v1] d IH]; [done|]. simpl in *.
  destruct (String.eqb k1 k); [by apply list_elem_of_further|].
  apply elem_of_cons in Hin as [->|Hin]; [apply list_elem_of_here|].
  apply list_elem_of_further. by apply IH.
Qed.

Lemma dict_del_get_eq k d : NoDup d.*1 → dict_get k (dict_del k d) = None.
Proof.
  induction d as [|[k0 v0] d IH]; [done|]. simpl.
  intros [Hk Hnd]%NoDup_cons.
  destruct (String.eqb_spec k0 k) as [->|Hne0].
  - by apply dict_get_not_key.
  - simpl. apply String.eqb_neq in Hne0 as ->. by apply IH.
Qed.

End Dict.

Lemma del_thread_keys t (d : list (string * nat)) : NoDup d.*1 → NoDup (del_thread t d).*1.
Proof.
  induction d as [|[k0 v0] d IH]; [done|]. simpl.
  intros [Hk Hnd]%NoDup_cons.
  destruct (Nat.eqb v0 t); [done|]. simpl.
  apply NoDup_cons. split; [|by apply IH].
  intros Hin. apply Hk. clear -Hin.
  induction d as [|[k1 v1] d IH]; [done|]. simpl in *.
  destruct (Nat.eqb v1 t); [by apply list_elem_of_further|].
  apply elem_of_cons in Hin as [->|Hin]; [apply list_elem_of_here|].
  apply list_elem_of_further. by apply IH.
Qed.

Lemma del_thread_get k t v (d : list (string * nat)) :
  NoDup d.*1 → dict_get k (del_thread t d) = Some v → dict_get k d = Some v.
Proof.
  induction d as [|[k0 v0] d IH]; [done|]. simpl.
  intros [Hk Hnd]%NoDup_cons.
  destruct (Nat.eqb v0 t) eqn:Ht.
  - intros H. destruct (String.eqb_spec k0 k) as [->|_]; [|done].
    by apply dict_get_key in H.
  - simpl. destruct (String.eqb k0 k); [done|]. by apply IH.
Qed.

Lemma del_thread_get_ne k t v (d : list (string * nat)) :
  dict_get k d = Some v → v ≠ t → dict_get k (del_thread t d) = Some v.
Proof.
  intros H Hne. induction d as [|[k0 v0] d IH]; [done|]. simpl in *.
  destruct (String.eqb_spec k0 k) as [->|Hk].
  - injection H as ->. apply Nat.eqb_neq in Hne as ->. simpl. by rewrite String.eqb_refl.
  - destruct (Nat.eqb v0 t); [done|]. simpl.
    apply String.eqb_neq in Hk as ->. by apply IH.
Qed.

Lemma del_thread_length t (d : list (string * nat)) : length (del_thread t d) ≤ length d.
Proof.
  induction d as [|[k0 v0] d IH]; [done|]. simpl.
  destruct (Nat.eqb v0 t); simpl; lia.
Qed.

Lemma mem_elem x l : mem x l = true ↔ x ∈ l.
Proof.
  unfold mem. rewrite existsb_exists. split.
  - intros (y & Hy%list_elem_of_In & ->%Nat.eqb_eq). done.
  - intros H. exists x. split; [by apply list_elem_of_In|apply Nat.eqb_refl].
Qed.

Lemma mem_not_elem x l : mem x l = false ↔ x ∉ l.
Proof. rewrite <- mem_elem. by destruct (mem x l). Qed.

Lemma list_remove_elem x y l : x ∈ list_remove y l → x ∈ l.
Proof.
  induction l as [|z l IH]; [done|]. simpl.
  destruct (Nat.eqb z y); [by apply list_elem_of_further|].
  intros [->|H]%elem_of_cons; [apply list_elem_of_here|].
  apply list_elem_of_further. by apply IH.
Qed.

Lemma list_remove_elem_ne x y l : x ∈ l → x ≠ y → x ∈ list_remove y l.
Proof.
  intros H Hne. induction l as [|z l IH]; [done|]. simpl.
  destruct (Nat.eqb_spec z y) as [->|Hz].
  - apply elem_of_cons in H as [->|H]; done.
  - apply elem_of_cons in H as [->|H]; [apply list_elem_of_here|].
    apply list_elem_of_further. by apply IH.
Qed.

Lemma list_remove_NoDup y l : NoDup l → NoDup (list_remove y l).
Proof.
  induction l as [|z l IH]; [done|]. simpl.
  intros [Hz Hnd]%NoDup_cons.
  destruct (Nat.eqb z y); [done|].
  apply NoDup_cons. split; [|by apply IH].
  intros H%list_remove_elem. done.
Qed.

Lemma list_remove_not_elem y l : NoDup l → y ∉ list_remove y l.
Proof.
  induction l as [|z l IH]; [intros _; apply not_elem_of_nil|]. simpl.
  intros [Hz Hnd]%NoDup_cons.
  destruct (Nat.eqb_spec z y) as [->|Hne]; [done|].
  apply not_elem_of_cons. split; [done|]. by apply IH.
Qed.

Lemma list_remove_length y l : length (list_remove y l) ≤ length l.
Proof.
  induction l as [|z l IH]; [done|]. simpl. destruct (Nat.eqb z y); simpl; lia.
Qed.

Lemma length_zero_nil {A} (l : list A) : (length l =? 0) = true → l = [].
Proof. by destruct l. Qed.

Lemma count_running_insert (l : list slot) i x y :
  l !! i = Some x →
  length (filter (λ sl, t_status sl = Running) (<[i := y]> l))
    + (if decide (t_status x = Running) then 1 else 0)
  = length (filter (λ sl, t_status sl = Running) l)
    + (if decide (t_status y = Running) then 1 else 0).
Proof.
  revert i. induction l as [|a l IH]; intros [|i] Hi; simplify_eq/=.
  - rewrite !filter_cons. repeat case_decide; simpl; lia.
  - rewrite !filter_cons. specialize (IH i Hi).
    destruct (decide (t_status a = Running)); simpl; lia.
Qed.

(** ** Threads *)

Lemma update_slot_lookup t f σ t' :
  pool (update_slot t f σ) !! t' =
    if decide (t = t') then f <$> pool σ !! t else pool σ !! t'.
Proof.
  simpl. destruct (pool σ !! t) as [sl|] eqn:Ht.
  - case_decide as Heq.
    + subst. apply list_lookup_insert_eq. by eapply lookup_lt_Some.
    + by apply list_lookup_insert_ne.
  - case_decide; by subst.
Qed.

Lemma pool_names (p q : list slot) : Forall2 same_worker p q → w_name <$> q = w_name <$> p.
Proof.
  induction 1 as [|a b p q (Hn & _) _ IH]; [done|].
  rewrite !fmap_cons. by rewrite Hn, IH.
Qed.

Lemma frame_names P σ σ' : frame P σ σ' → w_name <$> pool σ' = w_name <$> pool σ.
Proof. intros [_ _ _ _ _ Hp _]. by apply pool_names. Qed.

Lemma frame_slot_named P σ σ' t n : frame P σ σ' → slot_named σ t n ↔ slot_named σ' t n.
Proof.
  intros [_ _ _ _ _ Hp _]. split.
  - intros (sl & Ht & Hn). destruct (pool_lookup_l _ _ _ _ Hp Ht) as (sl' & Ht' & (Hn' & _)).
    exists sl'. split; [done|]. congruence.
  - intros (sl & Ht & Hn). destruct (pool_lookup _ _ _ _ Hp Ht) as (sl' & Ht' & (Hn' & _)).
    exists sl'. split; [done|]. congruence.
Qed.

Lemma isRunning_update t f σ t' :
  isRunning t' (update_slot t f σ) =
    if decide (t = t') then
      match pool σ !! t with
      | Some sl => match t_status (f sl) with Running => true | _ => false end
      | None => false
      end
    else isRunning t' σ.
Proof.
  unfold isRunning at 1. rewrite update_slot_lookup.
  case_decide; [|done]. by destruct (pool σ !! t).
Qed.

Lemma running_count_zero σ : (∀ t, isRunning t σ = false) → running_count σ = 0.
Proof.
  intros H. unfold running_count.
  assert (Hall : Forall (λ sl, t_status sl ≠ Running) (pool σ)).
  { apply Forall_lookup. intros t sl Ht Hr. specialize (H t).
    unfold isRunning in H. rewrite Ht, Hr in H. done. }
  induction Hall as [|sl l Hsl _ IH]; [done|].
  by rewrite filter_cons_False.
Qed.

Lemma running_count_update t f σ sl :
  pool σ !! t = Some sl →
  running_count (update_slot t f σ) + (if decide (t_status sl = Running) then 1 else 0)
  = running_count σ + (if decide (t_status (f sl) = Running) then 1 else 0).
Proof.
  intros Ht. unfold running_count. simpl. rewrite Ht.
  by apply count_running_insert.
Qed.

Lemma running_count_same_status t f σ :
  (∀ sl, t_status (f sl) = t_status sl) → running_count (update_slot t f σ) = running_count σ.
Proof.
  intros Hf. destruct (pool σ !! t) as [sl|] eqn:Ht.
  - pose proof (running_count_update t f σ sl Ht) as H. rewrite Hf in H. lia.
  - unfold running_count. simpl. by rewrite Ht.
Qed.

Lemma thread_start_count t σ : running_count (thread_start t σ) ≤ S (running_count σ).
Proof.
  unfold thread_start. destruct (isRunning t σ); [lia|].
  destruct (pool σ !! t) as [sl|] eqn:Ht.
  - pose proof (running_count_update t (with_status Running) σ sl Ht) as H.
    destruct (decide (t_status (with_status Running sl) = Running)); [|done].
    destruct (decide (t_status sl = Running)); lia.
  - unfold running_count. simpl. rewrite Ht. lia.
Qed.

Lemma thread_start_isRunning t σ t' :
  isRunning t' (thread_start t σ) = true → isRunning t' σ = true ∨ t' = t.
Proof.
  unfold thread_start. destruct (isRunning t σ) eqn:Hr; [by left|].
  rewrite isRunning_update. case_decide; [by right|by left].
Qed.

Lemma thread_start_keeps t σ t' : isRunning t' σ = true → isRunning t' (thread_start t σ) = true.
Proof.
  unfold thread_start. destruct (isRunning t σ) eqn:Hr; [done|].
  rewrite isRunning_update. case_decide; [|done]. subst. congruence.
Qed.

(** ** The invariant of the scheduler is kept by every operation *)

Lemma queue_inv_core σ σ' : core σ = core σ' → queue_inv σ → queue_inv σ'.
Proof.
  destruct σ, σ'. unfold core. simpl. intros [= -> -> -> -> -> ->].
  intros [? ? ? ? ? ? ? ?]. split; done.
Qed.

Lemma sched_inv_core σ σ' : core σ = core σ' → sched_inv σ → sched_inv σ'.
Proof.
  intros Hc [Hq Hw Hn]. split.
  - by eapply queue_inv_core.
  - destruct σ, σ'. unfold core in Hc. simpl in *. by injection Hc as -> -> -> -> -> ->.
  - destruct σ, σ'. unfold core in Hc. simpl in *. by injection Hc as -> -> -> -> -> ->.
Qed.

Lemma release_inv_core σ σ' : core σ = core σ' → release_inv σ → release_inv σ'.
Proof.
  destruct σ, σ'. unfold core. simpl. intros [= -> -> -> -> -> ->]. done.
Qed.

(** Updating a slot without changing its name or the state of its thread. *)
Lemma queue_inv_update t f σ :
  (∀ sl, w_name (f sl) = w_name sl ∧ t_status (f sl) = t_status sl) →
  queue_inv σ → queue_inv (update_slot t f σ).
Proof.
  intros Hf [Hmax Hnames Hthr Hkeys Hwork Hrun Hcomb Hgate].
  assert (Hlook : ∀ t' sl', pool (update_slot t f σ) !! t' = Some sl' →
            ∃ sl, pool σ !! t' = Some sl ∧ w_name sl' = w_name sl ∧ t_status sl' = t_status sl).
  { intros t' sl'. rewrite update_slot_lookup. case_decide; subst.
    - destruct (pool σ !! t') as [sl|]; simpl; [|done]. intros [= <-].
      exists sl. split; [done|]. apply Hf.
    - intros. by eexists. }
  split; try done.
  - simpl. destruct (pool σ !! t) as [sl|] eqn:Ht; [|done].
    rewrite list_fmap_insert, (proj1 (Hf sl)), list_insert_id; [done|].
    by rewrite list_lookup_fmap, Ht.
  - intros n t' Hn. destruct (Hwork n t' Hn) as (sl & Ht' & Hname).
    unfold slot_named. rewrite update_slot_lookup. case_decide; subst.
    + rewrite Ht'. simpl. eexists. split; [done|]. by rewrite (proj1 (Hf sl)).
    + by exists sl.
  - intros t'. rewrite isRunning_update. case_decide; [|apply Hrun]. subst.
    destruct (pool σ !! t') as [sl|] eqn:Ht; [|done].
    rewrite (proj2 (Hf sl)). intros Hr. apply Hrun. unfold isRunning. by rewrite Ht.
  - intros h t' sl' Hh Ht' Hn Hor. destruct (Hlook _ _ Ht') as (sl & Hsl & Hname & Hst).
    apply (Hgate h t' sl); [done|done|congruence|].
    destruct Hor as [?|?]; [by left|right; congruence].
Qed.

Lemma isRunning_update_same t f σ t' :
  (∀ sl, t_status (f sl) = t_status sl) → isRunning t' (update_slot t f σ) = isRunning t' σ.
Proof.
  intros Hf. rewrite isRunning_update. case_decide; [|done]. subst.
  unfold isRunning. destruct (pool σ !! t'); [|done]. by rewrite Hf.
Qed.

Lemma sched_inv_update t f σ :
  (∀ sl, w_name (f sl) = w_name sl ∧ t_status (f sl) = t_status sl) →
  sched_inv σ → sched_inv (update_slot t f σ).
Proof.
  intros Hf [Hq Hw Hn]. split.
  - by apply queue_inv_update.
  - intros Hwk t'. rewrite isRunning_update_same by apply Hf. by apply Hw.
  - rewrite running_count_same_status by apply Hf. done.
Qed.

Lemma started_update t f σ n :
  (∀ sl, w_name (f sl) = w_name sl) →
  (∀ sl, t_status sl ≠ NotStarted → t_status (f sl) ≠ NotStarted) →
  started n σ → started n (update_slot t f σ).
Proof.
  intros Hname Hst (t' & sl & Ht' & Hn & Hs). exists t'.
  destruct (decide (t = t')) as [->|Hne].
  - exists (f sl). rewrite update_slot_lookup, decide_True, Ht' by done.
    split; [done|]. split; [by rewrite Hname|by apply Hst].
  - exists sl. by rewrite update_slot_lookup, decide_False.
Qed.

Lemma release_inv_update t f σ :
  (∀ sl, w_name (f sl) = w_name sl) →
  (∀ sl, t_status sl ≠ NotStarted → t_status (f sl) ≠ NotStarted) →
  release_inv σ → release_inv (update_slot t f σ).
Proof.
  intros Hname Hst Hrel h Hh He. destruct (Hrel h Hh He) as [H1 H2].
  split; [|done]. intros Hw. destruct (H1 Hw) as [?|?]; [left|by right].
  by apply started_update.
Qed.

(** Starting a thread of the queue. *)
Lemma queue_inv_thread_start t σ :
  t ∈ threads σ → queue_inv σ → queue_inv (thread_start t σ).
Proof.
  intros Hin Hq. unfold thread_start. destruct (isRunning t σ) eqn:Hr; [done|].
  destruct Hq as [Hmax Hnames Hthr Hkeys Hwork Hrun Hcomb Hgate].
  split; try done.
  - simpl. destruct (pool σ !! t) as [sl|] eqn:Ht; [|done].
    rewrite list_fmap_insert. simpl. rewrite list_insert_id; [done|].
    by rewrite list_lookup_fmap, Ht.
  - intros n t' Hn. destruct (Hwork n t' Hn) as (sl & Ht' & Hname).
    unfold slot_named. rewrite update_slot_lookup. case_decide; subst.
    + rewrite Ht'. simpl. by eexists.
    + by exists sl.
  - intros t'. rewrite isRunning_update. case_decide; [by subst|apply Hrun].
  - intros h t' sl' Hh. rewrite update_slot_lookup. case_decide; subst.
    + destruct (pool σ !! t') as [sl|] eqn:Ht; simpl; [|done]. intros [= <-] Hn _.
      apply (Hgate h t' sl); auto.
    + intros Ht' Hn Hor. by apply (Hgate h t' sl').
Qed.

Lemma thread_start_fields t σ :
  threads (thread_start t σ) = threads σ ∧ workers (thread_start t σ) = workers σ ∧
  helpers (thread_start t σ) = helpers σ ∧ working (thread_start t σ) = working σ ∧
  maxProcesses (thread_start t σ) = maxProcesses σ.
Proof. unfold thread_start. by destruct (isRunning t σ). Qed.

Lemma start_threads l σ :
  (∀ t, t ∈ l → t ∈ threads σ) → queue_inv σ →
  let σ' := foldl (λ σ t, thread_start t σ) σ l in
  queue_inv σ' ∧
  threads σ' = threads σ ∧ workers σ' = workers σ ∧ helpers σ' = helpers σ ∧
  working σ' = working σ ∧ maxProcesses σ' = maxProcesses σ ∧
  running_count σ' ≤ running_count σ + length l ∧
  (∀ n, started n σ → started n σ').
Proof.
  revert σ. induction l as [|t l IH]; intros σ Hl Hq; simpl.
  - do 6 (split; [done|]). split; [lia|done].
  - destruct (thread_start_fields t σ) as (Ht & Hw & Hh & Hk & Hm).
    destruct (IH (thread_start t σ)) as (Hq' & Ht' & Hw' & Hh' & Hk' & Hm' & Hc' & Hs').
    { intros t' Hin. rewrite Ht. apply Hl. by right. }
    { apply queue_inv_thread_start; [|done]. apply Hl. by left. }
    split; [done|]. do 5 (split; [congruence|]). split.
    + pose proof (thread_start_count t σ). lia.
    + intros n Hn. apply Hs'. unfold thread_start. destruct (isRunning t σ); [done|].
      apply started_update; [done| |done]. done.
Qed.

Lemma render_fields σ :
  threads (render σ) = threads σ ∧ workers (render σ) = workers σ ∧
  helpers (render σ) = helpers σ ∧ maxProcesses (render σ) = maxProcesses σ.
Proof.
  unfold render. cbv zeta.
  set (σ0 := if length (workers (set_working true σ)) =? 0 then _ else _).
  assert (H0 : threads σ0 = threads σ ∧ workers σ0 = workers σ ∧ helpers σ0 = helpers σ ∧
               maxProcesses σ0 = maxProcesses σ).
  { unfold σ0. by destruct (_ =? 0). }
  clearbody σ0. destruct H0 as (Ht & Hw & Hh & Hm).
  generalize (take (Z.to_nat (maxProcesses σ0 `min` Z.of_nat (length (threads σ0)))) (threads σ0)).
  intros l. revert σ0 Ht Hw Hh Hm. induction l as [|t l IH]; intros σ0 Ht Hw Hh Hm; [done|].
  simpl. destruct (thread_start_fields t σ0) as (Ht' & Hw' & Hh' & _ & Hm').
  apply IH; congruence.
Qed.

Lemma sched_inv_render σ :
  sched_inv σ → working σ = false → (workers σ ≠ [] ∨ threads σ = []) →
  sched_inv (render σ) ∧ (∀ n, started n σ → started n (render σ)).
Proof.
  intros [Hq Hw Hn] Hwk Hor.
  assert (Hzero : running_count σ = 0) by (apply running_count_zero; auto).
  unfold render. cbv zeta.
  set (σ0 := if length (workers (set_working true σ)) =? 0 then _ else _).
  assert (H0 : core σ0 = (maxProcesses σ, pool σ, threads σ, workers σ, helpers σ,
                          negb (length (workers σ) =? 0))).
  { unfold σ0. simpl. by destruct (_ =? 0). }
  assert (Hq0 : queue_inv σ0).
  { destruct σ, σ0. unfold core in H0. simpl in *. injection H0 as -> -> -> -> -> ->.
    destruct Hq. split; done. }
  assert (Hf : (maxProcesses σ0, pool σ0, threads σ0, workers σ0, working σ0)
               = (maxProcesses σ, pool σ, threads σ, workers σ, negb (length (workers σ) =? 0))).
  { unfold core in H0. by injection H0 as -> -> -> -> _ ->. }
  clearbody σ0. injection Hf as Hm0 Hp0 Ht0 Hw0 Hk0.
  destruct (start_threads
              (take (Z.to_nat (maxProcesses σ0 `min` Z.of_nat (length (threads σ0)))) (threads σ0)) σ0)
    as (Hq' & Ht' & Hw' & Hh' & Hk' & Hm' & Hc' & Hs'); [|done|].
  { intros t [i [Hi _]]%elem_of_take. by eapply list_elem_of_lookup_2. }
  split; [|].
  - split; [done| |].
    + rewrite Hk', Hk0. intros Hlen t. apply negb_false_iff, length_zero_nil in Hlen.
      destruct Hor as [?|Hnil]; [done|].
      rewrite Ht0, Hnil, take_nil. simpl. unfold isRunning. rewrite Hp0. by apply Hw.
    + rewrite Hm'.
      assert (running_count σ0 = 0) as Hz0.
      { unfold running_count. rewrite Hp0. apply Hzero. }
      rewrite length_take in Hc'. destruct Hq as [Hmax _ _ _ _ _ _ _].
      rewrite <- Hm0 in Hmax. rewrite Hz0 in Hc'. lia.
  - intros n (t & sl & Hsl & Hname & Hst). apply Hs'.
    exists t, sl. by rewrite Hp0.
Qed.

Lemma elem_of_insert_inv {A} (l : list A) i x y :
  x ∈ <[i := y]> l → x = y ∨ ∃ j, j ≠ i ∧ l !! j = Some x.
Proof.
  intros [j Hj]%list_elem_of_lookup. destruct (decide (i = j)) as [->|Hne].
  - left. rewrite list_lookup_insert_eq in Hj by (rewrite <- (length_insert l j y); by eapply lookup_lt_Some).
    congruence.
  - right. rewrite list_lookup_insert_ne in Hj by done. by exists j.
Qed.

Lemma NoDup_fmap_lookup {A B} (f : A → B) (l : list A) i j x y :
  NoDup (f <$> l) → l !! i = Some x → l !! j = Some y → f x = f y → i = j.
Proof.
  intros Hnd Hi Hj Hf. eapply (NoDup_lookup _ i j (f x) Hnd).
  - by rewrite list_lookup_fmap, Hi.
  - by rewrite list_lookup_fmap, Hj, Hf.
Qed.

Lemma NoDup_fmap_elem {A B} (f : A → B) (l : list A) x y :
  NoDup (f <$> l) → x ∈ l → y ∈ l → f x = f y → x = y.
Proof.
  intros Hnd [i Hi]%list_elem_of_lookup [j Hj]%list_elem_of_lookup Hf.
  assert (i = j) as -> by (by eapply NoDup_fmap_lookup). congruence.
Qed.

Lemma sched_inv_set_working_true σ : sched_inv σ → sched_inv (set_working true σ).
Proof.
  intros [Hq Hw Hn]. split; [|done|done].
  destruct Hq. split; done.
Qed.

Lemma sched_inv_set_working_false σ :
  sched_inv σ → threads σ = [] → sched_inv (set_working false σ).
Proof.
  intros [Hq Hw Hn] Hnil. split; [|
    |done].
  - destruct Hq. split; done.
  - intros _ t. destruct (isRunning t σ) eqn:Hr; [|done].
    apply (inv_running _ Hq) in Hr. rewrite Hnil in Hr. by apply not_elem_of_nil in Hr.
Qed.

Lemma queue_inv_set_workers f σ :
  queue_inv σ → NoDup (f (workers σ)).*1 →
  (∀ n t, dict_get n (f (workers σ)) = Some t → dict_get n (workers σ) = Some t) →
  queue_inv (set_workers f σ).
Proof.
  intros [Hmax Hnames Hthr Hkeys Hwork Hrun Hcomb Hgate] Hk Hsub.
  split; try done. intros n t Hn. apply (Hwork n t). by apply Hsub.
Qed.

Lemma sched_inv_set_workers f σ :
  sched_inv σ → NoDup (f (workers σ)).*1 →
  (∀ n t, dict_get n (f (workers σ)) = Some t → dict_get n (workers σ) = Some t) →
  sched_inv (set_workers f σ).
Proof.
  intros [Hq Hw Hn] Hk Hsub. split; [by apply queue_inv_set_workers|done|done].
Qed.

Lemma queue_inv_set_threads f σ :
  queue_inv σ → NoDup (f (threads σ)) →
  (∀ t, isRunning t σ = true → t ∈ f (threads σ)) →
  (∀ t, t ∈ f (threads σ) → t ∈ threads σ ∨
        ∀ h sl, h ∈ helpers σ → pool σ !! t = Some sl → w_name sl = combine_worker h →
                h_workers h = ∅ ∧ h_error h = false) →
  queue_inv (set_threads f σ).
Proof.
  intros [Hmax Hnames Hthr Hkeys Hwork Hrun Hcomb Hgate] Hnd Hr Hnew.
  split; try done. intros h t sl Hh Ht Hn [Hin|Hst].
  - destruct (Hnew t Hin) as [Hold|Hfresh].
    + apply (Hgate h t sl); auto.
    + by apply (Hfresh h sl).
  - apply (Hgate h t sl); auto.
Qed.

Lemma sched_inv_set_threads f σ :
  sched_inv σ → NoDup (f (threads σ)) →
  (∀ t, isRunning t σ = true → t ∈ f (threads σ)) →
  (∀ t, t ∈ f (threads σ) → t ∈ threads σ ∨
        ∀ h sl, h ∈ helpers σ → pool σ !! t = Some sl → w_name sl = combine_worker h →
                h_workers h = ∅ ∧ h_error h = false) →
  sched_inv (set_threads f σ).
Proof.
  intros [Hq Hw Hn] ? ? ?. split; [by apply queue_inv_set_threads|done|done].
Qed.

Lemma sched_inv_set_helpers i h h' σ :
  sched_inv σ → helpers σ !! i = Some h → combine_worker h' = combine_worker h →
  (h_workers h = ∅ ∧ h_error h = false → h' = h) →
  sched_inv (set_helpers (λ hs, <[i := h']> hs) σ).
Proof.
  intros [[Hmax Hnames Hthr Hkeys Hwork Hrun Hcomb Hgate] Hw Hn] Hi Hc Hsame.
  split; [|done|done]. split; try done.
  - simpl. rewrite list_fmap_insert, Hc, list_insert_id; [done|].
    by rewrite list_lookup_fmap, Hi.
  - simpl. intros h0 t sl [->|(j & Hj & Hh0)]%elem_of_insert_inv Ht Hname Hor.
    + rewrite Hc in Hname.
      assert (Hh : h ∈ helpers σ) by (by eapply list_elem_of_lookup_2).
      pose proof (Hgate h t sl Hh Ht Hname Hor) as Hg. by rewrite (Hsame Hg).
    + apply (Hgate h0 t sl); auto. by eapply list_elem_of_lookup_2.
Qed.

(** [start_worker], called for a helper that waits for no song and has
    no error. *)
Lemma sched_inv_start_worker name σ :
  sched_inv σ →
  (∀ h, h ∈ helpers σ → combine_worker h = name → h_workers h = ∅ ∧ h_error h = false) →
  let σ' := start_worker name σ in
  sched_inv σ' ∧ helpers σ' = helpers σ ∧ workers σ' = workers σ ∧
  (∀ t, t ∈ threads σ → t ∈ threads σ') ∧
  (∀ n, started n σ → started n σ') ∧
  (∀ t, dict_get name (workers σ) = Some t → t ∈ threads σ').
Proof.
  intros Hinv Hpre. unfold start_worker.
  destruct (dict_get name (workers σ)) as [t|] eqn:Hget; simpl; [|done].
  destruct (mem t (threads σ)) eqn:Hmem.
  - apply mem_elem in Hmem. do 5 (split; [done|]). by intros ? [= <-].
  - apply mem_not_elem in Hmem.
    set (σ1 := set_threads (λ l, l ++ [t]) σ).
    assert (H1 : sched_inv σ1).
    { apply sched_inv_set_threads; [done| | |].
      - apply NoDup_app. split; [apply Hinv|]. split; [|apply NoDup_singleton].
        intros x Hx ->%list_elem_of_singleton. done.
      - intros t' Hr. apply elem_of_app. left. by apply Hinv.
      - intros t' [Hin|Heq%list_elem_of_singleton]%elem_of_app; [by left|]. subst t'. right.
        intros h sl Hh Hsl Hname. apply Hpre; [done|].
        destruct (inv_workers _ (inv_queue _ Hinv) name t Hget) as (sl' & Hsl' & <-).
        congruence. }
    destruct (working σ) eqn:Hwk.
    + split; [exact H1|]. do 2 (split; [reflexivity|]). split.
      * intros t' Hin. apply elem_of_app. by left.
      * split; [done|]. intros ? [= <-]. apply elem_of_app. right. apply list_elem_of_here.
    + destruct (sched_inv_render σ1 H1 Hwk) as [Hr Hs].
      { left. simpl. intros Hnil. by rewrite Hnil in Hget. }
      destruct (render_fields σ1) as (Ht & Hw & Hh & _).
      split; [exact Hr|]. split; [exact Hh|]. split; [exact Hw|]. split.
      * intros t' Hin. rewrite Ht. apply elem_of_app. by left.
      * split; [apply Hs|]. intros ? [= <-]. rewrite Ht. apply elem_of_app. right.
        apply list_elem_of_here.
Qed.

(** [cancel_worker], called for a job whose thread is not in the queue. *)
Lemma sched_inv_cancel_worker name σ :
  sched_inv σ →
  (∀ t, dict_get name (workers σ) = Some t → t ∉ threads σ) →
  let σ' := cancel_worker name σ in
  sched_inv σ' ∧ helpers σ' = helpers σ ∧ threads σ' = threads σ ∧
  (∀ n, n ≠ name → dict_get n (workers σ') = dict_get n (workers σ)) ∧
  (∀ n, started n σ → started n σ').
Proof.
  intros Hinv Hpre. unfold cancel_worker.
  destruct (dict_get name (workers σ)) as [t|] eqn:Hget; simpl; [|done].
  specialize (Hpre t eq_refl). apply mem_not_elem in Hpre.
  change (threads (thread_quit t σ)) with (threads σ). rewrite Hpre.
  assert (H1 : sched_inv (thread_quit t σ)) by (by apply sched_inv_update).
  set (σ2 := if length (threads (thread_quit t σ)) =? 0 then _ else _).
  assert (H2 : sched_inv σ2 ∧ helpers σ2 = helpers σ ∧ threads σ2 = threads σ ∧
               workers σ2 = workers σ ∧ pool σ2 = pool (thread_quit t σ)).
  { unfold σ2. destruct (length (threads (thread_quit t σ)) =? 0) eqn:Hlen; [|done].
    split; [|done]. apply sched_inv_set_working_false; [done|]. by apply length_zero_nil. }
  clearbody σ2. destruct H2 as (H2 & Hh2 & Ht2 & Hw2 & Hp2).
  split; [|split; [done|split; [done|split]]].
  - apply sched_inv_set_workers; [done| |].
    + apply dict_del_keys. rewrite Hw2. apply Hinv.
    + intros n t'. destruct (decide (name = n)) as [->|Hne].
      * rewrite dict_del_get_eq; [done|]. rewrite Hw2. apply Hinv.
      * by rewrite dict_del_get_ne.
  - intros n Hne. simpl. rewrite Hw2. by apply dict_del_get_ne.
  - intros n Hn. apply (started_update t with_quit σ n) in Hn; [|done|done].
    destruct Hn as (t' & sl & Hsl & ? & ?). exists t', sl. simpl. by rewrite Hp2.
Qed.

(** ** The handlers of a helper *)

Lemma size_zero_empty (X : gset string) : (size X =? 0) = true ↔ X = ∅.
Proof.
  rewrite Nat.eqb_eq, size_empty_iff. split; [apply leibniz_equiv|by intros ->].
Qed.

Lemma done_update_combine n s h : combine_worker (done_update n s h) = combine_worker h.
Proof. unfold done_update. destruct (bool_decide _); [|done]. by destruct s. Qed.

Lemma done_update_album n s h : album (done_update n s h) = album h.
Proof. unfold done_update. destruct (bool_decide _); [|done]. by destruct s. Qed.

Lemma done_update_empty n s h : h_workers h = ∅ → done_update n s h = h.
Proof.
  intros He. unfold done_update. rewrite bool_decide_eq_false_2; [done|].
  rewrite He. set_solver.
Qed.

Lemma done_update_error n s h : h_error (done_update n s h) = false → h_error h = false.
Proof. unfold done_update. destruct (bool_decide _); [|done]. by destruct s. Qed.

Lemma done_update_workers n s h : h_workers (done_update n s h) = h_workers h ∖ {[n]}.
Proof.
  unfold done_update. destruct (bool_decide_reflect (n ∈ h_workers h)) as [Hin|Hnin].
  - by destruct s.
  - set_solver.
Qed.

Lemma error_update_combine n h : combine_worker (error_update n h) = combine_worker h.
Proof. unfold error_update. by destruct (bool_decide _). Qed.

Lemma error_update_album n h : album (error_update n h) = album h.
Proof. unfold error_update. by destruct (bool_decide _). Qed.

Lemma error_update_workers n h : h_workers (error_update n h) = h_workers h.
Proof. unfold error_update. by destruct (bool_decide _). Qed.

Lemma helper_worker_done_unfold i n s σ :
  helper_worker_done i n s σ =
    match helpers σ !! i with
    | None => σ
    | Some h =>
        let h' := done_update n s h in
        let σ1 := set_helpers (λ hs, <[i := h']> hs) σ in
        if (size (h_workers h') =? 0) && negb (h_error h')
        then start_worker (combine_worker h') σ1 else σ1
    end.
Proof. done. Qed.

Lemma helper_worker_error_unfold i n e σ :
  helper_worker_error i n e σ =
    match helpers σ !! i with
    | None => σ
    | Some h =>
        if bool_decide (n ∈ h_workers h)
        then cancel_worker (combine_worker h) (set_helpers (λ hs, <[i := with_error h]> hs) σ)
        else σ
    end.
Proof. done. Qed.

Lemma queued_mono name σ σ' :
  workers σ' = workers σ → (∀ t, t ∈ threads σ → t ∈ threads σ') →
  queued name σ → queued name σ'.
Proof. intros Hw Ht (t & Hget & Hin). exists t. rewrite Hw. auto. Qed.

Lemma helper_worker_done_inv i n s σ :
  sched_inv σ → release_inv σ →
  sched_inv (helper_worker_done i n s σ) ∧ release_inv (helper_worker_done i n s σ).
Proof.
  intros Hinv Hrel. rewrite helper_worker_done_unfold.
  destruct (helpers σ !! i) as [h|] eqn:Hi; [|done]. cbv zeta.
  set (h' := done_update n s h).
  set (σ1 := set_helpers (λ hs, <[i := h']> hs) σ).
  assert (Hh : h ∈ helpers σ) by (by eapply list_elem_of_lookup_2).
  assert (H1 : sched_inv σ1).
  { apply (sched_inv_set_helpers i h h' σ); [done|done|apply done_update_combine|].
    intros [He _]. by apply done_update_empty. }
  assert (Hother : ∀ h0, h0 ∈ helpers σ1 → h0 = h' ∨ (h0 ∈ helpers σ ∧ combine_worker h0 ≠ combine_worker h)).
  { intros h0 [->|(j & Hj & Hh0)]%elem_of_insert_inv; [by left|]. right.
    split; [by eapply list_elem_of_lookup_2|]. intros Heq. apply Hj.
    by eapply (NoDup_fmap_lookup combine_worker (helpers σ) j i h0 h (inv_combine _ (inv_queue _ Hinv))). }
  assert (Hcw : combine_worker h' = combine_worker h) by apply done_update_combine.
  rewrite Hcw.
  destruct ((size (h_workers h') =? 0) && negb (h_error h')) eqn:Hcond.
  - apply andb_true_iff in Hcond as [Hempty%size_zero_empty Herr%negb_true_iff].
    destruct (sched_inv_start_worker (combine_worker h) σ1 H1)
      as (Hinv' & Hhelp & Hwork & Hthr & Hstart & Hq).
    { intros h0 Hh0 Hc. destruct (Hother h0 Hh0) as [->|[_ Hne]]; done. }
    split; [done|]. intros h0 Hh0 Herr0. rewrite Hhelp in Hh0.
    destruct (Hother h0 Hh0) as [->|[Hin Hne]].
    + rewrite Hcw. split; [|by rewrite Hempty]. intros _.
      destruct (Hrel h Hh (done_update_error n s h Herr)) as [Ha Hb].
      destruct (decide (h_workers h = ∅)) as [He|Hne].
      * destruct (Ha He) as [Hs|Hq0].
        -- left. apply Hstart. destruct Hs as (t & sl & ? & ? & ?). by exists t, sl.
        -- right. eapply queued_mono; [exact Hwork|exact Hthr|].
           destruct Hq0 as (t & ? & ?). by exists t.
      * destruct (Hb Hne) as [t Ht]. right. exists t. rewrite Hwork.
        split; [done|]. by apply Hq.
    + destruct (Hrel h0 Hin Herr0) as [Ha Hb]. split; [|by rewrite Hwork].
      intros He. destruct (Ha He) as [Hs|Hq0].
      * left. apply Hstart. destruct Hs as (t & sl & ? & ? & ?). by exists t, sl.
      * right. eapply queued_mono; [exact Hwork|exact Hthr|].
        destruct Hq0 as (t & ? & ?). by exists t.
  - split; [done|]. intros h0 Hh0 Herr0.
    destruct (Hother h0 Hh0) as [->|[Hin Hne]].
    + rewrite Hcw.
      destruct (Hrel h Hh (done_update_error n s h Herr0)) as [Ha Hb]. split.
      * intros He. rewrite He, Herr0 in Hcond. done.
      * intros Hne. apply Hb. unfold h' in Hne. rewrite done_update_workers in Hne. set_solver.
    + apply (Hrel h0 Hin Herr0).
Qed.

Lemma helper_worker_error_inv i n e σ :
  sched_inv σ → release_inv σ →
  sched_inv (helper_worker_error i n e σ) ∧ release_inv (helper_worker_error i n e σ).
Proof.
  intros Hinv Hrel. rewrite helper_worker_error_unfold.
  destruct (helpers σ !! i) as [h|] eqn:Hi; [|done].
  destruct (bool_decide_reflect (n ∈ h_workers h)) as [Hn|Hn]; [|done].
  set (σ1 := set_helpers (λ hs, <[i := with_error h]> hs) σ).
  assert (Hh : h ∈ helpers σ) by (by eapply list_elem_of_lookup_2).
  assert (Hne : h_workers h ≠ ∅) by set_solver.
  assert (H1 : sched_inv σ1).
  { apply (sched_inv_set_helpers i h (with_error h) σ); [done|done|done|].
    intros [He _]. done. }
  assert (Hother : ∀ h0, h0 ∈ helpers σ1 → h0 = with_error h ∨ (h0 ∈ helpers σ ∧ combine_worker h0 ≠ combine_worker h)).
  { intros h0 [->|(j & Hj & Hh0)]%elem_of_insert_inv; [by left|]. right.
    split; [by eapply list_elem_of_lookup_2|]. intros Heq. apply Hj.
    by eapply (NoDup_fmap_lookup combine_worker (helpers σ) j i h0 h (inv_combine _ (inv_queue _ Hinv))). }
  destruct (sched_inv_cancel_worker (combine_worker h) σ1 H1)
    as (Hinv' & Hhelp & Hthr & Hwork & Hstart).
  { intros t Ht Hin.
    destruct (inv_workers _ (inv_queue _ Hinv) _ _ Ht) as (sl & Hsl & Hname).
    by destruct (inv_gate _ (inv_queue _ Hinv) h t sl Hh Hsl Hname (or_introl Hin)). }
  split; [done|]. intros h0 Hh0 Herr0. rewrite Hhelp in Hh0.
  destruct (Hother h0 Hh0) as [->|[Hin Hc]]; [done|].
  destruct (Hrel h0 Hin Herr0) as [Ha Hb]. split.
  - intros He. destruct (Ha He) as [Hs|(t & Hget & Ht)].
    + left. apply Hstart. destruct Hs as (t & sl & ? & ? & ?). by exists t, sl.
    + right. exists t. rewrite Hwork by done. by rewrite Hthr.
  - intros He. rewrite Hwork by done. by apply Hb.
Qed.

Lemma foldl_inv {A} (f : state → A → state) (l : list A) σ :
  (∀ σ a, sched_inv σ → release_inv σ → sched_inv (f σ a) ∧ release_inv (f σ a)) →
  sched_inv σ → release_inv σ →
  sched_inv (foldl f σ l) ∧ release_inv (foldl f σ l).
Proof.
  intros Hf. revert σ. induction l as [|a l IH]; intros σ Hi Hr; [done|]. simpl.
  destruct (Hf σ a Hi Hr). by apply IH.
Qed.

Lemma emit_worker_done_inv n s σ :
  sched_inv σ → release_inv σ →
  sched_inv (emit_worker_done n s σ) ∧ release_inv (emit_worker_done n s σ).
Proof.
  intros Hi Hr. unfold emit_worker_done. apply foldl_inv.
  - intros. by apply helper_worker_done_inv.
  - exact (sched_inv_core σ (emit (WorkerDone n s) σ) eq_refl Hi).
  - exact (release_inv_core σ (emit (WorkerDone n s) σ) eq_refl Hr).
Qed.

Lemma emit_worker_error_inv n e σ :
  sched_inv σ → release_inv σ →
  sched_inv (emit_worker_error n e σ) ∧ release_inv (emit_worker_error n e σ).
Proof.
  intros Hi Hr. unfold emit_worker_error. apply foldl_inv.
  - intros. by apply helper_worker_error_inv.
  - exact (sched_inv_core σ (emit (WorkerError n e) σ) eq_refl Hi).
  - exact (release_inv_core σ (emit (WorkerError n e) σ) eq_refl Hr).
Qed.

Lemma worker_finished_inv t s σ :
  sched_inv σ → release_inv σ →
  sched_inv (worker_finished t s σ) ∧ release_inv (worker_finished t s σ).
Proof.
  intros Hi Hr. unfold worker_finished. destruct (pool σ !! t) as [sl|]; [|done]. cbv zeta.
  set (σ1 := set_results _ σ).
  assert (H1 : sched_inv σ1 ∧ release_inv σ1).
  { split; [exact (sched_inv_core σ σ1 eq_refl Hi)|exact (release_inv_core σ σ1 eq_refl Hr)]. }
  destruct H1 as [Hi1 Hr1]. destruct (cancelled σ1); [done|].
  destruct (emit_worker_done_inv (w_name sl) s σ1 Hi1 Hr1) as [Hi2 Hr2].
  split; [by apply sched_inv_update|by apply release_inv_update].
Qed.

(** ** A thread finishes *)

Lemma quitting_running t σ :
  quitting t σ = true → ∃ sl, pool σ !! t = Some sl ∧ t_status sl = Running.
Proof.
  unfold quitting. destruct (pool σ !! t) as [sl|]; [|done].
  destruct (t_status sl) eqn:Hs; try done. by exists sl.
Qed.

Lemma started_thread_start t σ n : started n σ → started n (thread_start t σ).
Proof.
  intros Hn. unfold thread_start. destruct (isRunning t σ); [done|].
  by apply started_update.
Qed.

Lemma first_unstarted_Some σ t :
  first_unstarted σ = Some t → t ∈ threads σ ∧ isRunning t σ = false.
Proof.
  unfold first_unstarted. intros [Hin Hr]%find_some. split.
  - by apply list_elem_of_In.
  - by apply negb_true_iff.
Qed.

Lemma thread_finished_fields t σ :
  cancelled σ = false →
  let σ' := thread_finished t σ in
  threads σ' = (if mem t (threads σ) then list_remove t (threads σ) else threads σ) ∧
  workers σ' = del_thread t (workers σ) ∧ helpers σ' = helpers σ ∧
  maxProcesses σ' = maxProcesses σ ∧ (∀ n, started n σ → started n σ').
Proof.
  intros Hc. unfold thread_finished. rewrite Hc. cbv zeta.
  set (σ2 := if mem t (threads σ) then _ else _).
  set (σ3 := set_workers (del_thread t) σ2).
  set (σ4 := if length (threads σ3) =? 0 then _ else _).
  set (σ5 := if length (workers σ4) =? 0 then _ else _).
  assert (H5 : threads σ5 = (if mem t (threads σ) then list_remove t (threads σ) else threads σ) ∧
               workers σ5 = del_thread t (workers σ) ∧ helpers σ5 = helpers σ ∧
               maxProcesses σ5 = maxProcesses σ ∧ pool σ5 = pool σ).
  { unfold σ5, σ4, σ3, σ2.
    destruct (mem t (threads σ)); simpl;
      repeat match goal with |- context [if ?b then _ else _] => destruct b; simpl end; done. }
  clearbody σ5. destruct H5 as (Ht & Hw & Hh & Hm & Hp).
  assert (Hs : ∀ n, started n σ → started n σ5).
  { intros n (t' & sl & ? & ? & ?). exists t', sl. by rewrite Hp. }
  destruct (first_unstarted σ5) as [t2|]; [|done].
  destruct (thread_start_fields t2 σ5) as (Ht' & Hw' & Hh' & _ & Hm').
  simpl. do 4 (split; [congruence|]).
  intros n Hn. apply Hs in Hn. apply (started_thread_start t2) in Hn.
  destruct Hn as (t' & sl & ? & ? & ?). by exists t', sl.
Qed.

Lemma queue_inv_set_working b σ : queue_inv σ → queue_inv (set_working b σ).
Proof. intros []. split; done. Qed.

Lemma thread_fin_inv t σ :
  sched_inv σ → release_inv σ → quitting t σ = true →
  let σ' := thread_finished t (update_slot t (with_status Done) σ) in
  sched_inv σ' ∧ release_inv σ'.
Proof.
  intros Hinv Hrel Hquit.
  destruct (quitting_running t σ Hquit) as (sl & Hsl & Hst).
  set (σ1 := update_slot t (with_status Done) σ).
  assert (Hrun1 : ∀ t', isRunning t' σ1 = if decide (t = t') then false else isRunning t' σ).
  { intros t'. unfold σ1. rewrite isRunning_update. case_decide; [|done]. by rewrite Hsl. }
  assert (Hcount : running_count σ1 + 1 = running_count σ).
  { pose proof (running_count_update t (with_status Done) σ sl Hsl) as H.
    rewrite decide_True in H by done. simpl in H. fold σ1 in H. lia. }
  assert (Hwk : working σ = true).
  { destruct (working σ) eqn:Hw; [done|].
    pose proof (inv_working _ Hinv Hw t) as Hr. unfold isRunning in Hr.
    rewrite Hsl, Hst in Hr. done. }
  assert (Hlook : ∀ t' sl', pool σ1 !! t' = Some sl' →
            ∃ sl0, pool σ !! t' = Some sl0 ∧ w_name sl' = w_name sl0 ∧
                   (t_status sl' ≠ NotStarted → t_status sl0 ≠ NotStarted)).
  { intros t' sl'. unfold σ1. rewrite update_slot_lookup. case_decide; subst.
    - rewrite Hsl. simpl. intros [= <-]. exists sl. split; [done|]. split; [done|].
      intros _. by rewrite Hst.
    - intros. by eexists. }
  assert (Hstart1 : ∀ n, started n σ → started n σ1).
  { intros n Hn. by apply started_update. }
  assert (Hq1 : queue_inv σ1).
  { destruct (inv_queue _ Hinv) as [Hmax Hnames Hthr Hkeys Hwork Hrun Hcomb Hgate].
    split; try done.
    - rewrite (frame_names (λ _, True) σ σ1); [done|by apply update_slot_frame].
    - intros n t' Hn. apply (frame_slot_named (λ _, True) σ σ1); [|by apply Hwork].
      by apply update_slot_frame.
    - intros t'. rewrite Hrun1. case_decide; [done|apply Hrun].
    - intros h t' sl' Hh Ht' Hname Hor. destruct (Hlook _ _ Ht') as (sl0 & Hsl0 & Hn0 & Hs0).
      apply (Hgate h t' sl0); [done|done|congruence|]. destruct Hor; auto. }
  assert (H1 : sched_inv σ1).
  { split; [done| |].
    - change (working σ1) with (working σ). by rewrite Hwk.
    - pose proof (inv_count _ Hinv). change (maxProcesses σ1) with (maxProcesses σ). lia. }
  assert (Hrel1 : release_inv σ1).
  { intros h Hh He. destruct (Hrel h Hh He) as [Ha Hb]. split; [|done].
    intros Hw. destruct (Ha Hw) as [?|?]; [left; by apply Hstart1|by right]. }
  destruct (cancelled σ1) eqn:Hcan.
  { unfold thread_finished. cbv zeta. by rewrite Hcan. }
  destruct (thread_finished_fields t σ1 Hcan) as (Hthr' & Hwork' & Hhelp' & Hmax' & Hstart').
  assert (Hnotin : t ∉ threads (thread_finished t σ1)).
  { rewrite Hthr'. destruct (mem t (threads σ1)) eqn:Hmem.
    - apply list_remove_not_elem. apply Hq1.
    - by apply mem_not_elem. }
  assert (Hkeep : ∀ t', t' ∈ threads σ → t' ≠ t → t' ∈ threads (thread_finished t σ1)).
  { intros t' Hin Hne. rewrite Hthr'. destruct (mem t (threads σ1)); [|done].
    by apply list_remove_elem_ne. }
  split.
  - (* the invariant of the scheduler *)
    unfold thread_finished. rewrite Hcan. cbv zeta.
    set (σ2 := if mem t (threads σ1) then _ else _).
    assert (H2 : sched_inv σ2 ∧ running_count σ2 = running_count σ1 ∧
                 maxProcesses σ2 = maxProcesses σ).
    { unfold σ2. destruct (mem t (threads σ1)) eqn:Hmem; [|done]. split; [|done].
      apply sched_inv_set_threads; [done| | |].
      - apply list_remove_NoDup. apply Hq1.
      - intros t' Hr. pose proof Hr as Hr'. rewrite Hrun1 in Hr'. case_decide; [done|].
        apply list_remove_elem_ne; [|done]. by apply (inv_running _ Hq1).
      - intros t' Hin. left. by eapply list_remove_elem. }
    clearbody σ2. destruct H2 as (H2 & Hc2 & Hm2).
    set (σ3 := set_workers (del_thread t) σ2).
    assert (H3 : sched_inv σ3).
    { apply sched_inv_set_workers; [done| |].
      - apply del_thread_keys. apply H2.
      - intros n t'. apply del_thread_get. apply H2. }
    set (σ4 := if length (threads σ3) =? 0 then _ else _).
    assert (H4 : sched_inv σ4 ∧ running_count σ4 = running_count σ1 ∧
                 maxProcesses σ4 = maxProcesses σ).
    { unfold σ4. destruct (length (threads σ3) =? 0) eqn:Hlen; [|done]. split; [|done].
      apply sched_inv_set_working_false; [done|]. by apply length_zero_nil. }
    clearbody σ4. destruct H4 as (H4 & Hc4 & Hm4).
    set (σ5 := if length (workers σ4) =? 0 then _ else _).
    assert (H5 : sched_inv σ5 ∧ running_count σ5 = running_count σ1 ∧
                 maxProcesses σ5 = maxProcesses σ).
    { unfold σ5. destruct (length (workers σ4) =? 0); [|done]. split; [|done].
      exact (sched_inv_core σ4 (emit (Finished (results σ4)) σ4) eq_refl H4). }
    clearbody σ5. destruct H5 as (H5 & Hc5 & Hm5).
    destruct (first_unstarted σ5) as [t2|] eqn:Hfirst; [|done].
    destruct (first_unstarted_Some σ5 t2 Hfirst) as [Hin2 Hr2].
    split.
    + apply queue_inv_set_working. apply queue_inv_thread_start; [done|apply H5].
    + done.
    + destruct (thread_start_fields t2 σ5) as (_ & _ & _ & _ & Hm).
      change (maxProcesses (set_working true ?s)) with (maxProcesses s).
      change (running_count (set_working true ?s)) with (running_count s).
      rewrite Hm, Hm5. pose proof (thread_start_count t2 σ5).
      pose proof (inv_count _ Hinv). lia.
  - (* the release of the combine jobs *)
    intros h Hh He. rewrite Hhelp' in Hh. change (helpers σ1) with (helpers σ) in Hh.
    destruct (Hrel h Hh He) as [Ha Hb].
    assert (Hget : ∀ tc, dict_get (combine_worker h) (workers σ) = Some tc → tc ≠ t →
                   dict_get (combine_worker h) (workers (thread_finished t σ1)) = Some tc).
    { intros tc Htc Hne. rewrite Hwork'. by apply del_thread_get_ne. }
    split.
    + intros Hw. destruct (Ha Hw) as [Hs|(tc & Htc & Hin)].
      * left. by apply Hstart', Hstart1.
      * destruct (decide (tc = t)) as [->|Hne].
        -- left. apply Hstart', Hstart1.
           destruct (inv_workers _ (inv_queue _ Hinv) _ _ Htc) as (sl' & Hsl' & Hname).
           exists t, sl'. split; [done|]. split; [done|]. congruence.
        -- right. exists tc. split; [by apply Hget|by apply Hkeep].
    + intros Hw. destruct (Hb Hw) as [tc Htc]. exists tc. apply Hget; [done|].
      intros ->. destruct (inv_workers _ (inv_queue _ Hinv) _ _ Htc) as (sl' & Hsl' & Hname).
      destruct (inv_gate _ (inv_queue _ Hinv) h t sl' Hh Hsl' Hname) as [? _]; [|done].
      right. congruence.
Qed.

(** ** Every input keeps the invariants *)

Ltac same_core H :=
  first [ eapply sched_inv_core; [|exact H]; reflexivity
        | eapply release_inv_core; [|exact H]; reflexivity ].

Lemma cancel_inv σ :
  sched_inv σ → release_inv σ → sched_inv (cancel σ) ∧ release_inv (cancel σ).
Proof.
  intros Hi Hr. unfold cancel. cbv zeta.
  destruct (foldl_inv (λ σ p, update_slot p (with_process Exited) σ) (PROCESSES σ) σ) as [Hi1 Hr1];
    [|done|done|].
  { intros σ0 p ? ?. split; [by apply sched_inv_update|by apply release_inv_update]. }
  fold (clean_up σ) in Hi1, Hr1.
  set (σ2 := set_cancelled true (clean_up σ)).
  assert (Hi2 : sched_inv σ2) by same_core Hi1.
  assert (Hr2 : release_inv σ2) by same_core Hr1.
  destruct (foldl_inv mark_unfinished (workers σ2) σ2) as [Hi3 Hr3]; [|done|done|].
  { intros σ0 w ? ?. unfold mark_unfinished. destruct (results σ0 !! w.1); [done|].
    split; [same_core H
           |same_core H0]. }
  split.
  - same_core Hi3.
  - same_core Hr3.
Qed.

Lemma worker_progress_core t line σ σ' : _worker_progress t line σ = Ret σ' → core σ' = core σ.
Proof.
  unfold _worker_progress. destruct (pool σ !! t) as [sl|]; [|by intros [= <-]].
  destruct (progress_percent _ _) as [[pct|]|]; simpl; by intros [= <-].
Qed.

Lemma step_inv σ i σ' :
  sched_inv σ → release_inv σ → step σ i = Some σ' → sched_inv σ' ∧ release_inv σ'.
Proof.
  intros Hi Hr. destruct i as [t|t line|t msg|t success|t|]; simpl.
  - destruct (_ && _); [|done]. intros [= <-].
    set (σ1 := update_slot t (with_process Live) σ).
    assert (H1 : sched_inv σ1 ∧ release_inv σ1).
    { split; [by apply sched_inv_update|by apply release_inv_update]. }
    destruct H1 as [Hi1 Hr1]. split.
    + same_core Hi1.
    + same_core Hr1.
  - destruct (_ && _); [|done].
    destruct (_worker_progress t line σ) as [σ1|] eqn:Hp; [|done]. intros [= <-].
    apply worker_progress_core in Hp. split.
    + by apply (sched_inv_core σ).
    + by apply (release_inv_core σ).
  - destruct (active t σ); [|done]. destruct (pool σ !! t) as [sl|]; [|done].
    intros [= <-]. by apply emit_worker_error_inv.
  - destruct (_ && _); [|done]. intros [= <-].
    set (σ1 := if has_process t σ then _ else σ).
    assert (H1 : sched_inv σ1 ∧ release_inv σ1).
    { unfold σ1. destruct (has_process t σ); [|done].
      set (σ0 := update_slot t (with_process Exited) σ).
      assert (H0 : sched_inv σ0 ∧ release_inv σ0).
      { split; [by apply sched_inv_update|by apply release_inv_update]. }
      destruct H0 as [Hi0 Hr0]. split.
      - same_core Hi0.
      - same_core Hr0. }
    clearbody σ1. destruct H1 as [Hi1 Hr1].
    apply worker_finished_inv; [by apply sched_inv_update|by apply release_inv_update].
  - destruct (quitting t σ) eqn:Hq; [|done]. intros [= <-]. by apply thread_fin_inv.
  - intros [= <-]. by apply cancel_inv.
Qed.

Lemma steps_inv σ ins σ' :
  sched_inv σ → release_inv σ → steps σ ins = Some σ' → sched_inv σ' ∧ release_inv σ'.
Proof.
  revert σ. induction ins as [|i ins IH]; intros σ Hi Hr; simpl.
  - by intros [= <-].
  - destruct (step σ i) as [σ1|] eqn:Hs; [|done].
    destruct (step_inv σ i σ1 Hi Hr Hs). by apply IH.
Qed.

(** A thread that finishes lets at most one thread start. *)
Lemma started_count_update t f σ sl :
  pool σ !! t = Some sl →
  (t_status sl ≠ NotStarted ↔ t_status (f sl) ≠ NotStarted) →
  started_count (update_slot t f σ) = started_count σ.
Proof.
  intros Ht Hiff. unfold started_count. simpl. rewrite Ht.
  revert t Ht. induction (pool σ) as [|a l IH]; intros [|t] Ht; simplify_eq/=.
  - rewrite !filter_cons.
    destruct (decide (t_status sl ≠ NotStarted)) as [Hs|Hs];
      destruct (decide (t_status (f sl) ≠ NotStarted)) as [Hn|Hn]; try done.
    + destruct Hn. by apply Hiff.
    + destruct Hs. by apply Hiff.
  - rewrite !filter_cons. specialize (IH t Ht).
    destruct (decide (t_status a ≠ NotStarted)); simpl; lia.
Qed.

Lemma thread_start_started_count t σ :
  started_count (thread_start t σ) ≤ S (started_count σ).
Proof.
  unfold thread_start. destruct (isRunning t σ); [lia|].
  unfold started_count. simpl. destruct (pool σ !! t) as [sl|] eqn:Ht; [|lia].
  revert t Ht. induction (pool σ) as [|a l IH]; intros [|t] Ht; simplify_eq/=.
  - rewrite !filter_cons. repeat case_decide; simpl; lia.
  - rewrite !filter_cons. specialize (IH t Ht). case_decide; simpl; lia.
Qed.

Lemma thread_finished_started_count t σ :
  started_count (thread_finished t σ) ≤ S (started_count σ).
Proof.
  unfold thread_finished. destruct (cancelled σ); [lia|]. cbv zeta.
  set (σ5 := if length (workers _) =? 0 then _ else _).
  assert (H5 : pool σ5 = pool σ).
  { unfold σ5.
    repeat match goal with |- context [if ?b then _ else _] => destruct b; simpl end; done. }
  clearbody σ5.
  assert (Hc : started_count σ5 = started_count σ) by (unfold started_count; by rewrite H5).
  destruct (first_unstarted σ5) as [t2|]; [|lia].
  change (started_count (set_working true ?s)) with (started_count s).
  pose proof (thread_start_started_count t2 σ5). lia.
Qed.

Lemma thread_finished_running_count t σ sl :
  pool σ !! t = Some sl → t_status sl = Running →
  running_count (thread_finished t (update_slot t (with_status Done) σ)) ≤ running_count σ.
Proof.
  intros Ht Hs.
  pose proof (running_count_update t (with_status Done) σ sl Ht) as H.
  rewrite decide_True in H by done. simpl in H.
  set (σ1 := update_slot t (with_status Done) σ) in *.
  unfold thread_finished. destruct (cancelled σ1); [lia|]. cbv zeta.
  set (σ5 := if length (workers _) =? 0 then _ else _).
  assert (H5 : pool σ5 = pool σ1).
  { unfold σ5.
    repeat match goal with |- context [if ?b then _ else _] => destruct b; simpl end; done. }
  clearbody σ5.
  assert (Hc : running_count σ5 = running_count σ1) by (unfold running_count; by rewrite H5).
  destruct (first_unstarted σ5) as [t2|]; [|lia].
  change (running_count (set_working true ?s)) with (running_count s).
  pose proof (thread_start_count t2 σ5). lia.
Qed.

(** ** Registering the jobs of a batch *)

Lemma setup_add_worker name d auto σ :
  setup_inv σ → name ∉ w_name <$> pool σ →
  let σ' := add_worker name d auto σ in
  setup_inv σ' ∧
  w_name <$> pool σ' = (w_name <$> pool σ) ++ [name] ∧
  helpers σ' = helpers σ ∧ maxProcesses σ' = maxProcesses σ ∧
  dict_get name (workers σ') = Some (length (pool σ)) ∧
  (auto = false → threads σ' = threads σ).
Proof.
  intros [Hst Hnames Hthr Hbound Hkeys Hkn Hwork Hne Hcomb Hhelp Hwk Hem] Hfresh.
  assert (Hkey : name ∉ (workers σ).*1) by (intros H; by apply Hfresh, Hkn).
  assert (Hpool : pool (add_worker name d auto σ)
                  = pool σ ++ [Slot name d NotStarted false false NoProcess]).
  { unfold add_worker. by destruct auto. }
  assert (Hthreads : threads (add_worker name d auto σ)
                     = if auto then threads σ ++ [length (pool σ)] else threads σ).
  { unfold add_worker. by destruct auto. }
  assert (Hworkers : workers (add_worker name d auto σ)
                     = workers σ ++ [(name, length (pool σ))]).
  { unfold add_worker. destruct auto; simpl; by rewrite dict_set_fresh. }
  assert (Hrest : helpers (add_worker name d auto σ) = helpers σ ∧
                  maxProcesses (add_worker name d auto σ) = maxProcesses σ ∧
                  working (add_worker name d auto σ) = working σ ∧
                  emitted (add_worker name d auto σ) = emitted σ).
  { unfold add_worker. by destruct auto. }
  destruct Hrest as (Hh & Hm & Hw & He).
  assert (Hget : ∀ n t, dict_get n (workers σ ++ [(name, length (pool σ))]) = Some t →
                 (n = name ∧ t = length (pool σ)) ∨ (n ≠ name ∧ dict_get n (workers σ) = Some t)).
  { intros n t. rewrite <- dict_set_fresh by done.
    destruct (decide (name = n)) as [->|Hn].
    - rewrite dict_set_get_eq. intros [= <-]. by left.
    - rewrite dict_set_get_ne by done. intros. by right. }
  assert (Hlt : ∀ t, t ∈ threads (add_worker name d auto σ) → t < S (length (pool σ))).
  { intros t. rewrite Hthreads. destruct auto.
    - intros [Hin|Hin%list_elem_of_singleton]%elem_of_app; [|lia]. apply Hbound in Hin. lia.
    - intros Hin%Hbound. lia. }
  cbv zeta. split; [|split; [|split; [done|split; [done|split]]]].
  - split.
    + intros t sl. rewrite Hpool. intros [[_ Hsl]|[_ <-]]%lookup_snoc_Some; [|done].
      by eapply Hst.
    + rewrite Hpool, fmap_app. apply NoDup_app. split; [done|]. split; [|apply NoDup_singleton].
      intros x Hx ->%list_elem_of_singleton. done.
    + rewrite Hthreads. destruct auto; [|done]. apply NoDup_app. split; [done|].
      split; [|apply NoDup_singleton].
      intros x Hx ->%list_elem_of_singleton. apply Hbound in Hx. lia.
    + intros t Ht. apply Hlt in Ht. rewrite Hpool, length_app. simpl. lia.
    + rewrite Hworkers, fmap_app. apply NoDup_app. split; [done|]. split; [|apply NoDup_singleton].
      intros x Hx ->%list_elem_of_singleton. done.
    + intros n. rewrite Hworkers, Hpool, !fmap_app.
      intros [Hin|Hin]%elem_of_app; apply elem_of_app; [left; by apply Hkn|by right].
    + intros n t. rewrite Hworkers. intros [[-> ->]|[Hn Ht]]%Hget.
      * eexists. rewrite Hpool. split; [apply list_lookup_middle; done|done].
      * destruct (Hwork n t Ht) as (sl & Hsl & Hname). exists sl. split; [|done].
        rewrite Hpool. apply lookup_app_l_Some. done.
    + rewrite Hworkers. intros Hnil. by destruct (workers σ).
    + by rewrite Hh.
    + intros h. rewrite Hh. intros Hin. destruct (Hhelp h Hin) as (? & ? & ? & t & Ht & Hnt).
      do 3 (split; [done|]). exists t. split.
      * rewrite Hworkers, <- dict_set_fresh by done. rewrite dict_set_get_ne; [done|].
        intros ->. by apply dict_get_key in Ht.
      * rewrite Hthreads. destruct auto; [|done].
        intros [?|Heq%list_elem_of_singleton]%elem_of_app; [done|].
        destruct (Hwork _ _ Ht) as (sl & Hsl%lookup_lt_Some & _). lia.
    + by rewrite Hw.
    + by rewrite He.
  - by rewrite Hpool, fmap_app.
  - rewrite Hworkers, <- dict_set_fresh by done. apply dict_set_get_eq.
  - intros ->. done.
Qed.

Lemma setup_add_songs songs σ :
  setup_inv σ → NoDup ((w_name <$> pool σ) ++ (fileOutput <$> songs)) →
  let σ' := add_songs σ songs in
  setup_inv σ' ∧
  w_name <$> pool σ' = (w_name <$> pool σ) ++ (fileOutput <$> songs) ∧
  helpers σ' = helpers σ ∧ maxProcesses σ' = maxProcesses σ.
Proof.
  revert σ. induction songs as [|song songs IH]; intros σ Hinv Hnd; cbv zeta.
  - change (add_songs σ []) with σ. simpl. by rewrite app_nil_r.
  - change (add_songs σ (song :: songs))
      with (add_songs (add_worker (fileOutput song) (duration_ms song) true σ) songs).
    destruct (setup_add_worker (fileOutput song) (duration_ms song) true σ Hinv)
      as (Hinv1 & Hn1 & Hh1 & Hm1 & _).
    { apply NoDup_app in Hnd as (_ & Hdisj & _). intros Hin. apply (Hdisj _ Hin). left. }
    destruct (IH (add_worker (fileOutput song) (duration_ms song) true σ) Hinv1)
      as (Hinv2 & Hn2 & Hh2 & Hm2).
    { rewrite Hn1, <- app_assoc. done. }
    split; [done|]. split; [|split; congruence].
    rewrite Hn2, Hn1, <- app_assoc. done.
Qed.

(** The set of workers and the state that [AlbumRenderHelper.render]
    builds in its loop. *)
Lemma helper_render_loop songs (ws : gset string) σ :
  foldl (λ '(ws, σ) song, let '(worker, σ) := add_render_song_job song σ in (ws ∪ {[worker]}, σ))
        (ws, σ) songs
  = (ws ∪ list_to_set (fileOutput <$> songs), add_songs σ songs).
Proof.
  revert ws σ. induction songs as [|song songs IH]; intros ws σ; simpl.
  - f_equal. set_solver.
  - rewrite IH. f_equal. set_solver.
Qed.

Lemma setup_submit σ s :
  setup_inv σ → NoDup ((w_name <$> pool σ) ++ jobs [s]) →
  setup_inv (submit σ s) ∧
  w_name <$> pool (submit σ s) = (w_name <$> pool σ) ++ jobs [s] ∧
  maxProcesses (submit σ s) = maxProcesses σ.
Proof.
  intros Hinv. unfold jobs. simpl. rewrite app_nil_r. destruct s as [song|a]; simpl.
  - intros Hnd.
    destruct (setup_add_worker (fileOutput song) (duration_ms song) true σ Hinv)
      as (Hinv1 & Hn1 & Hh1 & Hm1 & _); [|done].
    apply NoDup_app in Hnd as (_ & Hdisj & _). intros Hin. apply (Hdisj _ Hin). left.
  - unfold add_render_album_job, album_jobs.
    destruct (length (getChildren a) =? 0) eqn:Hlen; [by rewrite app_nil_r|].
    destruct (albumPlaylist a).
    + (* a single file: the songs, then the combine job, then the helper *)
      intros Hnd. unfold helper_render. rewrite helper_render_loop.
      rewrite app_assoc in Hnd.
      destruct (setup_add_songs (getChildren a) σ Hinv) as (Hinv1 & Hn1 & Hh1 & Hm1).
      { by apply NoDup_app in Hnd as (? & _). }
      set (σ1 := add_songs σ (getChildren a)) in *.
      destruct (setup_add_worker (a_fileOutput a) (a_duration_ms a) false σ1 Hinv1)
        as (Hinv2 & Hn2 & Hh2 & Hm2 & Hget & Hthr).
      { rewrite Hn1. apply NoDup_app in Hnd as (_ & Hdisj & _).
        intros Hin. apply (Hdisj _ Hin). left. }
      unfold combine_songs_into_album.
      set (σ2 := add_worker (a_fileOutput a) (a_duration_ms a) false σ1) in *.
      set (h := Helper a (∅ ∪ list_to_set (fileOutput <$> getChildren a)) (a_fileOutput a) false).
      clearbody σ2 σ1. simpl. split; [|split; [by rewrite Hn2, Hn1, <- app_assoc|congruence]].
      destruct Hinv2 as [Hst Hnames Hthreads Hbound Hkeys Hkn Hwork Hne Hcomb Hhelp Hwk Hem].
      split; try done.
      * (* the combine names stay distinct *)
        simpl. rewrite fmap_app. apply NoDup_app. split; [done|]. split; [|apply NoDup_singleton].
        intros c Hc ->%list_elem_of_singleton. simpl in *.
        apply list_elem_of_fmap in Hc as (h0 & Hc & Hh0).
        destruct (Hhelp h0 Hh0) as (_ & _ & _ & t & Ht & _).
        rewrite Hh2 in Hh0. destruct (su_helpers _ Hinv1 h0 Hh0) as (_ & _ & _ & t1 & Ht1 & _).
        apply dict_get_key, (su_keys_names _ Hinv1) in Ht1.
        rewrite Hn1 in Ht1. apply NoDup_app in Hnd as (_ & Hdisj & _).
        apply (Hdisj _ Ht1). rewrite <- Hc. left.
      * simpl. intros h0 [Hh0|Heq%list_elem_of_singleton]%elem_of_app; [by apply Hhelp|].
        subst h0.
        split; [done|]. split; [|split].
        -- simpl. destruct (getChildren a) as [|song songs]; [done|]. simpl. set_solver.
        -- simpl. unfold upstream. simpl. set_solver.
        -- exists (length (pool σ1)). split; [done|].
           intros Hin. rewrite (Hthr eq_refl) in Hin.
           apply (su_bound _ Hinv1) in Hin. lia.
    + intros Hnd. destruct (setup_add_songs (getChildren a) σ Hinv Hnd) as (? & ? & ? & ?).
      done.
    + intros _. by rewrite app_nil_r.
Qed.

Lemma jobs_cons s batch : jobs (s :: batch) = jobs [s] ++ jobs batch.
Proof. unfold jobs. simpl. by rewrite app_nil_r. Qed.

Lemma setup_foldl batch σ :
  setup_inv σ → NoDup ((w_name <$> pool σ) ++ jobs batch) →
  setup_inv (foldl submit σ batch) ∧
  w_name <$> pool (foldl submit σ batch) = (w_name <$> pool σ) ++ jobs batch ∧
  maxProcesses (foldl submit σ batch) = maxProcesses σ.
Proof.
  revert σ. induction batch as [|s batch IH]; intros σ Hinv Hnd; simpl.
  - unfold jobs. simpl. by rewrite app_nil_r.
  - rewrite jobs_cons, app_assoc in Hnd.
    destruct (setup_submit σ s Hinv) as (Hinv1 & Hn1 & Hm1).
    { by apply NoDup_app in Hnd as (? & _). }
    destruct (IH (submit σ s) Hinv1) as (Hinv2 & Hn2 & Hm2).
    { by rewrite Hn1. }
    split; [done|]. split; [|congruence].
    by rewrite Hn2, Hn1, (jobs_cons s batch), <- app_assoc.
Qed.

Lemma setup_inv_init maxp : setup_inv (init maxp).
Proof.
  split; simpl; try done; try apply NoDup_nil_2;
    intros ? H; by apply not_elem_of_nil in H.
Qed.

Lemma setup_inv_setup maxp batch :
  unique_jobs batch = true →
  setup_inv (setup maxp batch) ∧ maxProcesses (setup maxp batch) = maxp ∧
  w_name <$> pool (setup maxp batch) = jobs batch.
Proof.
  intros Hu%bool_decide_eq_true_1.
  by destruct (setup_foldl batch (init maxp) (setup_inv_init maxp)) as (Hinv & Hn & Hm).
Qed.

(** ** The batch when [render] is called *)

Lemma setup_sched σ :
  setup_inv σ → (0 ≤ maxProcesses σ)%Z → sched_inv σ ∧ release_inv σ.
Proof.
  intros [Hst Hnames Hthr Hbound Hkeys Hkn Hwork Hne Hcomb Hhelp Hwk Hem] Hmax.
  assert (Hnone : ∀ t, isRunning t σ = false).
  { intros t. unfold isRunning. destruct (pool σ !! t) as [sl|] eqn:Ht; [|done].
    by rewrite (Hst t sl Ht). }
  split; [split; [split; try done| |]|].
  - intros t Hr. by rewrite Hnone in Hr.
  - intros h t sl Hh Ht Hname [Hin|Hs]; [|by rewrite (Hst t sl Ht) in Hs].
    destruct (Hhelp h Hh) as (_ & _ & _ & tc & Htc & Hnotin).
    destruct (Hwork _ _ Htc) as (slc & Hslc & Hnc).
    assert (t = tc) as ->; [|done].
    eapply (NoDup_lookup _ t tc (combine_worker h) Hnames).
    + by rewrite list_lookup_fmap, Ht, <- Hname.
    + by rewrite list_lookup_fmap, Hslc, <- Hnc.
  - done.
  - rewrite running_count_zero by done. simpl. lia.
  - intros h Hh He. destruct (Hhelp h Hh) as (_ & Hw & _ & tc & Htc & _).
    split; [done|]. intros _. by exists tc.
Qed.

Lemma start_inv maxp batch :
  (0 ≤ maxp)%Z → unique_jobs batch = true →
  sched_inv (start maxp batch) ∧ release_inv (start maxp batch) ∧
  maxProcesses (start maxp batch) = maxp.
Proof.
  intros Hmax Hu. destruct (setup_inv_setup maxp batch Hu) as (Hsu & Hm & _).
  destruct (setup_sched (setup maxp batch) Hsu) as [Hi Hr]; [by rewrite Hm|].
  unfold start.
  destruct (sched_inv_render (setup maxp batch) Hi (su_working _ Hsu)) as [Hi' Hs'].
  { destruct (workers (setup maxp batch)) eqn:Hw; [right|by left].
    by apply (su_nonempty _ Hsu). }
  destruct (render_fields (setup maxp batch)) as (Ht & Hw & Hh & Hm').
  split; [done|]. split; [|congruence].
  intros h Hh0 He. rewrite Hh in Hh0. destruct (Hr h Hh0 He) as [Ha Hb]. split.
  - intros Hemp. destruct (Ha Hemp) as [?|(t & ? & ?)]; [left; by apply Hs'|].
    right. exists t. by rewrite Hw, Ht.
  - by rewrite Hw.
Qed.

Lemma worker_finished_max t s σ : maxProcesses (worker_finished t s σ) = maxProcesses σ.
Proof.
  unfold worker_finished. destruct (pool σ !! t) as [sl|]; [|done]. cbv zeta.
  destruct (cancelled _); [done|].
  change (maxProcesses (thread_quit t ?s)) with (maxProcesses s).
  by rewrite (frame_max _ _ _ (emit_worker_done_frame _ _ _)).
Qed.

Lemma cancel_max σ : maxProcesses (cancel σ) = maxProcesses σ.
Proof.
  unfold cancel. cbv zeta. change (maxProcesses (emit ?e ?s)) with (maxProcesses s).
  assert (H1 : ∀ l σ0, maxProcesses (foldl mark_unfinished σ0 l) = maxProcesses σ0).
  { induction l as [|w l IH]; intros σ0; [done|]. simpl. rewrite IH.
    unfold mark_unfinished. by destruct (results σ0 !! w.1). }
  rewrite H1. change (maxProcesses (set_cancelled true ?s)) with (maxProcesses s).
  unfold clean_up. generalize (PROCESSES σ). intros l. revert σ.
  induction l as [|p l IH]; intros σ; [done|]. simpl. by rewrite IH.
Qed.

Lemma thread_finished_max t σ : maxProcesses (thread_finished t σ) = maxProcesses σ.
Proof.
  destruct (cancelled σ) eqn:Hc.
  - unfold thread_finished. by rewrite Hc.
  - by destruct (thread_finished_fields t σ Hc) as (_ & _ & _ & ? & _).
Qed.

Lemma step_max σ i σ' : step σ i = Some σ' → maxProcesses σ' = maxProcesses σ.
Proof.
  destruct i as [t|t line|t msg|t success|t|]; simpl.
  - destruct (_ && _); [|done]. by intros [= <-].
  - destruct (_ && _); [|done].
    destruct (_worker_progress t line σ) as [σ1|] eqn:Hp; [|done]. intros [= <-].
    apply worker_progress_core in Hp. unfold core in Hp. by injection Hp.
  - destruct (active t σ); [|done]. destruct (pool σ !! t) as [sl|]; [|done].
    intros [= <-]. apply (frame_max _ _ _ (emit_worker_error_frame _ _ _)).
  - destruct (_ && _); [|done]. intros [= <-]. rewrite worker_finished_max.
    by destruct (has_process t σ).
  - destruct (quitting t σ); [|done]. intros [= <-]. by rewrite thread_finished_max.
  - intros [= <-]. apply cancel_max.
Qed.

Lemma steps_max σ ins σ' : steps σ ins = Some σ' → maxProcesses σ' = maxProcesses σ.
Proof.
  revert σ. induction ins as [|i ins IH]; intros σ; simpl.
  - by intros [= <-].
  - destruct (step σ i) as [σ1|] eqn:Hs; [|done]. intros H.
    rewrite (IH σ1 H). by eapply step_max.
Qed.

(** C5. While a batch runs, the number of running threads never
    exceeds [maxProcesses]; and when a thread finishes, at most one
    thread of the queue is started in its place, so that the number of
    running threads does not grow. *)
Theorem running_threads_bounded maxp batch ins σ :
  (0 ≤ maxp)%Z → unique_jobs batch = true →
  steps (start maxp batch) ins = Some σ →
  (Z.of_nat (running_count σ) ≤ maxp)%Z ∧
  ∀ t σ', step σ (ThreadFin t) = Some σ' →
          started_count σ' ≤ S (started_count σ) ∧ running_count σ' ≤ running_count σ.
Proof.
  intros Hmax Hu Hsteps.
  destruct (start_inv maxp batch Hmax Hu) as (Hi & Hr & Hm).
  destruct (steps_inv _ _ _ Hi Hr Hsteps) as [Hi' _].
  split.
  - rewrite <- Hm, <- (steps_max _ _ _ Hsteps). apply Hi'.
  - intros t σ'. simpl. destruct (quitting t σ) eqn:Hq; [|done]. intros [= <-].
    destruct (quitting_running t σ Hq) as (sl & Hsl & Hst). split.
    + rewrite <- (started_count_update t (with_status Done) σ sl Hsl).
      * apply thread_finished_started_count.
      * simpl. rewrite Hst. done.
    + by eapply thread_finished_running_count.
Qed.

(** ** The helpers after a signal *)

Lemma start_worker_helpers name σ : helpers (start_worker name σ) = helpers σ.
Proof.
  unfold start_worker. destruct (dict_get name (workers σ)) as [t|]; [|done].
  destruct (mem t (threads σ)); [done|]. cbv zeta.
  destruct (working _); [done|]. by destruct (render_fields (set_threads (λ l, l ++ [t]) σ)) as (_ & _ & ? & _).
Qed.

Lemma cancel_worker_helpers name σ : helpers (cancel_worker name σ) = helpers σ.
Proof.
  unfold cancel_worker. destruct (dict_get name (workers σ)) as [t|]; [|done]. cbv zeta.
  repeat match goal with |- context [if ?b then _ else _] => destruct b; simpl end; done.
Qed.

Lemma helper_worker_done_helpers i n s σ :
  helpers (helper_worker_done i n s σ) =
    match helpers σ !! i with
    | Some h => <[i := done_update n s h]> (helpers σ)
    | None => helpers σ
    end.
Proof.
  rewrite helper_worker_done_unfold. destruct (helpers σ !! i) as [h|]; [|done]. cbv zeta.
  destruct (_ && _); [|done]. by rewrite start_worker_helpers.
Qed.

Lemma helper_worker_error_helpers i n e σ :
  helpers (helper_worker_error i n e σ) =
    match helpers σ !! i with
    | Some h => <[i := error_update n h]> (helpers σ)
    | None => helpers σ
    end.
Proof.
  rewrite helper_worker_error_unfold. destruct (helpers σ !! i) as [h|] eqn:Hi; [|done].
  unfold error_update. destruct (bool_decide _).
  - by rewrite cancel_worker_helpers.
  - by rewrite list_insert_id.
Qed.

(** Calling the slot of every helper, in the order of connection,
    updates every helper. *)
Lemma foldl_helpers (f : state → nat → state) (g : AlbumRenderHelper → AlbumRenderHelper) :
  (∀ σ i, helpers (f σ i) = match helpers σ !! i with
                            | Some h => <[i := g h]> (helpers σ)
                            | None => helpers σ
                            end) →
  ∀ σ, helpers (foldl f σ (seq 0 (length (helpers σ)))) = g <$> helpers σ.
Proof.
  intros Hf σ.
  assert (Hgen : ∀ n k σ j,
            helpers (foldl f σ (seq k n)) !! j =
              if decide (k ≤ j < k + n) then g <$> (helpers σ !! j) else helpers σ !! j).
  { induction n as [|n IH]; intros k σ0 j; simpl.
    - case_decide; [lia|done].
    - rewrite IH, Hf. destruct (helpers σ0 !! k) as [h|] eqn:Hk.
      + destruct (decide (k = j)) as [->|Hne].
        * rewrite list_lookup_insert_eq by (by eapply lookup_lt_Some).
          rewrite decide_False by lia. rewrite decide_True by lia. by rewrite Hk.
        * rewrite list_lookup_insert_ne by done.
          repeat case_decide; try done; lia.
      + destruct (decide (k = j)) as [->|Hne].
        * rewrite decide_False by lia. rewrite decide_True by lia. by rewrite Hk.
        * repeat case_decide; try done; lia. }
  apply list_eq. intros j. rewrite Hgen, list_lookup_fmap.
  case_decide as Hj; [done|].
  rewrite lookup_ge_None_2; [done|lia].
Qed.

Lemma emit_worker_done_helpers n s σ :
  helpers (emit_worker_done n s σ) = done_update n s <$> helpers σ.
Proof.
  unfold emit_worker_done. cbv zeta.
  change (length (helpers (emit (WorkerDone n s) σ))) with (length (helpers σ)).
  change (helpers σ) with (helpers (emit (WorkerDone n s) σ)).
  apply (foldl_helpers (λ σ i, helper_worker_done i n s σ)).
  intros. apply helper_worker_done_helpers.
Qed.

Lemma emit_worker_error_helpers n m σ :
  helpers (emit_worker_error n m σ) = error_update n <$> helpers σ.
Proof.
  unfold emit_worker_error. cbv zeta.
  change (length (helpers (emit (WorkerError n m) σ))) with (length (helpers σ)).
  change (helpers σ) with (helpers (emit (WorkerError n m) σ)).
  apply (foldl_helpers (λ σ i, helper_worker_error i n m σ)).
  intros. apply helper_worker_error_helpers.
Qed.

Lemma frame_emitted_first P e σ σ' : frame P (emit e σ) σ' → e ∈ emitted σ'.
Proof.
  intros [_ _ _ _ _ _ (new & -> & _)]. simpl. apply elem_of_app. left.
  apply elem_of_app. right. apply list_elem_of_here.
Qed.

Lemma emit_worker_done_log n s σ :
  WorkerDone n s ∈ emitted (emit_worker_done n s σ) ∧
  ∀ e, e ∈ emitted (emit_worker_done n s σ) →
       e ∈ emitted σ ∨ e = WorkerDone n s ∨ is_finished e.
Proof.
  split.
  - apply (frame_emitted_first is_finished _ σ). unfold emit_worker_done.
    apply frame_foldl. intros. apply helper_worker_done_frame.
  - destruct (emit_worker_done_frame n s σ) as [_ _ _ _ _ _ (new & -> & Hnew)].
    intros e [?|Hin]%elem_of_app; [by left|]. right.
    rewrite Forall_forall in Hnew. by apply Hnew.
Qed.

Lemma emit_worker_error_log n m σ :
  WorkerError n m ∈ emitted (emit_worker_error n m σ) ∧
  ∀ e, e ∈ emitted (emit_worker_error n m σ) → e ∈ emitted σ ∨ e = WorkerError n m.
Proof.
  split.
  - apply (frame_emitted_first (λ _, False) _ σ). unfold emit_worker_error.
    apply frame_foldl. intros. apply helper_worker_error_frame.
  - destruct (emit_worker_error_frame n m σ) as [_ _ _ _ _ _ (new & -> & Hnew)].
    intros e [?|Hin]%elem_of_app; [by left|]. right.
    rewrite Forall_forall in Hnew. symmetry. by apply Hnew.
Qed.

(** ** The log of signals and the helpers *)

Lemma events_inv_quiet σ σ' : quiet σ σ' → events_inv σ → events_inv σ'.
Proof.
  intros [Hh Hp (new & Hnew & Hsil)] [Hsub Hpend Hfail Hdone Herr Hrep].
  assert (Hold : ∀ e, ¬ silent e → e ∈ emitted σ' → e ∈ emitted σ).
  { intros e He. rewrite Hnew. intros [?|Hin]%elem_of_app; [done|].
    rewrite Forall_forall in Hsil. destruct He. by apply Hsil. }
  assert (Hnewer : ∀ e, e ∈ emitted σ → e ∈ emitted σ').
  { intros e He. rewrite Hnew. apply elem_of_app. by left. }
  split; rewrite ?Hh.
  - done.
  - intros h u t sl' Hin Hu Ht Hname Hd.
    destruct (pool_lookup _ _ _ _ Hp Ht) as (sl & Hsl & Hn & _ & Hdn).
    apply (Hpend h u t sl); congruence.
  - intros h u Hin Hu Hev. apply (Hfail h u Hin Hu).
    destruct Hev as [Hev|[m Hev]]; [left|right; exists m]; apply Hold; auto.
  - intros h u b Hin Hev. apply (Hdone h u b Hin). apply Hold; auto.
  - intros h Hin He. destruct (Herr h Hin He) as (u & Hu & [Hev|[m Hev]]); exists u; split; auto.
    right. exists m. auto.
  - intros h u Hin Hu Hnot. destruct (Hrep h u Hin Hu Hnot) as [b Hb]. exists b. auto.
Qed.

Lemma frame_quiet P σ σ' :
  (∀ e, P e → silent e) → helpers σ' = helpers σ → frame P σ σ' → quiet σ σ'.
Proof.
  intros HP Hh [_ _ _ _ _ Hp (new & Hnew & HF)]. split; [done|done|].
  exists new. split; [done|]. eapply Forall_impl; eauto.
Qed.

Lemma quiet_refl σ : quiet σ σ.
Proof. split; [done|apply pool_refl|]. exists []. by rewrite app_nil_r. Qed.

Lemma quiet_trans σ1 σ2 σ3 : quiet σ1 σ2 → quiet σ2 σ3 → quiet σ1 σ3.
Proof.
  intros [H1 P1 (n1 & E1 & F1)] [H2 P2 (n2 & E2 & F2)]. split.
  - congruence.
  - by eapply pool_trans.
  - exists (n1 ++ n2). rewrite E2, E1, app_assoc. split; [done|]. by apply Forall_app.
Qed.

Lemma quiet_update t f σ : (∀ sl, same_worker sl (f sl)) → quiet σ (update_slot t f σ).
Proof.
  intros Hf. eapply (frame_quiet (λ _, False)); [done|done|]. by apply update_slot_frame.
Qed.

Lemma quiet_foldl {A} (f : state → A → state) (l : list A) σ :
  (∀ σ a, quiet σ (f σ a)) → quiet σ (foldl f σ l).
Proof.
  intros Hf. revert σ. induction l as [|a l IH]; intros σ; simpl.
  - apply quiet_refl.
  - eapply quiet_trans; [apply Hf|apply IH].
Qed.

Lemma quiet_core σ σ' :
  helpers σ' = helpers σ → pool σ' = pool σ →
  (emitted σ' = emitted σ ∨ ∃ e, silent e ∧ emitted σ' = emitted σ ++ [e]) → quiet σ σ'.
Proof.
  intros Hh Hp He. split; [done|rewrite Hp; apply pool_refl|].
  destruct He as [->|(e & He & ->)].
  - exists []. by rewrite app_nil_r.
  - exists [e]. split; [done|]. by constructor.
Qed.

Lemma quiet_emit e σ : silent e → quiet σ (emit e σ).
Proof. intros He. apply quiet_core; [done|done|]. right. by exists e. Qed.

Lemma quiet_cancel σ : quiet σ (cancel σ).
Proof.
  unfold cancel. cbv zeta.
  set (σ1 := clean_up σ). set (σ2 := set_cancelled true σ1).
  set (σ3 := foldl mark_unfinished σ2 (workers σ2)).
  assert (H1 : quiet σ σ1).
  { unfold σ1, clean_up. apply quiet_foldl. intros. by apply quiet_update. }
  assert (H2 : quiet σ1 σ2) by (apply quiet_core; [done|done|by left]).
  assert (H3 : quiet σ2 σ3).
  { unfold σ3. apply quiet_foldl. intros σ0 w. unfold mark_unfinished.
    destruct (results σ0 !! w.1); [apply quiet_refl|].
    apply quiet_core; [done|done|by left]. }
  eapply quiet_trans; [exact H1|]. eapply quiet_trans; [exact H2|].
  eapply quiet_trans; [exact H3|]. by apply quiet_emit.
Qed.

Lemma quiet_if (b : bool) σ σ' : quiet σ σ' → quiet σ (if b then σ' else σ).
Proof. destruct b; [done|intros _; apply quiet_refl]. Qed.

Lemma quiet_thread_finished t σ : quiet σ (thread_finished t σ).
Proof.
  unfold thread_finished. destruct (cancelled σ); [apply quiet_refl|]. cbv zeta.
  set (σ2 := if mem t (threads σ) then _ else _).
  assert (H2 : quiet σ σ2).
  { apply quiet_if. apply quiet_core; [done|done|by left]. }
  set (σ3 := set_workers (del_thread t) σ2).
  assert (H3 : quiet σ2 σ3) by (apply quiet_core; [done|done|by left]).
  set (σ4 := if length (threads σ3) =? 0 then _ else _).
  assert (H4 : quiet σ3 σ4).
  { apply quiet_if. apply quiet_core; [done|done|by left]. }
  set (σ5 := if length (workers σ4) =? 0 then _ else _).
  assert (H5 : quiet σ4 σ5).
  { apply quiet_if. by apply quiet_emit. }
  assert (H : quiet σ σ5).
  { eapply quiet_trans; [exact H2|]. eapply quiet_trans; [exact H3|].
    eapply quiet_trans; [exact H4|exact H5]. }
  clearbody σ5. destruct (first_unstarted σ5) as [t2|]; [|done].
  eapply quiet_trans; [exact H|].
  assert (Hs : quiet σ5 (thread_start t2 σ5)).
  { apply (frame_quiet (λ _, False)); [done| |apply thread_start_frame].
    by destruct (thread_start_fields t2 σ5) as (_ & _ & ? & _). }
  eapply quiet_trans; [exact Hs|]. apply quiet_core; [done|done|by left].
Qed.

Lemma done_update_upstream n s h : upstream (done_update n s h) = upstream h.
Proof. unfold upstream. by rewrite done_update_album. Qed.

Lemma error_update_upstream n h : upstream (error_update n h) = upstream h.
Proof. unfold upstream. by rewrite error_update_album. Qed.

Lemma done_update_error_iff n s h :
  h_error (done_update n s h) = true ↔ h_error h = true ∨ (n ∈ h_workers h ∧ s = false).
Proof.
  unfold done_update. destruct (bool_decide_reflect (n ∈ h_workers h)) as [Hin|Hnin].
  - destruct s; simpl; naive_solver.
  - naive_solver.
Qed.

Lemma error_update_error_iff n h :
  h_error (error_update n h) = true ↔ h_error h = true ∨ n ∈ h_workers h.
Proof.
  unfold error_update. destruct (bool_decide_reflect (n ∈ h_workers h)) as [Hin|Hnin];
    simpl; naive_solver.
Qed.

Lemma names_injective σ t t' sl sl' :
  NoDup (w_name <$> pool σ) → pool σ !! t = Some sl → pool σ !! t' = Some sl' →
  w_name sl = w_name sl' → t = t'.
Proof. intros Hnd Ht Ht' Hn. by eapply (NoDup_fmap_lookup w_name (pool σ) t t' sl sl'). Qed.

(** The worker of thread [t], called [n], reports [s]: [worker_done] is
    emitted and [n] is the only worker that is no longer pending. *)
Lemma events_inv_done σ σ' t sl n s :
  events_inv σ → NoDup (w_name <$> pool σ) →
  pool σ !! t = Some sl → w_name sl = n → w_done sl = false →
  helpers σ' = done_update n s <$> helpers σ →
  WorkerDone n s ∈ emitted σ' →
  (∀ e, e ∈ emitted σ' → e ∈ emitted σ ∨ e = WorkerDone n s ∨ is_finished e) →
  (∀ e, e ∈ emitted σ → e ∈ emitted σ') →
  (∀ t' sl', pool σ' !! t' = Some sl' → w_done sl' = false →
     t' ≠ t ∧ ∃ sl0, pool σ !! t' = Some sl0 ∧ w_name sl0 = w_name sl' ∧ w_done sl0 = false) →
  events_inv σ'.
Proof.
  intros [Hsub Hpend Hfail Hdone Herr Hrep] Hnd Ht Hn Hd Hh Hnew Hlog Hmono Hpool.
  assert (Hpre : ∀ h', h' ∈ helpers σ' → ∃ h, h ∈ helpers σ ∧ h' = done_update n s h).
  { intros h'. rewrite Hh. intros (h & -> & Hin)%list_elem_of_fmap. by exists h. }
  split.
  - intros h' u (h & Hin & ->)%Hpre. rewrite done_update_workers, done_update_upstream.
    intros Hu. apply (Hsub h u Hin). set_solver.
  - intros h' u t' sl' (h & Hin & ->)%Hpre. rewrite done_update_workers, done_update_upstream.
    intros Hu Ht' Hname Hd'. destruct (Hpool t' sl' Ht' Hd') as (Hne & sl0 & Hsl0 & Hn0 & Hd0).
    apply elem_of_difference. split.
    + apply (Hpend h u t' sl0); congruence.
    + intros Heq%elem_of_singleton. apply Hne. symmetry.
      apply (names_injective σ t t' sl sl0 Hnd Ht Hsl0). congruence.
  - intros h' u (h & Hin & ->)%Hpre. rewrite done_update_upstream. intros Hu Hev.
    apply done_update_error_iff. destruct Hev as [Hev|[m Hev]].
    + destruct (Hlog _ Hev) as [Hold|[Heq|Hfin]]; [|injection Heq as -> ->|done].
      * left. apply (Hfail h u Hin Hu). by left.
      * right. split; [|done]. by apply (Hpend h n t sl).
    + destruct (Hlog _ Hev) as [Hold|[Heq|Hfin]]; [|done|done].
      left. apply (Hfail h u Hin Hu). right. by exists m.
  - intros h' u b (h & Hin & ->)%Hpre Hev. rewrite done_update_workers.
    destruct (Hlog _ Hev) as [Hold|[Heq|Hfin]]; [|injection Heq as -> ->|done].
    + pose proof (Hdone h u b Hin Hold). set_solver.
    + set_solver.
  - intros h' (h & Hin & ->)%Hpre. rewrite done_update_upstream.
    intros [Hold|[Hw ->]]%done_update_error_iff.
    + destruct (Herr h Hin Hold) as (u & Hu & [Hev|[m Hev]]); exists u; (split; [done|]).
      * left. auto.
      * right. exists m. auto.
    + exists n. split; [by apply (Hsub h)|]. by left.
  - intros h' u (h & Hin & ->)%Hpre. rewrite done_update_workers, done_update_upstream.
    intros Hu Hnot. destruct (decide (u = n)) as [->|Hne].
    + by exists s.
    + destruct (Hrep h u Hin Hu) as [b Hb]; [set_solver|]. exists b. auto.
Qed.

Lemma events_inv_error σ σ' t sl n m :
  events_inv σ →
  pool σ !! t = Some sl → w_name sl = n → w_done sl = false →
  helpers σ' = error_update n <$> helpers σ →
  WorkerError n m ∈ emitted σ' →
  (∀ e, e ∈ emitted σ' → e ∈ emitted σ ∨ e = WorkerError n m) →
  (∀ e, e ∈ emitted σ → e ∈ emitted σ') →
  Forall2 same_worker (pool σ) (pool σ') →
  events_inv σ'.
Proof.
  intros [Hsub Hpend Hfail Hdone Herr Hrep] Ht Hn Hd Hh Hnew Hlog Hmono Hpool.
  assert (Hpre : ∀ h', h' ∈ helpers σ' → ∃ h, h ∈ helpers σ ∧ h' = error_update n h).
  { intros h'. rewrite Hh. intros (h & -> & Hin)%list_elem_of_fmap. by exists h. }
  split.
  - intros h' u (h & Hin & ->)%Hpre. rewrite error_update_workers, error_update_upstream.
    by apply Hsub.
  - intros h' u t' sl' (h & Hin & ->)%Hpre. rewrite error_update_workers, error_update_upstream.
    intros Hu Ht' Hname Hd'.
    destruct (pool_lookup _ _ _ _ Hpool Ht') as (sl0 & Hsl0 & Hn0 & _ & Hd0).
    apply (Hpend h u t' sl0); congruence.
  - intros h' u (h & Hin & ->)%Hpre. rewrite error_update_upstream. intros Hu Hev.
    apply error_update_error_iff. destruct Hev as [Hev|[m' Hev]].
    + destruct (Hlog _ Hev) as [Hold|Heq]; [|done].
      left. apply (Hfail h u Hin Hu). by left.
    + destruct (Hlog _ Hev) as [Hold|Heq]; [|injection Heq as -> ->].
      * left. apply (Hfail h u Hin Hu). right. by exists m'.
      * right. by apply (Hpend h n t sl).
  - intros h' u b (h & Hin & ->)%Hpre Hev. rewrite error_update_workers.
    destruct (Hlog _ Hev) as [Hold|Heq]; [|done]. by apply (Hdone h u b).
  - intros h' (h & Hin & ->)%Hpre. rewrite error_update_upstream.
    intros [Hold|Hw]%error_update_error_iff.
    + destruct (Herr h Hin Hold) as (u & Hu & [Hev|[m' Hev]]); exists u; (split; [done|]).
      * left. auto.
      * right. exists m'. auto.
    + exists n. split; [by apply (Hsub h)|]. right. by exists m.
  - intros h' u (h & Hin & ->)%Hpre. rewrite error_update_workers, error_update_upstream.
    intros Hu Hnot. destruct (Hrep h u Hin Hu Hnot) as [b Hb]. exists b. auto.
Qed.

(** A worker finishes while the batch is cancelled: nothing is emitted. *)
Lemma events_inv_pending σ σ' :
  events_inv σ → helpers σ' = helpers σ → emitted σ' = emitted σ →
  (∀ t' sl', pool σ' !! t' = Some sl' → w_done sl' = false →
     ∃ sl0, pool σ !! t' = Some sl0 ∧ w_name sl0 = w_name sl' ∧ w_done sl0 = false) →
  events_inv σ'.
Proof.
  intros [Hsub Hpend Hfail Hdone Herr Hrep] Hh He Hpool.
  split; rewrite ?Hh, ?He; try done.
  intros h u t' sl' Hin Hu Ht' Hname Hd'.
  destruct (Hpool t' sl' Ht' Hd') as (sl0 & Hsl0 & Hn0 & Hd0).
  apply (Hpend h u t' sl0); congruence.
Qed.

Lemma active_slot t σ :
  active t σ = true → ∃ sl, pool σ !! t = Some sl ∧ w_done sl = false ∧ t_status sl = Running.
Proof.
  unfold active. destruct (pool σ !! t) as [sl|]; [|done].
  destruct (t_status sl) eqn:Hs; try done. intros Hd%negb_true_iff. by exists sl.
Qed.

Lemma events_inv_fin t s σ sl :
  events_inv σ → NoDup (w_name <$> pool σ) →
  pool σ !! t = Some sl → w_done sl = false →
  events_inv (worker_finished t s (update_slot t with_done σ)).
Proof.
  intros Hev Hnd Ht Hd.
  set (σb := update_slot t with_done σ).
  assert (Hb : pool σb !! t = Some (with_done sl)).
  { unfold σb. by rewrite update_slot_lookup, decide_True, Ht. }
  assert (Hpoolb : ∀ t' sl', pool σb !! t' = Some sl' → w_done sl' = false →
            t' ≠ t ∧ ∃ sl0, pool σ !! t' = Some sl0 ∧ w_name sl0 = w_name sl' ∧ w_done sl0 = false).
  { intros t' sl'. unfold σb. rewrite update_slot_lookup. case_decide; subst.
    - rewrite Ht. simpl. by intros [= <-].
    - intros Hsl' Hd'. split; [done|]. by exists sl'. }
  unfold worker_finished. rewrite Hb. cbv zeta.
  change (w_name (with_done sl)) with (w_name sl).
  set (σc := set_results _ σb).
  destruct (cancelled σc) eqn:Hc.
  - apply (events_inv_pending σ); [done|done|done|].
    intros t' sl' Ht' Hd'. by destruct (Hpoolb t' sl' Ht' Hd') as (_ & ?).
  - destruct (emit_worker_done_log (w_name sl) s σc) as [Hnew Hlog].
    pose proof (emit_worker_done_frame (w_name sl) s σc) as Hf.
    assert (Hem : emitted (thread_quit t (emit_worker_done (w_name sl) s σc))
                  = emitted (emit_worker_done (w_name sl) s σc)) by done.
    apply (events_inv_done σ _ t sl (w_name sl) s); [done|done|done|done|done|..].
    + change (helpers (thread_quit t ?x)) with (helpers x).
      by rewrite emit_worker_done_helpers.
    + by rewrite Hem.
    + intros e. rewrite Hem. apply Hlog.
    + intros e He. destruct Hf as [_ _ _ _ _ _ (new & Hnew' & _)].
      rewrite Hem, Hnew'. apply elem_of_app. by left.
    + intros t' sl' Ht' Hd'.
      pose proof (thread_quit_frame (λ _, True) t (emit_worker_done (w_name sl) s σc)) as Hq.
      destruct (pool_lookup _ _ _ _ (frame_pool _ _ _ Hq) Ht') as (sl1 & Hsl1 & Hn1 & _ & Hd1).
      destruct (pool_lookup _ _ _ _ (frame_pool _ _ _ Hf) Hsl1) as (sl2 & Hsl2 & Hn2 & _ & Hd2).
      destruct (Hpoolb t' sl2 Hsl2) as (Hne & sl0 & Hsl0 & Hn0 & Hd0); [congruence|].
      split; [done|]. exists sl0. split; [done|]. split; congruence.
Qed.

Lemma events_inv_step σ i σ' :
  events_inv σ → NoDup (w_name <$> pool σ) → step σ i = Some σ' → events_inv σ'.
Proof.
  intros Hev Hnd. destruct i as [t|t line|t msg|t success|t|]; simpl.
  - destruct (_ && _); [|done]. intros [= <-]. eapply events_inv_quiet; [|exact Hev].
    eapply quiet_trans; [apply (quiet_update t (with_process Live)); done|].
    apply quiet_core; [done|done|by left].
  - destruct (_ && _); [|done]. unfold _worker_progress.
    destruct (pool σ !! t) as [sl|]; [|by intros [= <-]].
    destruct (progress_percent _ _) as [[pct|]|]; simpl; intros [= <-]; try done.
    + eapply events_inv_quiet; [|exact Hev]. by apply quiet_emit.
    + eapply events_inv_quiet; [|exact Hev]. apply quiet_core; [done|done|by left].
  - destruct (active t σ) eqn:Ha; [|done].
    destruct (active_slot t σ Ha) as (sl & Hsl & Hd & _). rewrite Hsl. intros [= <-].
    destruct (emit_worker_error_log (w_name sl) msg σ) as [Hnew Hlog].
    pose proof (emit_worker_error_frame (w_name sl) msg σ) as Hf.
    apply (events_inv_error σ _ t sl (w_name sl) msg); [done|done|done|done|..].
    + apply emit_worker_error_helpers.
    + done.
    + done.
    + intros e He. destruct Hf as [_ _ _ _ _ _ (new & -> & _)]. apply elem_of_app. by left.
    + apply Hf.
  - destruct (active t σ) eqn:Ha; [|done]. simpl.
    destruct (active_slot t σ Ha) as (sl & Hsl & Hd & _).
    destruct (_ || _); [|done]. intros [= <-].
    set (σa := if has_process t σ then _ else σ).
    assert (Ha' : quiet σ σa).
    { apply quiet_if.
      eapply quiet_trans; [apply (quiet_update t (with_process Exited)); done|].
      apply quiet_core; [done|done|by left]. }
    destruct (pool_lookup_l _ _ _ _ (quiet_pool _ _ Ha') Hsl) as (sla & Hsla & Hna & _ & Hda).
    apply (events_inv_fin t success σa sla).
    + by eapply events_inv_quiet.
    + by rewrite (pool_names _ _ (quiet_pool _ _ Ha')).
    + done.
    + congruence.
  - destruct (quitting t σ); [|done]. intros [= <-]. eapply events_inv_quiet; [|exact Hev].
    eapply quiet_trans; [apply (quiet_update t (with_status Done)); done|].
    apply quiet_thread_finished.
  - intros [= <-]. eapply events_inv_quiet; [|exact Hev]. apply quiet_cancel.
Qed.

(** ** Dependency groups *)

Lemma setup_events σ : setup_inv σ → events_inv σ.
Proof.
  intros [Hst Hnames Hthr Hbound Hkeys Hkn Hwork Hne Hcomb Hhelp Hwk Hem].
  split.
  - intros h u Hh Hu. destruct (Hhelp h Hh) as (_ & _ & Hw & _).
    rewrite Hw in Hu. by apply elem_of_list_to_set in Hu.
  - intros h u t sl Hh Hu _ _ _. destruct (Hhelp h Hh) as (_ & _ & Hw & _).
    rewrite Hw. by apply elem_of_list_to_set.
  - intros h u _ _. rewrite Hem. intros [H|[m H]]; by apply not_elem_of_nil in H.
  - intros h u b _. rewrite Hem. intros H. by apply not_elem_of_nil in H.
  - intros h Hh He. destruct (Hhelp h Hh) as (He' & _). congruence.
  - intros h u Hh Hu Hnot. destruct (Hhelp h Hh) as (_ & _ & Hw & _).
    destruct Hnot. rewrite Hw. by apply elem_of_list_to_set.
Qed.

Lemma quiet_render σ : quiet σ (render σ).
Proof.
  eapply (frame_quiet is_finished); [by intros []| |apply render_frame].
  by destruct (render_fields σ) as (_ & _ & ? & _).
Qed.

Lemma start_events maxp batch : unique_jobs batch = true → events_inv (start maxp batch).
Proof.
  intros Hu. destruct (setup_inv_setup maxp batch Hu) as (Hsu & _ & _).
  unfold start. eapply events_inv_quiet; [apply quiet_render|]. by apply setup_events.
Qed.

Lemma steps_events σ ins σ' :
  sched_inv σ → release_inv σ → events_inv σ → steps σ ins = Some σ' →
  sched_inv σ' ∧ release_inv σ' ∧ events_inv σ'.
Proof.
  revert σ. induction ins as [|i ins IH]; intros σ Hi Hr He; simpl.
  - by intros [= <-].
  - destruct (step σ i) as [σ1|] eqn:Hs; [|done].
    destruct (step_inv σ i σ1 Hi Hr Hs) as [Hi1 Hr1].
    apply IH; [done|done|].
    eapply events_inv_step; [exact He| |exact Hs]. apply Hi.
Qed.

Lemma released_gate σ h :
  queue_inv σ → h ∈ helpers σ → released (combine_worker h) σ →
  h_workers h = ∅ ∧ h_error h = false.
Proof.
  intros Hq Hh [(t & sl & Hsl & Hname & Hst)|(t & Hget & Hin)].
  - apply (inv_gate _ Hq h t sl); auto.
  - destruct (inv_workers _ Hq _ _ Hget) as (sl & Hsl & Hname).
    apply (inv_gate _ Hq h t sl); auto.
Qed.


(** ** Cancelling the batch *)

Lemma clean_up_fields σ :
  results (clean_up σ) = results σ ∧ workers (clean_up σ) = workers σ.
Proof.
  unfold clean_up. generalize (PROCESSES σ). intros l. revert σ.
  induction l as [|p l IH]; intros σ; [done|]. simpl.
  by destruct (IH (update_slot p (with_process Exited) σ)) as [-> ->].
Qed.

Lemma kill_all_exited l σ p sl :
  p ∈ l ∨ (∀ sl0, pool σ !! p = Some sl0 → w_process sl0 ≠ Live) →
  pool (foldl (fun σ p => update_slot p (with_process Exited) σ) σ l) !! p = Some sl →
  w_process sl ≠ Live.
Proof.
  revert σ. induction l as [|q l IH]; intros σ Hp.
  { destruct Hp as [Hp|Hp]; [by apply not_elem_of_nil in Hp|]. apply Hp. }
  simpl. apply IH.
  destruct (decide (q = p)) as [->|Hne].
  - right. intros sl0. rewrite update_slot_lookup, decide_True by done.
    destruct (pool σ !! p); [|done]. by intros [= <-].
  - destruct Hp as [Hp|Hp].
    + apply elem_of_cons in Hp as [?|Hp]; [by subst|]. by left.
    + right. intros sl0. rewrite update_slot_lookup, decide_False by done. apply Hp.
Qed.

(** [clean_up] leaves no registered process alive. *)
Lemma clean_up_kills σ p sl :
  p ∈ PROCESSES σ → pool (clean_up σ) !! p = Some sl → w_process sl ≠ Live.
Proof. intros Hp. apply kill_all_exited. by left. Qed.

Lemma mark_unfinished_results l σ n :
  n ∈ l.*1 ∨ is_Some (results σ !! n) →
  is_Some (results (foldl mark_unfinished σ l) !! n).
Proof.
  revert σ. induction l as [|[k t] l IH]; intros σ Hn.
  { destruct Hn as [Hn|Hn]; [by apply not_elem_of_nil in Hn|done]. }
  simpl. apply IH.
  destruct (decide (k = n)) as [->|Hne].
  - right. unfold mark_unfinished. simpl.
    destruct (results σ !! n) eqn:Hr; simpl; [by rewrite Hr|].
    by rewrite lookup_insert_eq.
  - destruct Hn as [Hn|Hn].
    + simpl in Hn. apply elem_of_cons in Hn as [?|Hn]; [by subst|]. by left.
    + right. unfold mark_unfinished. simpl.
      destruct (results σ !! k); simpl; [done|]. by rewrite lookup_insert_ne.
Qed.

Lemma mark_unfinished_keeps l σ n b :
  results σ !! n = Some b → results (foldl mark_unfinished σ l) !! n = Some b.
Proof.
  revert σ. induction l as [|[k t] l IH]; intros σ Hn; [done|].
  simpl. apply IH. unfold mark_unfinished. simpl.
  destruct (results σ !! k) eqn:Hk; simpl; [done|].
  rewrite lookup_insert_ne; [done|]. intros ->. by rewrite Hn in Hk.
Qed.

Lemma mark_unfinished_new l σ n :
  results σ !! n = None → n ∈ l.*1 → results (foldl mark_unfinished σ l) !! n = Some false.
Proof.
  revert σ. induction l as [|[k t] l IH]; intros σ Hn Hin.
  { by apply not_elem_of_nil in Hin. }
  simpl. simpl in Hin.
  destruct (decide (k = n)) as [->|Hne].
  - apply mark_unfinished_keeps. unfold mark_unfinished. simpl.
    rewrite Hn. simpl. by rewrite lookup_insert_eq.
  - apply elem_of_cons in Hin as [?|Hin]; [by subst|].
    apply IH; [|done]. unfold mark_unfinished. simpl.
    destruct (results σ !! k); simpl; [done|]. by rewrite lookup_insert_ne.
Qed.

(** What [cancel] does for the jobs that are still registered: a job
    without a result gets the result [False], a recorded result is kept,
    and the dictionary is emitted as it then stands. *)
Lemma cancel_marks_registered σ n t :
  dict_get n (workers σ) = Some t →
  results (cancel σ) !! n = Some (default false (results σ !! n)) ∧
  last (emitted (cancel σ)) = Some (Finished (results (cancel σ))).
Proof.
  intros Hn%dict_get_key. unfold cancel. cbv zeta.
  destruct (clean_up_fields σ) as [Hr Hw].
  set (σ1 := set_cancelled true (clean_up σ)).
  assert (results σ1 = results σ) as Hr1 by done.
  split; [|apply last_snoc].
  change (results (emit _ ?s)) with (results s).
  rewrite <- Hr1. destruct (results σ1 !! n) as [b|] eqn:Hb; simpl.
  - by apply mark_unfinished_keeps.
  - apply mark_unfinished_new; [done|]. rewrite <- Hw in Hn. exact Hn.
Qed.

(** The state after a sequence of inputs that can all arrive. *)
Ltac after s l := exists (default s (steps s l)).

Lemma no_completion_emitted_after_cancel_witness :
  let σ := cancel (start 1 [SubmitSong song_a]) in
  ∃ σ', steps σ [Fin 0 false] = Some σ' ∧
        cancelled σ' = true ∧
        ∃ new, emitted σ' = emitted σ ++ new ∧ ∀ name success, WorkerDone name success ∉ new.
Proof.
  intros σ. after σ [Fin 0 false].
  split; [vm_compute; reflexivity|].
  apply (no_completion_emitted_after_cancel σ [Fin 0 false]); vm_compute; reflexivity.
Defined.

(** C7, as the specification words it, fails: a line of output that
    arrives after the batch was cancelled is still turned into a
    progress signal. *)
Lemma progress_emitted_after_cancel :
  ∃ σ σ', steps (start 1 [SubmitSong song_a]) [Popen 0; Cancel] = Some σ ∧
          cancelled σ = true ∧
          steps σ [Line 0 "out_time_us=5000000"] = Some σ' ∧
          emitted σ' = emitted σ ++ [WorkerProgress "a.mp4" 50].
Proof.
  after (start 1 [SubmitSong song_a]) [Popen 0; Cancel].
  after (default (start 1 [SubmitSong song_a])
           (steps (start 1 [SubmitSong song_a]) [Popen 0; Cancel]))
        [Line 0 "out_time_us=5000000"].
  do 3 (split; [vm_compute; reflexivity|]). vm_compute; reflexivity.
Qed.

(** ** Results of a batch *)

(** C2. An album of one song is rendered to a single file. The song
    writes a line on standard error and fails. The combine job is
    cancelled without a result being recorded for it: the only [finished]
    signal carries one entry for the two jobs that were submitted. *)
Example cancelled_combine_job_missing_from_results :
  let batch := [SubmitAlbum album_of_one] in
  jobs batch = ["a.mp4"; "album.mp4"] ∧
  ∃ σ r, steps (start 1 batch)
           [Popen 0; Err 0 "Conversion failed!"; Fin 0 false; ThreadFin 0] = Some σ ∧
         finished_results (emitted σ) = [r] ∧
         size r = 1 ∧ r !! "a.mp4" = Some false ∧ r !! "album.mp4" = None ∧
         workers σ = [] ∧ running_count σ = 0.
Proof.
  split; [reflexivity|].
  after (start 1 [SubmitAlbum album_of_one])
        [Popen 0; Err 0 "Conversion failed!"; Fin 0 false; ThreadFin 0].
  exists {["a.mp4" := false]}.
  do 6 (split; [vm_compute; reflexivity|]). vm_compute; reflexivity.
Qed.

(** When the song fails without writing on standard error the combine
    job stays registered and is never started: no input but a
    cancellation can arrive, and no [finished] signal was emitted. *)
Example batch_never_finishes_after_silent_failure :
  ∃ σ, steps (start 1 [SubmitAlbum album_of_one]) [Popen 0; Fin 0 false; ThreadFin 0] = Some σ ∧
       finished_results (emitted σ) = [] ∧
       workers σ = [("album.mp4", 1)] ∧ threads σ = [] ∧
       ∀ i, i ≠ Cancel → step σ i = None.
Proof.
  after (start 1 [SubmitAlbum album_of_one]) [Popen 0; Fin 0 false; ThreadFin 0].
  do 4 (split; [vm_compute; reflexivity|]).
  intros [t|t line|t msg|t success|t|] Hi; try done;
    destruct t as [|[|t]]; try destruct success; vm_compute; reflexivity.
Qed.

(** C6. The first song of an album writes a line on standard error, so
    the combine job is cancelled; then the user cancels the batch. The
    results emitted by [cancel] hold the two songs and not the combine
    job, although three jobs were submitted. *)
Example cancel_results_miss_cancelled_combine_job :
  let batch := [SubmitAlbum album_of_two] in
  jobs batch = ["a.mp4"; "b.mp4"; "album.mp4"] ∧
  ∃ σ r, steps (start 1 batch) [Popen 0; Err 0 "Conversion failed!"; Cancel] = Some σ ∧
         finished_results (emitted σ) = [r] ∧ results σ = r ∧
         size r = 2 ∧ r !! "a.mp4" = Some false ∧ r !! "b.mp4" = Some false ∧
         r !! "album.mp4" = None.
Proof.
  split; [reflexivity|].
  after (start 1 [SubmitAlbum album_of_two]) [Popen 0; Err 0 "Conversion failed!"; Cancel].
  exists {["a.mp4" := false; "b.mp4" := false]}.
  do 6 (split; [vm_compute; reflexivity|]). vm_compute; reflexivity.
Qed.



Lemma running_threads_bounded_witness :
  ∃ σ, steps (start 1 [SubmitAlbum album_of_two]) [Popen 0; Fin 0 true; ThreadFin 0; Popen 1] = Some σ ∧
       (Z.of_nat (running_count σ) ≤ 1)%Z ∧
       ∀ t σ', step σ (ThreadFin t) = Some σ' →
               started_count σ' ≤ S (started_count σ) ∧ running_count σ' ≤ running_count σ.
Proof.
  after (start 1 [SubmitAlbum album_of_two]) [Popen 0; Fin 0 true; ThreadFin 0; Popen 1].
  split; [vm_compute; reflexivity|].
  apply (running_threads_bounded 1 [SubmitAlbum album_of_two]
           [Popen 0; Fin 0 true; ThreadFin 0; Popen 1]);
    [lia|vm_compute; reflexivity|vm_compute; reflexivity].
Defined.

(** With three songs, an album and two processes at most, the combine
    job is queued when the third song reports success and starts when
    the thread of that song finishes; the four results are true. *)
Example three_songs_then_combine :
  ∃ σ1 σ2 r,
    steps (start 2 [SubmitAlbum album_of_three])
      [Popen 0; Popen 1; Fin 0 true; ThreadFin 0; Popen 2; Fin 1 true; ThreadFin 1;
       Fin 2 true] = Some σ1 ∧
    (t_status <$> pool σ1) = [Done; Done; Running; NotStarted] ∧ threads σ1 = [2; 3] ∧
    steps σ1 [ThreadFin 2; Popen 3; Fin 3 true; ThreadFin 3] = Some σ2 ∧
    finished_results (emitted σ2) = [r] ∧ results σ2 = r ∧
    (map_to_list r).*2 = [true; true; true; true].
Proof.
  after (start 2 [SubmitAlbum album_of_three])
        [Popen 0; Popen 1; Fin 0 true; ThreadFin 0; Popen 2; Fin 1 true; ThreadFin 1; Fin 2 true].
  after (default (start 2 [SubmitAlbum album_of_three])
           (steps (start 2 [SubmitAlbum album_of_three])
              [Popen 0; Popen 1; Fin 0 true; ThreadFin 0; Popen 2; Fin 1 true; ThreadFin 1;
               Fin 2 true]))
        [ThreadFin 2; Popen 3; Fin 3 true; ThreadFin 3].
  exists {["a.mp4" := true; "b.mp4" := true; "c.mp4" := true; "album.mp4" := true]}.
  do 6 (split; [vm_compute; reflexivity|]). vm_compute; reflexivity.
Qed.

(** ** Streams of a process *)

Section StreamFacts.
Import ProcessHandler.

Lemma read_pipe_produced p lines :
  read_pipe p lines = queued_lines p (produced lines) ++ [None].
Proof.
  induction lines as [|[text|] rest IH]; [done| |done].
  simpl. by rewrite IH.
Qed.

Lemma stdout_lines_cons_out line sigs :
  stdout_lines (stdout line :: sigs) = line :: stdout_lines sigs.
Proof. done. Qed.

Lemma loop_stdout la rest :
  ∃ sigs, loop (queued_lines p_stdout la ++ None :: rest) = Some sigs ∧
          stdout_lines sigs = la ∧ stderr_lines sigs = [].
Proof.
  induction la as [|l la (sigs & Hl & Ho & He)]; [by exists []|].
  exists (stdout l :: sigs). unfold queued_lines in *.
  rewrite fmap_cons. cbn [app loop]. rewrite Hl. repeat split; [|done].
  unfold stdout_lines. simpl. by f_equal.
Qed.

Lemma merge_loop sched la lb :
  ∃ sigs,
    loop (merge sched (queued_lines p_stdout la ++ [None]) (queued_lines p_stderr lb ++ [None]))
      = Some sigs ∧
    stdout_lines sigs `prefix_of` la ∧ stderr_lines sigs `prefix_of` lb ∧
    (stdout_lines sigs = la ∨ stderr_lines sigs = lb).
Proof.
  revert la lb. induction sched as [|[] sched IH]; intros la lb.
  - cbn [merge]. rewrite <- app_assoc.
    destruct (loop_stdout la ([] ++ queued_lines p_stderr lb ++ [None])) as (sigs & Hl & Ho & He).
    exists sigs. split; [exact Hl|]. rewrite Ho, He.
    split; [done|]. split; [apply prefix_nil|by left].
  - destruct la as [|l la].
    + exists []. split; [done|]. split; [apply prefix_nil|]. split; [apply prefix_nil|by left].
    + destruct (IH la lb) as (sigs & Hl & Ho & He & Hfull).
      exists (stdout l :: sigs). unfold queued_lines in *.
      rewrite fmap_cons. cbn [app merge loop]. rewrite Hl.
      split; [done|]. split; [by apply prefix_cons|]. split; [done|].
      destruct Hfull as [Hfull|Hfull]; [left|by right].
      unfold stdout_lines in *. simpl. by f_equal.
  - destruct lb as [|l lb].
    + exists []. split; [done|]. split; [apply prefix_nil|]. split; [apply prefix_nil|by right].
    + destruct (IH la lb) as (sigs & Hl & Ho & He & Hfull).
      exists (stderr l :: sigs). unfold queued_lines in *.
      rewrite fmap_cons. cbn [app merge loop]. rewrite Hl.
      split; [done|]. split; [done|]. split; [by apply prefix_cons|].
      destruct Hfull as [Hfull|Hfull]; [by left|right].
      unfold stderr_lines in *. simpl. by f_equal.
Qed.

Lemma remove_registered h PS : h ∉ PS → remove h (PS ++ [h]) = PS.
Proof.
  induction PS as [|x PS IH]; intros Hh; simpl.
  - by rewrite Nat.eqb_refl.
  - apply not_elem_of_cons in Hh as [Hne Hh].
    destruct (Nat.eqb_spec x h) as [->|_]; [done|]. by rewrite IH.
Qed.

Lemma remove_other h x PS : x ≠ h → x ∈ PS → x ∈ remove h PS.
Proof.
  intros Hne. induction PS as [|y PS IH]; intros Hx; [done|]. simpl.
  destruct (Nat.eqb_spec y h) as [->|Hy].
  - apply elem_of_cons in Hx as [?|Hx]; [done|done].
  - apply elem_of_cons in Hx as [->|Hx]; [apply list_elem_of_here|].
    apply list_elem_of_further. by apply IH.
Qed.

End StreamFacts.




(** ** Workers *)

Lemma forward_not_finished sigs : Forall (fun s => ¬ is_w_finished s) (map forward sigs).
Proof. induction sigs as [|[] sigs IH]; constructor; auto. Qed.

Lemma progress_lines_forward sigs : progress_lines (map forward sigs) = stdout_lines sigs.
Proof.
  induction sigs as [|[] sigs IH]; [done| |done].
  unfold progress_lines, stdout_lines in *. simpl. by f_equal.
Qed.

Lemma error_lines_forward sigs : error_lines (map forward sigs) = stderr_lines sigs.
Proof.
  induction sigs as [|[] sigs IH]; [done|done|].
  unfold error_lines, stderr_lines in *. simpl. by f_equal.
Qed.

Section EscapeFacts.
Import CombineSongWorker.

Lemma escape_nonempty c rest : escape (String c rest) ≠ EmptyString.
Proof. simpl. by destruct (Ascii.eqb c "'"). Qed.

Lemma count_char_app c a b : count_char c (a +:+ b) = count_char c a + count_char c b.
Proof. induction a as [|x a IH]; [done|]. simpl. rewrite IH. lia. Qed.

Lemma count_char_escape c s :
  c ≠ "'"%char → c ≠ "\"%char → count_char c (escape s) = count_char c s.
Proof.
  intros Hq Hb. induction s as [|x s IH]; [done|].
  cbn [escape]. destruct (Ascii.eqb_spec x "'") as [->|Hx]; cbn [count_char]; rewrite IH.
  - destruct (Ascii.eqb_spec "'" c) as [<-|_]; [done|].
    destruct (Ascii.eqb_spec "\" c) as [<-|_]; [done|]. done.
  - done.
Qed.

Lemma remove_children_stops pre c post (fs : gset string) :
  NoDup pre → (∀ x, x ∈ pre → x ∈ fs) → c ∉ fs ∨ c ∈ pre →
  remove_children (pre ++ c :: post) fs = (fs ∖ list_to_set pre, Raise FileNotFoundError).
Proof.
  revert fs. induction pre as [|x pre IH]; intros fs Hnd Hin Hc; simpl.
  - destruct Hc as [Hc|Hc]; [|by apply not_elem_of_nil in Hc].
    unfold os_remove. rewrite bool_decide_eq_false_2 by done.
    f_equal. set_solver.
  - apply NoDup_cons in Hnd as [Hx Hnd].
    unfold os_remove. rewrite bool_decide_eq_true_2 by (apply Hin; left).
    rewrite IH; [|done| |].
    + f_equal. set_solver.
    + intros y Hy. apply elem_of_difference. split; [apply Hin; by right|].
      intros ->%elem_of_singleton. done.
    + destruct Hc as [Hc|Hc]; [left; set_solver|].
      apply elem_of_cons in Hc as [->|Hc]; [left; set_solver|by right].
Qed.

Lemma remove_children_ret children (fs fs' : gset string) u :
  remove_children children fs = (fs', Ret u) →
  NoDup children ∧ (∀ c, c ∈ children → c ∈ fs) ∧ fs' = fs ∖ list_to_set children.
Proof.
  revert fs. induction children as [|c rest IH]; intros fs; simpl.
  - intros [= <-]. split; [constructor|]. split; [by intros c Hc%not_elem_of_nil|set_solver].
  - unfold os_remove. case_bool_decide as Hc; [|done].
    intros (Hnd & Hin & ->)%IH. split; [|split].
    + constructor; [|done]. intros Hc'. apply Hin in Hc'. set_solver.
    + intros x [->|Hx]%elem_of_cons; [done|]. apply Hin in Hx. set_solver.
    + set_solver.
Qed.

End EscapeFacts.

(** X3. Escaping the single quotes of a path for the song list loses
    nothing: two paths have the same escaped form exactly when they are
    the same path. *)
Theorem escape_injective s1 s2 :
  CombineSongWorker.escape s1 = CombineSongWorker.escape s2 ↔ s1 = s2.
Proof.
  split; [|by intros ->].
  revert s2. induction s1 as [|c1 r1 IH]; intros [|c2 r2] H; [done| | |].
  - symmetry in H. by apply escape_nonempty in H.
  - by apply escape_nonempty in H.
  - simpl in H.
    destruct (Ascii.eqb_spec c1 "'") as [->|H1], (Ascii.eqb_spec c2 "'") as [->|H2].
    + injection H as H. f_equal. by apply IH.
    + by injection H as <-.
    + by injection H as ->.
    + injection H as -> H. f_equal. by apply IH.
Qed.

(** X4. The song list holds one line for each song of the album, in
    album order: its line feeds are one per song plus those that the
    output paths themselves contain. *)
Theorem song_list_one_line_per_song children :
  count_char (ascii_of_nat 10) (CombineSongWorker.song_list children)
    = length children + sum_list (count_char (ascii_of_nat 10) <$> children).
Proof.
  induction children as [|c rest IH]; [done|].
  cbn [CombineSongWorker.song_list]. rewrite !count_char_app, IH.
  rewrite count_char_escape by done.
  change (count_char (ascii_of_nat 10) "file 'file:") with 0.
  change (count_char (ascii_of_nat 10) "'") with 0.
  change (count_char (ascii_of_nat 10) newline) with 1.
  rewrite fmap_cons. simpl. lia.
Qed.

(** X5. When the process of a combine job has returned and an input file
    is missing, or is listed a second time, the job raises an error and
    reports failure also after an exit status of zero; the inputs listed
    before that one have been removed, the others are left. *)
Theorem combine_fails_on_missing_input pre c post cmd h p sched PS (fs : gset string) :
  NoDup pre → (∀ x, x ∈ pre → x ∈ fs) → c ∉ fs ∨ c ∈ pre →
  ∃ sigs error PS',
    ProcessHandler.run h p sched PS = Some (sigs, error, PS') ∧
    CombineSongWorker.run (pre ++ c :: post) (Ret cmd) h p sched PS fs =
      Some (map forward sigs ++ [w_error "traceback"; w_finished false],
            fs ∖ list_to_set pre, PS').
Proof.
  intros Hnd Hin Hc. unfold CombineSongWorker.run.
  destruct (run_returns h p sched PS) as (sigs & PS' & ->).
  exists sigs, (negb (ProcessHandler.returncode p =? 0)%Z), PS'. split; [done|].
  by rewrite remove_children_stops.
Qed.

Lemma combine_fails_on_missing_input_witness :
  ∃ sigs error PS',
    ProcessHandler.run 0 (ProcessHandler.Process [] [] 0) [] [] = Some (sigs, error, PS') ∧
    CombineSongWorker.run (["a.mp4"] ++ "b.mp4" :: ["c.mp4"]) (Ret "ffmpeg") 0
        (ProcessHandler.Process [] [] 0) [] [] ({["a.mp4"; "c.mp4"]} : gset string) =
      Some (map forward sigs ++ [w_error "traceback"; w_finished false],
            ({["a.mp4"; "c.mp4"]} : gset string) ∖ list_to_set ["a.mp4"], PS').
Proof.
  apply (combine_fails_on_missing_input ["a.mp4"] "b.mp4" ["c.mp4"] "ffmpeg" 0
           (ProcessHandler.Process [] [] 0) [] [] {["a.mp4"; "c.mp4"]}).
  - apply (bool_decide_unpack _). by vm_compute.
  - intros x Hx. apply list_elem_of_singleton in Hx as ->.
    apply (bool_decide_unpack _). by vm_compute.
  - left. apply (bool_decide_unpack _). by vm_compute.
Defined.

(** X6. A combine job always ends with exactly one [finished] signal,
    its last signal.  It reports success exactly when the command could
    be built, the process exited with status zero, and every input file
    was listed once and existed when the process had returned. *)
Theorem combine_succeeds_iff children command_str h p sched PS (fs : gset string) :
  ∃ sigs success fs' PS',
    CombineSongWorker.run children command_str h p sched PS fs
      = Some (sigs ++ [w_finished success], fs', PS') ∧
    Forall (fun s => ¬ is_w_finished s) sigs ∧
    (success = true ↔
       (∃ cmd, command_str = Ret cmd) ∧ ProcessHandler.returncode p = 0%Z ∧
       NoDup children ∧ ∀ c, c ∈ children → c ∈ fs).
Proof.
  unfold CombineSongWorker.run. destruct command_str as [cmd|e].
  - destruct (run_returns h p sched PS) as (sigs & PS' & ->).
    destruct (CombineSongWorker.remove_children children fs) as [fs' [u|e]] eqn:Hrm.
    + exists (map forward sigs), (negb (negb (ProcessHandler.returncode p =? 0)%Z)), fs', PS'.
      split; [done|]. split; [apply forward_not_finished|].
      apply remove_children_ret in Hrm as (Hnd & Hin & _).
      rewrite negb_involutive, Z.eqb_eq. split; [intros Hz; eauto|by intros (_ & Hz & _)].
    + exists (map forward sigs ++ [w_error "traceback"]), false, fs', PS'.
      split; [by rewrite <- app_assoc|]. split.
      { apply Forall_app. split; [apply forward_not_finished|]. constructor; auto. }
      split; [done|]. intros (_ & _ & Hnd & Hin).
      by rewrite remove_children_all in Hrm.
  - exists [w_error "traceback"], false, fs, PS. split; [done|].
    split; [constructor; auto|]. split; [done|]. by intros [[cmd ?] _].
Qed.

(** X7. A render job of a song always ends with exactly one [finished]
    signal, its last signal.  It reports success exactly when the command
    could be built and the process exited with status zero, and the lines
    it passes on as progress are an initial part of what the process
    wrote on standard output. *)
Theorem render_song_succeeds_iff command_str h p sched PS :
  ∃ sigs success PS',
    RenderSongWorker.run command_str h p sched PS = Some (sigs ++ [w_finished success], PS') ∧
    Forall (fun s => ¬ is_w_finished s) sigs ∧
    (success = true ↔ (∃ cmd, command_str = Ret cmd) ∧ ProcessHandler.returncode p = 0%Z) ∧
    progress_lines sigs `prefix_of` ProcessHandler.produced (ProcessHandler.out_lines p) ∧
    error_lines sigs `prefix_of`
      match command_str with
      | Ret _ => ProcessHandler.produced (ProcessHandler.err_lines p)
      | Raise _ => ["traceback"]
      end.
Proof.
  unfold RenderSongWorker.run. destruct command_str as [cmd|e].
  - unfold ProcessHandler.run. rewrite !read_pipe_produced.
    destruct (merge_loop sched (ProcessHandler.produced (ProcessHandler.out_lines p))
                (ProcessHandler.produced (ProcessHandler.err_lines p)))
      as (sigs & -> & Ho & He & _).
    simpl. eexists (map forward sigs), _, _. split; [reflexivity|].
    split; [apply forward_not_finished|].
    rewrite negb_involutive, Z.eqb_eq, progress_lines_forward, error_lines_forward.
    split; [|done]. split; [eauto|by intros [_ ?]].
  - exists [w_error "traceback"], false, PS. split; [done|].
    split; [constructor; auto|]. split; [|split; [apply prefix_nil|done]].
    split; [done|]. by intros [[cmd ?] _].
Qed.

(** ** Registering jobs, whatever their names *)

Lemma add_worker_fields name d auto σ :
  pool (add_worker name d auto σ) = pool σ ++ [Slot name d NotStarted false false NoProcess] ∧
  threads (add_worker name d auto σ)
    = (if auto then threads σ ++ [length (pool σ)] else threads σ) ∧
  workers (add_worker name d auto σ) = dict_set name (length (pool σ)) (workers σ) ∧
  helpers (add_worker name d auto σ) = helpers σ.
Proof. unfold add_worker. by destruct auto. Qed.

Lemma dict_set_keys {V} k (v : V) d k' : k' ∈ (dict_set k v d).*1 ↔ k' = k ∨ k' ∈ d.*1.
Proof.
  induction d as [|[k0 v0] d IH]; simpl.
  - rewrite list_elem_of_singleton. split; [by left|]. intros [?|H]; [done|].
    by apply not_elem_of_nil in H.
  - destruct (String.eqb_spec k0 k) as [->|Hne]; simpl.
    + rewrite elem_of_cons. naive_solver.
    + rewrite !elem_of_cons, IH. naive_solver.
Qed.

Lemma pristine_init maxp : pristine maxp (init maxp).
Proof.
  split; [constructor| |constructor|done|done].
  intros t Ht. by apply not_elem_of_nil in Ht.
Qed.

Lemma pristine_add_worker maxp name d auto σ :
  pristine maxp σ → pristine maxp (add_worker name d auto σ).
Proof.
  intros [Hsl Hthr Hq Hkeys Hidle].
  destruct (add_worker_fields name d auto σ) as (Hp & Ht & Hw & Hh).
  split.
  - rewrite Hp. apply Forall_app. split; [done|]. by repeat constructor.
  - intros t. rewrite Ht, Hp, length_app. simpl. destruct auto.
    + intros [Hin|Hin%list_elem_of_singleton]%elem_of_app; [|lia]. apply Hthr in Hin. lia.
    + intros Hin%Hthr. lia.
  - rewrite Ht. destruct auto; [|done]. apply NoDup_app. split; [done|].
    split; [|apply NoDup_singleton].
    intros t Hin ->%list_elem_of_singleton. apply Hthr in Hin. lia.
  - intros n. rewrite Hw, Hp, fmap_app, dict_set_keys, elem_of_app, Hkeys.
    simpl. rewrite list_elem_of_singleton. naive_solver.
  - rewrite Hidle. unfold add_worker. by destruct auto.
Qed.

Lemma add_songs_snoc σ songs song :
  add_songs σ (songs ++ [song])
  = add_worker (fileOutput song) (duration_ms song) true (add_songs σ songs).
Proof. unfold add_songs. by rewrite foldl_app. Qed.

Lemma pristine_add_songs maxp songs σ :
  pristine maxp σ →
  pristine maxp (add_songs σ songs) ∧
  w_name <$> pool (add_songs σ songs) = (w_name <$> pool σ) ++ (fileOutput <$> songs) ∧
  helpers (add_songs σ songs) = helpers σ.
Proof.
  intros Hf. induction songs as [|song songs (IH & Hn & Hh)] using rev_ind.
  - by rewrite app_nil_r.
  - rewrite add_songs_snoc.
    destruct (add_worker_fields (fileOutput song) (duration_ms song) true (add_songs σ songs))
      as (Hp & _ & _ & Hh').
    split; [by apply pristine_add_worker|]. split; [|congruence].
    by rewrite Hp, !fmap_app, Hn, app_assoc.
Qed.

Lemma add_songs_submit σ songs : add_songs σ songs = foldl submit σ (SubmitSong <$> songs).
Proof. revert σ. induction songs as [|song songs IH]; intros σ; [done|]. simpl. apply IH. Qed.

Lemma submit_album_single a σ :
  (length (getChildren a) =? 0) = false → albumPlaylist a = SINGLE →
  submit σ (SubmitAlbum a)
  = set_helpers (fun hs => hs ++ [helper_of a])
      (add_worker (a_fileOutput a) (a_duration_ms a) false (add_songs σ (getChildren a))).
Proof.
  intros Hlen Hs. simpl. unfold add_render_album_job. rewrite Hlen, Hs.
  unfold helper_render. rewrite helper_render_loop. unfold combine_songs_into_album.
  simpl. unfold helper_of. by rewrite (left_id_L ∅ (∪)).
Qed.

Lemma pristine_submit maxp σ s :
  pristine maxp σ →
  pristine maxp (submit σ s) ∧
  w_name <$> pool (submit σ s) = (w_name <$> pool σ) ++ jobs [s] ∧
  helpers (submit σ s) = helpers σ ++ (helper_of <$> single_albums [s]).
Proof.
  intros Hf. unfold jobs, single_albums. simpl. rewrite app_nil_r.
  destruct s as [song|a].
  - change (submit σ (SubmitSong song))
      with (add_worker (fileOutput song) (duration_ms song) true σ).
    destruct (add_worker_fields (fileOutput song) (duration_ms song) true σ)
      as (Hp & _ & _ & Hh).
    split; [by apply pristine_add_worker|]. rewrite Hp, fmap_app, Hh. by rewrite app_nil_r.
  - unfold album_jobs.
    destruct (length (getChildren a) =? 0) eqn:Hlen.
    { simpl. unfold add_render_album_job. rewrite Hlen. by rewrite !app_nil_r. }
    destruct (albumPlaylist a) eqn:Hpl.
    + rewrite submit_album_single by done.
      destruct (pristine_add_songs maxp (getChildren a) σ Hf) as (Hf1 & Hn1 & Hh1).
      set (σ1 := add_songs σ (getChildren a)) in *.
      destruct (add_worker_fields (a_fileOutput a) (a_duration_ms a) false σ1)
        as (Hp & Ht & Hw & Hh).
      pose proof (pristine_add_worker maxp (a_fileOutput a) (a_duration_ms a) false σ1 Hf1)
        as [Hsl Hthr Hq Hkeys Hidle].
      set (σ2 := add_worker (a_fileOutput a) (a_duration_ms a) false σ1) in *.
      clearbody σ2 σ1. split; [|split].
      * split; try done. simpl. by rewrite Hidle.
      * simpl. rewrite Hp, fmap_app, Hn1. simpl.
        by rewrite <- app_assoc.
      * simpl. by rewrite Hh, Hh1.
    + simpl. unfold add_render_album_job. rewrite Hlen, Hpl. fold (add_songs σ (getChildren a)).
      destruct (pristine_add_songs maxp (getChildren a) σ Hf) as (Hf1 & Hn1 & Hh1).
      split; [done|]. by rewrite Hn1, Hh1, app_nil_r.
    + simpl. unfold add_render_album_job. rewrite Hlen, Hpl. by rewrite !app_nil_r.
Qed.

Lemma single_albums_cons s batch :
  single_albums (s :: batch) = single_albums [s] ++ single_albums batch.
Proof. unfold single_albums. simpl. by destruct (match s with SubmitSong _ => _ | _ => _ end). Qed.

Lemma pristine_foldl maxp batch σ :
  pristine maxp σ →
  pristine maxp (foldl submit σ batch) ∧
  w_name <$> pool (foldl submit σ batch) = (w_name <$> pool σ) ++ jobs batch ∧
  helpers (foldl submit σ batch) = helpers σ ++ (helper_of <$> single_albums batch).
Proof.
  revert σ. induction batch as [|s batch IH]; intros σ Hf.
  - simpl. rewrite !app_nil_r. by split.
  - destruct (pristine_submit maxp σ s Hf) as (Hf1 & Hn1 & Hh1).
    destruct (IH _ Hf1) as (Hf2 & Hn2 & Hh2).
    change (foldl submit σ (s :: batch)) with (foldl submit (submit σ s) batch).
    split; [done|].
    rewrite Hn2, Hn1, Hh2, Hh1, (jobs_cons s batch), (single_albums_cons s batch), fmap_app.
    by rewrite <- !app_assoc.
Qed.

Lemma pristine_setup maxp batch :
  pristine maxp (setup maxp batch) ∧
  w_name <$> pool (setup maxp batch) = jobs batch ∧
  helpers (setup maxp batch) = helper_of <$> single_albums batch.
Proof. apply (pristine_foldl maxp batch (init maxp)), pristine_init. Qed.

(** X8. Registering the jobs of a batch gives every job a thread of its
    own, in the order of submission and with the combine job of an album
    after its songs, also when two jobs write the same file; no thread
    is started, no process is spawned, and nothing is emitted or
    recorded before [render] is called. *)
Theorem setup_registers_every_job maxp batch :
  w_name <$> pool (setup maxp batch) = jobs batch ∧
  Forall new_slot (pool (setup maxp batch)) ∧
  (∀ t, t ∈ threads (setup maxp batch) → t < length (jobs batch)) ∧
  NoDup (threads (setup maxp batch)) ∧
  results (setup maxp batch) = ∅ ∧ emitted (setup maxp batch) = [] ∧
  PROCESSES (setup maxp batch) = [] ∧
  working (setup maxp batch) = false ∧ cancelled (setup maxp batch) = false.
Proof.
  destruct (pristine_setup maxp batch) as ([Hsl Hthr Hq Hkeys Hidle] & Hn & Hh).
  split; [done|]. split; [done|]. split.
  { intros t Ht%Hthr. by rewrite <- Hn, length_fmap. }
  split; [done|]. by rewrite Hidle.
Qed.

(** X9. For each album that is rendered to a single file and has songs
    the renderer keeps one helper, in the order of submission; the
    helper waits for the output files of the songs of its album, its
    combine job is named after the output file of the album, and it
    starts without error.  Other albums and single songs get no helper. *)
Theorem setup_helpers maxp batch :
  helpers (setup maxp batch) = helper_of <$> single_albums batch.
Proof. by destruct (pristine_setup maxp batch) as (_ & _ & Hh). Qed.

(** X10. An album whose songs are rendered to files of their own is
    registered exactly as its songs submitted one by one in its place. *)
Theorem multiple_album_is_its_songs maxp pre a post :
  albumPlaylist a = MULTIPLE →
  setup maxp (pre ++ SubmitAlbum a :: post)
  = setup maxp (pre ++ (SubmitSong <$> getChildren a) ++ post).
Proof.
  intros Hpl. unfold setup. rewrite !foldl_app.
  generalize (foldl submit (init maxp) pre). intros σ.
  change (foldl submit σ (SubmitAlbum a :: post))
    with (foldl submit (add_render_album_job a σ) post).
  f_equal. rewrite <- add_songs_submit.
  unfold add_render_album_job. rewrite Hpl.
  by destruct (getChildren a).
Qed.

Lemma multiple_album_is_its_songs_witness :
  setup 2 ([SubmitSong song_a] ++
           SubmitAlbum {| a_fileOutput := "album.mp4"; a_duration_ms := 20000;
                          getChildren := [song_b]; albumPlaylist := MULTIPLE |} :: [])
  = setup 2 ([SubmitSong song_a] ++ (SubmitSong <$> [song_b]) ++ []).
Proof.
  apply (multiple_album_is_its_songs 2 [SubmitSong song_a]
           {| a_fileOutput := "album.mp4"; a_duration_ms := 20000;
              getChildren := [song_b]; albumPlaylist := MULTIPLE |} []).
  reflexivity.
Defined.

(** ** The registry of a batch with distinct names *)

Lemma registry_add_worker name d auto σ :
  workers σ = zip (w_name <$> pool σ) (seq 0 (length (pool σ))) →
  name ∉ w_name <$> pool σ →
  let σ' := add_worker name d auto σ in
  workers σ' = zip (w_name <$> pool σ') (seq 0 (length (pool σ'))).
Proof.
  intros Hreg Hname. cbv zeta.
  destruct (add_worker_fields name d auto σ) as (Hp & _ & Hw & _).
  assert (Hkeys : (workers σ).*1 = w_name <$> pool σ).
  { rewrite Hreg. apply fst_zip. by rewrite length_fmap, length_seq. }
  rewrite Hw, Hp, dict_set_fresh by (by rewrite Hkeys).
  rewrite fmap_app, length_app. simpl. rewrite Nat.add_1_r, seq_S. simpl.
  rewrite zip_with_app by (by rewrite length_fmap, length_seq).
  by rewrite <- Hreg.
Qed.

Lemma registry_add_songs songs σ :
  workers σ = zip (w_name <$> pool σ) (seq 0 (length (pool σ))) →
  NoDup ((w_name <$> pool σ) ++ (fileOutput <$> songs)) →
  let σ' := add_songs σ songs in
  workers σ' = zip (w_name <$> pool σ') (seq 0 (length (pool σ'))) ∧
  w_name <$> pool σ' = (w_name <$> pool σ) ++ (fileOutput <$> songs).
Proof.
  intros Hreg. cbv zeta. induction songs as [|song songs IH] using rev_ind; intros Hnd.
  - by rewrite app_nil_r.
  - rewrite fmap_app, app_assoc in Hnd. apply NoDup_app in Hnd as (Hnd & Hdisj & _).
    destruct (IH Hnd) as (Hreg1 & Hn1). rewrite add_songs_snoc.
    destruct (add_worker_fields (fileOutput song) (duration_ms song) true (add_songs σ songs))
      as (Hp & _ & _ & _).
    split.
    + apply registry_add_worker; [done|]. rewrite Hn1. intros Hin.
      apply (Hdisj _ Hin). simpl. apply list_elem_of_here.
    + by rewrite Hp, !fmap_app, Hn1, app_assoc.
Qed.

Lemma registry_submit σ s :
  workers σ = zip (w_name <$> pool σ) (seq 0 (length (pool σ))) →
  NoDup ((w_name <$> pool σ) ++ jobs [s]) →
  workers (submit σ s) = zip (w_name <$> pool (submit σ s)) (seq 0 (length (pool (submit σ s)))) ∧
  w_name <$> pool (submit σ s) = (w_name <$> pool σ) ++ jobs [s].
Proof.
  intros Hreg. unfold jobs. simpl. rewrite app_nil_r. destruct s as [song|a].
  - change (submit σ (SubmitSong song))
      with (add_worker (fileOutput song) (duration_ms song) true σ).
    intros Hnd. apply NoDup_app in Hnd as (_ & Hdisj & _).
    destruct (add_worker_fields (fileOutput song) (duration_ms song) true σ) as (Hp & _ & _ & _).
    split; [|by rewrite Hp, fmap_app].
    apply registry_add_worker; [done|]. intros Hin. apply (Hdisj _ Hin), list_elem_of_here.
  - unfold album_jobs.
    destruct (length (getChildren a) =? 0) eqn:Hlen.
    { simpl. unfold add_render_album_job. rewrite Hlen. by rewrite !app_nil_r. }
    destruct (albumPlaylist a) eqn:Hpl.
    + rewrite submit_album_single by done. intros Hnd. rewrite app_assoc in Hnd.
      apply NoDup_app in Hnd as (Hnd & Hdisj & _).
      destruct (registry_add_songs (getChildren a) σ Hreg Hnd) as (Hreg1 & Hn1).
      set (σ1 := add_songs σ (getChildren a)) in *.
      destruct (add_worker_fields (a_fileOutput a) (a_duration_ms a) false σ1) as (Hp & _ & _ & _).
      assert (Hreg2 := registry_add_worker (a_fileOutput a) (a_duration_ms a) false σ1 Hreg1).
      cbv zeta in Hreg2.
      set (σ2 := add_worker (a_fileOutput a) (a_duration_ms a) false σ1) in *.
      clearbody σ2 σ1.
      change (workers (set_helpers _ σ2)) with (workers σ2).
      change (pool (set_helpers _ σ2)) with (pool σ2).
      split; [|by rewrite Hp, fmap_app, Hn1, <- app_assoc].
      apply Hreg2. rewrite Hn1. intros Hin. apply (Hdisj _ Hin), list_elem_of_here.
    + simpl. unfold add_render_album_job. rewrite Hlen, Hpl. fold (add_songs σ (getChildren a)).
      intros Hnd. by apply registry_add_songs.
    + simpl. unfold add_render_album_job. rewrite Hlen, Hpl. by rewrite !app_nil_r.
Qed.

Lemma registry_foldl batch σ :
  workers σ = zip (w_name <$> pool σ) (seq 0 (length (pool σ))) →
  NoDup ((w_name <$> pool σ) ++ jobs batch) →
  let σ' := foldl submit σ batch in
  workers σ' = zip (w_name <$> pool σ') (seq 0 (length (pool σ'))).
Proof.
  revert σ. induction batch as [|s batch IH]; intros σ Hreg Hnd; [done|].
  rewrite (jobs_cons s batch), app_assoc in Hnd.
  destruct (registry_submit σ s Hreg) as (Hreg1 & Hn1).
  { by apply NoDup_app in Hnd as (? & _). }
  apply (IH (submit σ s) Hreg1). by rewrite Hn1.
Qed.

(** X11. When the jobs of a batch have distinct names, the registry of
    workers lists them in the order of submission and maps each name to
    the thread that was created for it. *)
Theorem setup_registry maxp batch :
  unique_jobs batch = true →
  workers (setup maxp batch) = zip (jobs batch) (seq 0 (length (jobs batch))).
Proof.
  intros Hu%bool_decide_eq_true_1.
  pose proof (registry_foldl batch (init maxp) eq_refl Hu) as Hreg. cbv zeta in Hreg.
  destruct (pristine_setup maxp batch) as (_ & Hn & _).
  fold (setup maxp batch) in Hreg. rewrite Hreg, Hn.
  assert (length (pool (setup maxp batch)) = length (jobs batch)) as ->; [|done].
  by rewrite <- Hn, length_fmap.
Qed.

Lemma setup_registry_witness :
  workers (setup 2 [SubmitAlbum album_of_two])
  = zip (jobs [SubmitAlbum album_of_two]) (seq 0 (length (jobs [SubmitAlbum album_of_two]))).
Proof. apply (setup_registry 2 [SubmitAlbum album_of_two]). vm_compute. reflexivity. Defined.

(** ** The first threads of the queue *)

Lemma pristine_not_running maxp σ t : pristine maxp σ → isRunning t σ = false.
Proof.
  intros [Hsl _ _ _ _]. unfold isRunning. destruct (pool σ !! t) as [sl|] eqn:Ht; [|done].
  rewrite Forall_lookup in Hsl. by destruct (Hsl _ _ Ht) as (-> & _).
Qed.

Lemma thread_start_other t σ t' : t' ≠ t → isRunning t' (thread_start t σ) = isRunning t' σ.
Proof.
  intros Hne. unfold thread_start. destruct (isRunning t σ); [done|].
  rewrite isRunning_update. by rewrite decide_False.
Qed.

Lemma thread_start_self t σ : t < length (pool σ) → isRunning t (thread_start t σ) = true.
Proof.
  intros Hlt. unfold thread_start. destruct (isRunning t σ) eqn:Hr; [done|].
  rewrite isRunning_update, decide_True by done.
  by destruct (lookup_lt_is_Some_2 (pool σ) t Hlt) as [sl ->].
Qed.

Lemma thread_start_length t σ : length (pool (thread_start t σ)) = length (pool σ).
Proof.
  unfold thread_start. destruct (isRunning t σ); [done|]. simpl.
  destruct (pool σ !! t); [|done]. by rewrite length_insert.
Qed.

Lemma thread_start_new t σ :
  t < length (pool σ) → isRunning t σ = false →
  running_count (thread_start t σ) = S (running_count σ).
Proof.
  intros Hlt Hr. unfold thread_start. rewrite Hr.
  destruct (lookup_lt_is_Some_2 (pool σ) t Hlt) as [sl Hsl].
  pose proof (running_count_update t (with_status Running) σ sl Hsl) as Hc.
  unfold isRunning in Hr. rewrite Hsl in Hr.
  change (t_status (with_status Running sl)) with Running in Hc.
  repeat case_decide; [by destruct (t_status sl)|done|lia|done].
Qed.

Lemma thread_start_emitted t σ :
  emitted (thread_start t σ) = emitted σ ∧ results (thread_start t σ) = results σ ∧
  cancelled (thread_start t σ) = cancelled σ.
Proof. unfold thread_start. by destruct (isRunning t σ). Qed.

(** Starting a list of distinct threads, none of which is running. *)
Lemma start_all l σ :
  NoDup l → (∀ t, t ∈ l → t < length (pool σ) ∧ isRunning t σ = false) →
  let σ' := foldl (fun σ t => thread_start t σ) σ l in
  (∀ t, isRunning t σ' = true ↔ isRunning t σ = true ∨ t ∈ l) ∧
  running_count σ' = running_count σ + length l ∧
  threads σ' = threads σ ∧ workers σ' = workers σ ∧ helpers σ' = helpers σ ∧
  working σ' = working σ ∧ emitted σ' = emitted σ ∧ results σ' = results σ ∧
  cancelled σ' = cancelled σ.
Proof.
  revert σ. induction l as [|t l IH]; intros σ Hnd Hl; cbv zeta.
  - simpl. split; [|by rewrite Nat.add_0_r].
    intros t. split; [by left|]. intros [?|Hin]; [done|]. by apply not_elem_of_nil in Hin.
  - apply NoDup_cons in Hnd as [Hnot Hnd].
    destruct (Hl t (list_elem_of_here _ _)) as [Hlt Hr].
    destruct (thread_start_fields t σ) as (Ht & Hw & Hh & Hwk & _).
    destruct (thread_start_emitted t σ) as (He & Hres & Hcan).
    destruct (IH (thread_start t σ) Hnd) as (Hrun & Hcount & Ht' & Hw' & Hh' & Hwk' & He' & Hres' & Hcan').
    { intros t' Hin. rewrite thread_start_length.
      split; [apply Hl; by right|].
      rewrite thread_start_other by (intros ->; done). apply Hl. by right. }
    simpl. split; [|split].
    + intros t'. rewrite Hrun, elem_of_cons.
      destruct (decide (t' = t)) as [->|Hne].
      * rewrite thread_start_self by done. naive_solver.
      * rewrite thread_start_other by done. naive_solver.
    + rewrite Hcount, thread_start_new by done. simpl. lia.
    + by rewrite Ht', Hw', Hh', Hwk', He', Hres', Hcan'.
Qed.

Lemma take_to_nat_min {A} (maxp : Z) (l : list A) :
  take (Z.to_nat (Z.min maxp (Z.of_nat (length l)))) l = take (Z.to_nat maxp) l.
Proof.
  destruct (Z.le_ge_cases maxp (Z.of_nat (length l))) as [Hle|Hge].
  - by rewrite Z.min_l.
  - rewrite Z.min_r, Nat2Z.id by done. rewrite !take_ge; [done|lia|done].
Qed.

Lemma jobs_single_albums batch : jobs batch = [] → single_albums batch = [].
Proof.
  induction batch as [|s batch IH]; [done|].
  rewrite (jobs_cons s batch), (single_albums_cons s batch).
  intros [Hs Hb]%app_eq_nil. rewrite (IH Hb), app_nil_r.
  destruct s as [song|a]; [done|]. unfold jobs in Hs. simpl in Hs. rewrite app_nil_r in Hs.
  unfold single_albums, album_jobs in *. simpl.
  destruct (length (getChildren a) =? 0); [done|].
  destruct (albumPlaylist a); [|done|done]. by apply app_eq_nil in Hs as [_ ?].
Qed.

Lemma pristine_empty maxp σ : pristine maxp σ → pool σ = [] → workers σ = [] ∧ threads σ = [].
Proof.
  intros [_ Hthr _ Hkeys _] Hp. split.
  - destruct (workers σ) as [|[n t] ws]; [done|].
    assert (n ∈ w_name <$> pool σ) as Hin by (apply Hkeys; simpl; apply list_elem_of_here).
    rewrite Hp in Hin. by apply not_elem_of_nil in Hin.
  - destruct (threads σ) as [|t ts]; [done|].
    specialize (Hthr t (list_elem_of_here _ _)). rewrite Hp in Hthr. simpl in Hthr. lia.
Qed.

Lemma pristine_registered maxp σ : pristine maxp σ → pool σ ≠ [] → workers σ ≠ [].
Proof.
  intros [_ _ _ Hkeys _] Hp Hw. destruct (pool σ) as [|sl p]; [done|].
  assert (w_name sl ∈ (workers σ).*1) as Hin by (apply Hkeys; simpl; apply list_elem_of_here).
  rewrite Hw in Hin. by apply not_elem_of_nil in Hin.
Qed.

(** What [render] does to a batch that was just registered. *)
Lemma render_pristine maxp σ :
  pristine maxp σ →
  (∀ t, isRunning t (render σ) = true ↔ t ∈ take (Z.to_nat maxp) (threads σ)) ∧
  running_count (render σ) = Nat.min (Z.to_nat maxp) (length (threads σ)) ∧
  threads (render σ) = threads σ ∧ workers (render σ) = workers σ ∧
  helpers (render σ) = helpers σ ∧
  working (render σ) = negb (length (workers σ) =? 0) ∧
  emitted (render σ) = (if length (workers σ) =? 0 then [Finished ∅] else []) ∧
  results (render σ) = ∅ ∧ cancelled (render σ) = false.
Proof.
  intros Hf. pose proof Hf as [Hsl Hthr Hq Hkeys Hidle].
  assert (Hm : maxProcesses σ = maxp) by (by rewrite Hidle).
  assert (He : emitted σ = [] ∧ results σ = ∅ ∧ cancelled σ = false) by (by rewrite Hidle).
  destruct He as (He & Hres & Hcan).
  unfold render. cbv zeta.
  set (σ1 := if length (workers (set_working true σ)) =? 0
             then emit (Finished (results (set_working true σ)))
                       (set_working false (set_working true σ))
             else set_working true σ).
  assert (H1 : pool σ1 = pool σ ∧ threads σ1 = threads σ ∧ workers σ1 = workers σ ∧
               helpers σ1 = helpers σ ∧ maxProcesses σ1 = maxp ∧
               working σ1 = negb (length (workers σ) =? 0) ∧
               emitted σ1 = (if length (workers σ) =? 0 then [Finished ∅] else []) ∧
               results σ1 = ∅ ∧ cancelled σ1 = false).
  { unfold σ1. simpl. destruct (length (workers σ) =? 0); simpl; by rewrite ?He, ?Hres. }
  clearbody σ1. destruct H1 as (Hp1 & Ht1 & Hw1 & Hh1 & Hm1 & Hwk1 & He1 & Hres1 & Hcan1).
  rewrite Hm1, Ht1, take_to_nat_min.
  assert (Hrun1 : ∀ t, isRunning t σ1 = false).
  { intros t. unfold isRunning. rewrite Hp1. apply (pristine_not_running maxp σ t Hf). }
  destruct (start_all (take (Z.to_nat maxp) (threads σ)) σ1)
    as (Hrun & Hcount & Ht' & Hw' & Hh' & Hwk' & He' & Hres' & Hcan').
  { eapply sublist_NoDup; [exact Hq|apply sublist_take]. }
  { intros t Hin%subseteq_take. rewrite Hp1. split; [by apply Hthr|apply Hrun1]. }
  split; [|split].
  - intros t. rewrite Hrun, Hrun1. naive_solver.
  - rewrite Hcount, (running_count_zero σ1 Hrun1), length_take. lia.
  - by rewrite Ht', Hw', Hh', Hwk', He', Hres', Hcan'.
Qed.

(** X12. [render] on a batch without jobs reports the end of the batch
    at once, with empty results, and leaves the renderer as it was
    created; on a batch with jobs it emits nothing and sets [working]. *)
Theorem start_finishes_at_once_iff_no_jobs maxp batch :
  match jobs batch with
  | [] => start maxp batch = emit (Finished ∅) (init maxp)
  | _ :: _ => emitted (start maxp batch) = [] ∧ working (start maxp batch) = true
  end.
Proof.
  destruct (pristine_setup maxp batch) as (Hf & Hn & Hh).
  destruct (jobs batch) as [|n names] eqn:Hj.
  - apply fmap_nil_inv in Hn.
    destruct (pristine_empty maxp _ Hf Hn) as (Hw & Ht).
    rewrite (jobs_single_albums batch Hj) in Hh.
    unfold start. rewrite (pr_idle _ _ Hf), Hn, Hw, Ht, Hh. unfold render. simpl.
    by rewrite take_nil.
  - destruct (render_pristine maxp _ Hf) as (_ & _ & _ & _ & _ & Hwk & He & _).
    fold (start maxp batch) in Hwk, He.
    assert (Hw : workers (setup maxp batch) ≠ []).
    { apply (pristine_registered maxp); [done|]. intros Hp. by rewrite Hp in Hn. }
    destruct (workers (setup maxp batch)); [done|]. by rewrite Hwk, He.
Qed.

(** X13. [render] starts the threads at the head of the queue, as many
    as the limit allows and no other: a thread is running afterwards
    exactly when it is among the first [maxProcesses] of the queue, and
    the queue itself is left as it was. *)
Theorem render_starts_head_of_queue maxp batch :
  threads (start maxp batch) = threads (setup maxp batch) ∧
  (∀ t, isRunning t (start maxp batch) = true
        ↔ t ∈ take (Z.to_nat maxp) (threads (setup maxp batch))) ∧
  running_count (start maxp batch)
    = Nat.min (Z.to_nat maxp) (length (threads (setup maxp batch))).
Proof.
  destruct (pristine_setup maxp batch) as (Hf & _ & _).
  by destruct (render_pristine maxp _ Hf) as (Hrun & Hcount & Ht & _).
Qed.

(** X14. With a limit of zero or less, [render] on a batch with jobs
    starts no thread and emits nothing: the renderer stays [working],
    and nothing but a cancellation can arrive afterwards. *)
Theorem nothing_runs_with_zero_limit maxp batch :
  (maxp ≤ 0)%Z → jobs batch ≠ [] →
  running_count (start maxp batch) = 0 ∧ emitted (start maxp batch) = [] ∧
  working (start maxp batch) = true ∧
  ∀ i, i ≠ Cancel → step (start maxp batch) i = None.
Proof.
  intros Hmax Hjobs.
  destruct (pristine_setup maxp batch) as (Hf & Hn & _).
  destruct (render_pristine maxp _ Hf) as (Hrun & Hcount & _ & _ & _ & Hwk & He & _).
  fold (start maxp batch) in Hrun, Hcount, Hwk, He.
  assert (Hz : Z.to_nat maxp = 0) by lia. rewrite Hz in Hrun, Hcount.
  assert (Hw : workers (setup maxp batch) ≠ []).
  { apply (pristine_registered maxp); [done|]. intros Hp. rewrite Hp in Hn. by destruct (jobs batch). }
  assert (Hnone : ∀ t, isRunning t (start maxp batch) = false).
  { intros t. destruct (isRunning t (start maxp batch)) eqn:Hr; [|done].
    apply Hrun in Hr. by apply not_elem_of_nil in Hr. }
  assert (Hact : ∀ t, active t (start maxp batch) = false).
  { intros t. specialize (Hnone t). unfold active, isRunning in *.
    destruct (pool (start maxp batch) !! t) as [sl|]; [|done]. by destruct (t_status sl). }
  assert (Hquit : ∀ t, quitting t (start maxp batch) = false).
  { intros t. specialize (Hnone t). unfold quitting, isRunning in *.
    destruct (pool (start maxp batch) !! t) as [sl|]; [|done]. by destruct (t_status sl). }
  split; [done|]. split; [|split].
  - rewrite He. by destruct (workers (setup maxp batch)).
  - rewrite Hwk. by destruct (workers (setup maxp batch)).
  - intros [t|t line|t msg|t success|t|] Hi; simpl; rewrite ?Hact, ?Hquit; done.
Qed.

Lemma nothing_runs_with_zero_limit_witness :
  running_count (start 0 [SubmitSong song_a]) = 0 ∧ emitted (start 0 [SubmitSong song_a]) = [] ∧
  working (start 0 [SubmitSong song_a]) = true ∧
  ∀ i, i ≠ Cancel → step (start 0 [SubmitSong song_a]) i = None.
Proof. apply (nothing_runs_with_zero_limit 0 [SubmitSong song_a]); [lia|by vm_compute]. Defined.

(** ** What the helpers change *)

Lemma dict_get_is_Some {V} k (d : list (string * V)) : k ∈ d.*1 → ∃ v, dict_get k d = Some v.
Proof.
  induction d as [|[k' v'] d IH]; simpl.
  - intros H. by apply not_elem_of_nil in H.
  - destruct (String.eqb_spec k' k) as [->|Hne]; [by eexists|].
    intros [?|Hin]%elem_of_cons; [done|]. by apply IH.
Qed.

Lemma dict_get_nil {V} (d : list (string * V)) : (∀ k v, dict_get k d ≠ Some v) → d = [].
Proof.
  destruct d as [|[k v] d]; [done|]. intros H. destruct (H k v). simpl.
  by rewrite String.eqb_refl.
Qed.

Lemma failed_combine_helpers n σ σ' :
  helpers σ' = helpers σ → failed_combine n σ → failed_combine n σ'.
Proof. intros Hh (h & Hin & Hc & He). exists h. by rewrite Hh. Qed.

Lemma failed_combine_insert n i h h' σ σ' :
  helpers σ !! i = Some h → helpers σ' = <[i := h']> (helpers σ) →
  combine_worker h' = combine_worker h → (h_error h = true → h_error h' = true) →
  failed_combine n σ → failed_combine n σ'.
Proof.
  intros Hi Hh Hc He (h0 & Hin & Hc0 & He0).
  apply list_elem_of_lookup in Hin as [j Hj].
  destruct (decide (j = i)) as [->|Hne].
  - assert (h0 = h) as -> by congruence. exists h'. split; [|split; [congruence|auto]].
    rewrite Hh. eapply list_elem_of_lookup_2. apply list_lookup_insert_eq.
    by eapply lookup_lt_Some.
  - exists h0. split; [|done]. rewrite Hh. eapply list_elem_of_lookup_2.
    by rewrite list_lookup_insert_ne.
Qed.

Lemma failed_combine_fmap n g σ σ' :
  helpers σ' = g <$> helpers σ →
  (∀ h, combine_worker (g h) = combine_worker h) →
  (∀ h, h_error h = true → h_error (g h) = true) →
  failed_combine n σ → failed_combine n σ'.
Proof.
  intros Hh Hc He (h & Hin & Hn & Herr). exists (g h).
  split; [|split; [by rewrite Hc|auto]]. rewrite Hh. apply list_elem_of_fmap. by exists h.
Qed.

(** *** Threads that are started *)

Lemma thread_start_pool a σ t sl' :
  pool (thread_start a σ) !! t = Some sl' →
  ∃ sl, pool σ !! t = Some sl ∧
        (sl' = sl ∨ (sl' = with_status Running sl ∧ t_status sl ≠ Running ∧ t = a)).
Proof.
  unfold thread_start. destruct (isRunning a σ) eqn:Hr; [by eauto|].
  rewrite update_slot_lookup. case_decide as Heq; [subst t|by eauto].
  destruct (pool σ !! a) as [sl|] eqn:Hsl; [|done]. simpl. intros [= <-].
  exists sl. split; [done|]. right. split; [done|]. split; [|done].
  unfold isRunning in Hr. rewrite Hsl in Hr. by destruct (t_status sl).
Qed.

Lemma start_list_pool l σ t sl' :
  pool (foldl (fun σ t => thread_start t σ) σ l) !! t = Some sl' →
  ∃ sl, pool σ !! t = Some sl ∧
        (sl' = sl ∨ (sl' = with_status Running sl ∧ t_status sl ≠ Running ∧ t ∈ l)).
Proof.
  revert σ. induction l as [|a l IH]; intros σ; simpl; [by eauto|].
  intros (sl1 & H1 & Hrel)%IH.
  apply thread_start_pool in H1 as (sl & Hsl & Hrel1). exists sl. split; [done|].
  destruct Hrel as [->|(-> & Hst & Hin)], Hrel1 as [->|(-> & Hst1 & ->)].
  - by left.
  - right. split; [done|]. split; [done|]. apply list_elem_of_here.
  - right. split; [done|]. split; [done|]. by apply list_elem_of_further.
  - done.
Qed.

Lemma start_list_fields l σ :
  let σ' := foldl (fun σ t => thread_start t σ) σ l in
  length (pool σ') = length (pool σ) ∧
  threads σ' = threads σ ∧ workers σ' = workers σ ∧ helpers σ' = helpers σ ∧
  results σ' = results σ ∧ emitted σ' = emitted σ ∧ cancelled σ' = cancelled σ.
Proof.
  revert σ. induction l as [|a l IH]; intros σ; cbv zeta; [done|]. simpl.
  destruct (IH (thread_start a σ)) as (Hl & Ht & Hw & Hh & Hr & He & Hc).
  destruct (thread_start_fields a σ) as (Ht' & Hw' & Hh' & _).
  destruct (thread_start_emitted a σ) as (He' & Hr' & Hc').
  rewrite Hl, Ht, Hw, Hh, Hr, He, Hc, thread_start_length. done.
Qed.

(** [render] on a renderer with registered workers emits nothing. *)
Lemma render_registered σ :
  workers σ ≠ [] →
  render σ = foldl (fun σ t => thread_start t σ) (set_working true σ)
               (take (Z.to_nat (Z.min (maxProcesses σ) (Z.of_nat (length (threads σ)))))
                     (threads σ)).
Proof. intros Hw. unfold render. simpl. by destruct (workers σ). Qed.

Lemma admits_refl σ : admits σ σ.
Proof. split; try done; naive_solver. Qed.

Lemma admits_trans σ1 σ2 σ3 : admits σ1 σ2 → admits σ2 σ3 → admits σ1 σ3.
Proof.
  intros [Hp1 Hl1 Ht1 Hw1 Hr1 He1 Hc1 Hf1] [Hp2 Hl2 Ht2 Hw2 Hr2 He2 Hc2 Hf2].
  assert (Hq : ∀ t, t ∈ threads σ2 ∨ (∃ n, dict_get n (workers σ2) = Some t) →
               t ∈ threads σ1 ∨ ∃ n, dict_get n (workers σ1) = Some t).
  { intros t [Hin|Hin]; [by apply Ht1|]. right. by rewrite <- Hw1. }
  split; try congruence; [| |by auto].
  - intros t sl3 (sl2 & H2 & Hrel2)%Hp2. destruct (Hp1 _ _ H2) as (sl1 & H1 & Hrel1).
    exists sl1. split; [done|].
    destruct Hrel2 as [->|(-> & Hst & Hin)], Hrel1 as [->|(-> & Hst1 & Hin1)].
    + by left.
    + right. done.
    + right. split; [done|]. split; [done|]. by apply Hq.
    + done.
  - intros t Hin%Ht2. by apply Hq.
Qed.

Lemma admits_foldl {A} (f : state → A → state) (l : list A) σ :
  (∀ σ a, admits σ (f σ a)) → admits σ (foldl f σ l).
Proof.
  intros Hf. revert σ. induction l as [|a l IH]; intros σ; [apply admits_refl|].
  simpl. eapply admits_trans; [apply Hf|apply IH].
Qed.

Lemma start_worker_admits name σ : admits σ (start_worker name σ).
Proof.
  unfold start_worker. destruct (dict_get name (workers σ)) as [thread|] eqn:Hget;
    [|apply admits_refl].
  destruct (mem thread (threads σ)) eqn:Hmem; [apply admits_refl|]. cbv zeta.
  set (σ1 := set_threads (fun l => l ++ [thread]) σ).
  assert (H1 : admits σ σ1).
  { split; try done; try naive_solver.
    intros t [Hin|Heq%list_elem_of_singleton]%elem_of_app; [by left|subst; right; by eauto]. }
  destruct (working σ1); [done|].
  eapply admits_trans; [exact H1|].
  assert (Hw : workers σ1 ≠ []) by (simpl; by destruct (workers σ)).
  rewrite render_registered by done.
  set (l := take _ (threads σ1)).
  destruct (start_list_fields l (set_working true σ1)) as (Hl & Ht & Hw' & Hh & Hr & He & Hc).
  split; try done.
  - intros t sl' (sl & Hsl & Hrel)%start_list_pool. exists sl. split; [done|].
    destruct Hrel as [->|(-> & Hst & Hin)]; [by left|right].
    split; [done|]. split; [done|]. left. by apply subseteq_take in Hin.
  - intros t. rewrite Ht. by left.
  - intros n. by apply failed_combine_helpers.
Qed.

Lemma helper_worker_done_admits i n s σ : admits σ (helper_worker_done i n s σ).
Proof.
  rewrite helper_worker_done_unfold.
  destruct (helpers σ !! i) as [h|] eqn:Hi; [|apply admits_refl]. cbv zeta.
  set (σ1 := set_helpers _ σ).
  assert (H1 : admits σ σ1).
  { split; try done; try naive_solver.
    intros m. apply (failed_combine_insert m i h (done_update n s h)); try done.
    - apply done_update_combine.
    - intros He. apply done_update_error_iff. by left. }
  destruct (_ && _); [|done].
  eapply admits_trans; [exact H1|apply start_worker_admits].
Qed.

Lemma emit_worker_done_admits n s σ :
  admits (emit (WorkerDone n s) σ) (emit_worker_done n s σ).
Proof. unfold emit_worker_done. apply admits_foldl. intros. apply helper_worker_done_admits. Qed.

(** *** Combine jobs that are cancelled *)

Lemma with_quit_twice sl : with_quit (with_quit sl) = with_quit sl.
Proof. done. Qed.

Lemma revokes_refl σ : revokes σ σ.
Proof. split; try done; naive_solver. Qed.

Lemma revokes_trans σ1 σ2 σ3 : revokes σ1 σ2 → revokes σ2 σ3 → revokes σ1 σ3.
Proof.
  intros [Hp1 Hl1 Ht1 Hs1 Hw1 Hr1 He1 Hc1 Hf1] [Hp2 Hl2 Ht2 Hs2 Hw2 Hr2 He2 Hc2 Hf2].
  split; try congruence; [| |by auto| |by auto].
  - intros t sl3 (sl2 & H2 & Hrel2)%Hp2. destruct (Hp1 _ _ H2) as (sl1 & H1 & Hrel1).
    exists sl1. split; [done|].
    destruct Hrel2 as [->|(-> & Hf)], Hrel1 as [->|(-> & Hf')].
    + by left.
    + right. split; [done|]. by apply Hf2.
    + right. done.
    + right. done.
  - by auto.
  - intros n t [Hin|[Hf Hnot]]%Hw1.
    + by apply Hw2.
    + right. split; [by apply Hf2|]. intros Hin. by apply Hnot, Ht2.
Qed.

Lemma cancel_worker_revokes name σ :
  queue_inv σ → failed_combine name σ → revokes σ (cancel_worker name σ).
Proof.
  intros Hq Hfail. unfold cancel_worker.
  destruct (dict_get name (workers σ)) as [thread|] eqn:Hget; [|apply revokes_refl].
  cbv zeta.
  destruct (inv_workers _ Hq _ _ Hget) as (slt & Hslt & Hname).
  set (σ1 := thread_quit thread σ).
  set (σ2 := if mem thread (threads σ1) then set_threads (list_remove thread) σ1 else σ1).
  set (σ3 := if length (threads σ2) =? 0 then set_working false σ2 else σ2).
  assert (H3 : pool σ3 = pool σ1 ∧
               threads σ3 = (if mem thread (threads σ) then list_remove thread (threads σ)
                             else threads σ) ∧
               workers σ3 = workers σ ∧ helpers σ3 = helpers σ ∧ results σ3 = results σ ∧
               emitted σ3 = emitted σ ∧ cancelled σ3 = cancelled σ).
  { unfold σ3, σ2, σ1. simpl. destruct (mem thread (threads σ)); simpl;
      repeat match goal with |- context [if ?b then _ else _] => destruct b; simpl end; done. }
  clearbody σ3. destruct H3 as (Hp & Ht & Hw & Hh & Hr & He & Hc).
  assert (Hnot : thread ∉ threads σ3).
  { rewrite Ht. destruct (mem thread (threads σ)) eqn:Hm.
    - apply list_remove_not_elem, (inv_threads _ Hq).
    - by apply mem_not_elem. }
  assert (Hfail' : ∀ n, failed_combine n σ → failed_combine n (set_workers (dict_del name) σ3)).
  { intros n. by apply failed_combine_helpers. }
  split; simpl; try done.
  - intros t sl'. rewrite Hp. unfold σ1, thread_quit. rewrite update_slot_lookup.
    case_decide as Heq; [subst t|by eauto].
    rewrite Hslt. simpl. intros [= <-]. exists slt. split; [done|]. right.
    split; [done|]. rewrite Hname. by apply Hfail'.
  - rewrite Hp. unfold σ1, thread_quit. simpl. rewrite Hslt. by rewrite length_insert.
  - intros t. rewrite Ht. destruct (mem thread (threads σ)); [|done]. apply list_remove_elem.
  - intros n t. rewrite Hw. destruct (decide (name = n)) as [->|Hne].
    + by rewrite dict_del_get_eq by apply (inv_keys _ Hq).
    + by rewrite dict_del_get_ne.
  - intros n t Hn. rewrite Hw. destruct (decide (name = n)) as [->|Hne].
    + right. split; [by apply Hfail'|]. by replace t with thread by congruence.
    + left. by rewrite dict_del_get_ne.
Qed.

Lemma helper_worker_error_revokes i n e σ :
  sched_inv σ → revokes σ (helper_worker_error i n e σ).
Proof.
  intros Hinv. rewrite helper_worker_error_unfold.
  destruct (helpers σ !! i) as [h|] eqn:Hi; [|apply revokes_refl].
  destruct (bool_decide_reflect (n ∈ h_workers h)) as [Hn|Hn]; [|apply revokes_refl].
  set (σ1 := set_helpers (fun hs => <[i := with_error h]> hs) σ).
  assert (H1 : sched_inv σ1).
  { apply (sched_inv_set_helpers i h (with_error h) σ); [done|done|done|].
    intros [He _]. set_solver. }
  assert (Hfail : ∀ m, failed_combine m σ → failed_combine m σ1).
  { intros m. by apply (failed_combine_insert m i h (with_error h)). }
  assert (R1 : revokes σ σ1).
  { split; try done; naive_solver. }
  eapply revokes_trans; [exact R1|].
  apply cancel_worker_revokes; [apply (inv_queue _ H1)|].
  exists (with_error h). split; [|done]. simpl. eapply list_elem_of_lookup_2.
  apply list_lookup_insert_eq. by eapply lookup_lt_Some.
Qed.

Lemma emit_worker_error_revokes n e σ :
  sched_inv σ → release_inv σ →
  revokes (emit (WorkerError n e) σ) (emit_worker_error n e σ).
Proof.
  intros Hi Hr. unfold emit_worker_error.
  assert (Hi0 : sched_inv (emit (WorkerError n e) σ))
    by exact (sched_inv_core σ (emit (WorkerError n e) σ) eq_refl Hi).
  assert (Hr0 : release_inv (emit (WorkerError n e) σ))
    by exact (release_inv_core σ (emit (WorkerError n e) σ) eq_refl Hr).
  generalize (seq 0 (length (helpers (emit (WorkerError n e) σ)))).
  revert Hi0 Hr0. generalize (emit (WorkerError n e) σ). clear.
  intros σ Hi Hr l. revert σ Hi Hr. induction l as [|i l IH]; intros σ Hi Hr.
  - apply revokes_refl.
  - simpl. destruct (helper_worker_error_inv i n e σ Hi Hr) as [Hi1 Hr1].
    eapply revokes_trans; [by apply helper_worker_error_revokes|by apply IH].
Qed.

(** ** The accounts are kept *)

Lemma names_related (p q : list slot) :
  length q = length p →
  (∀ t sl', q !! t = Some sl' → ∃ sl, p !! t = Some sl ∧ w_name sl' = w_name sl) →
  w_name <$> q = w_name <$> p.
Proof.
  intros Hlen Hrel. apply list_eq. intros i. rewrite !list_lookup_fmap.
  destruct (q !! i) as [sl'|] eqn:Hq.
  - destruct (Hrel _ _ Hq) as (sl & -> & Hn). simpl. by rewrite Hn.
  - apply lookup_ge_None in Hq. rewrite Hlen in Hq. apply lookup_ge_None in Hq.
    by rewrite Hq.
Qed.

Lemma admits_names σ σ' : admits σ σ' → w_name <$> pool σ' = w_name <$> pool σ.
Proof.
  intros [Hp Hl _ _ _ _ _ _]. apply names_related; [done|].
  intros t sl' (sl & Hsl & [->|(-> & _)])%Hp; by exists sl.
Qed.

Lemma revokes_names σ σ' : revokes σ σ' → w_name <$> pool σ' = w_name <$> pool σ.
Proof.
  intros [Hp Hl _ _ _ _ _ _ _]. apply names_related; [done|].
  intros t sl' (sl & Hsl & [->|(-> & _)])%Hp; by exists sl.
Qed.

Lemma elem_of_done_signals n s log : (n, s) ∈ done_signals log ↔ WorkerDone n s ∈ log.
Proof.
  unfold done_signals. rewrite list_elem_of_omap. split.
  - intros ([] & Hin & Heq); simplify_eq. done.
  - intros Hin. by exists (WorkerDone n s).
Qed.

Lemma elem_of_finished_results r log : r ∈ finished_results log ↔ Finished r ∈ log.
Proof.
  unfold finished_results. rewrite list_elem_of_omap. split.
  - intros ([] & Hin & Heq); simplify_eq. done.
  - intros Hin. by exists (Finished r).
Qed.

Lemma ledger_books σ σ' : books σ = books σ' → ledger σ → ledger σ'.
Proof.
  intros Hb Hl. destruct σ, σ'. unfold books in Hb. simpl in Hb. simplify_eq.
  destruct Hl. split; done.
Qed.

Lemma ledger_admits σ σ' : ledger σ → admits σ σ' → ledger σ'.
Proof.
  intros [Hreg Hover Hcover Hkeys Hquit Hfin Hdone Honce Hsingle] Had.
  pose proof (admits_names _ _ Had) as Hnames.
  destruct Had as [Hp Hl Ht Hw Hr He Hc Hf].
  split; rewrite ?Hw, ?Hr, ?He, ?Hc, ?Hnames; try done.
  - intros t [Hin|Hin]%Ht; [by apply Hreg|done].
  - intros Hcan t sl' (sl & Hsl & Hrel)%Hp Hst.
    destruct Hrel as [->|(-> & _)]; [|done].
    destruct (Hover Hcan t sl Hsl Hst) as [Hnt Hnw]. split; [|done].
    intros [Hin|[n Hn]]%Ht; [done|]. by apply (Hnw n).
  - intros n Hn. destruct (Hcover n Hn) as [?|[?|?]]; auto.
  - intros t sl' (sl & Hsl & Hrel)%Hp Hq.
    assert (w_name sl' = w_name sl ∧ t_quit sl = true) as [-> Hq'].
    { by destruct Hrel as [->|(-> & _)]. }
    destruct (Hquit t sl Hsl Hq'); auto.
  - intros r Hin. destruct (Hfin r Hin) as [Ha Hb]. split; [done|].
    intros n Hn. destruct (Hb n Hn); auto.
  - intros n s Hin. destruct (Hdone n s Hin) as (Hres & t & sl & Hsl & Hn & Hd).
    split; [done|].
    destruct (lookup_lt_is_Some_2 (pool σ') t) as [sl' Hsl'].
    { rewrite Hl. by eapply lookup_lt_Some. }
    destruct (Hp _ _ Hsl') as (sl0 & Hsl0 & Hrel). simplify_eq.
    exists t, sl'. split; [done|]. by destruct Hrel as [->|(-> & _)].
Qed.

Lemma ledger_revokes σ σ' : ledger σ → revokes σ σ' → ledger σ'.
Proof.
  intros [Hreg Hover Hcover Hkeys Hquit Hfin Hdone Honce Hsingle] Hrv.
  pose proof (revokes_names _ _ Hrv) as Hnames.
  destruct Hrv as [Hp Hl Ht Hs Hw Hr He Hc Hf].
  split; rewrite ?Hr, ?He, ?Hc, ?Hnames; try done.
  - intros t Hin. destruct (Hreg t (Ht t Hin)) as [n Hn].
    destruct (Hw n t Hn) as [?|[_ ?]]; [by eauto|done].
  - intros Hcan t sl' (sl & Hsl & Hrel)%Hp Hst.
    assert (t_status sl = Done) as Hst' by (by destruct Hrel as [->|(-> & _)]).
    destruct (Hover Hcan t sl Hsl Hst') as [Hnt Hnw]. split.
    + intros Hin. by apply Hnt, Ht.
    + intros n Hn. by apply (Hnw n), Hs.
  - intros n Hn. destruct (Hcover n Hn) as [Hk|[?|?]]; auto.
    apply dict_get_is_Some in Hk as [t Hget].
    destruct (Hw n t Hget) as [Hget'|[? _]]; auto.
    left. by eapply dict_get_key.
  - intros t sl' (sl & Hsl & Hrel)%Hp Hq.
    destruct Hrel as [->|(-> & Hfail)]; [|by right].
    destruct (Hquit t sl Hsl Hq); auto.
  - intros r Hin. destruct (Hfin r Hin) as [Ha Hb]. split; [done|].
    intros n Hn. destruct (Hb n Hn); auto.
  - intros n s Hin. destruct (Hdone n s Hin) as (Hres & t & sl & Hsl & Hn & Hd).
    split; [done|].
    destruct (lookup_lt_is_Some_2 (pool σ') t) as [sl' Hsl'].
    { rewrite Hl. by eapply lookup_lt_Some. }
    destruct (Hp _ _ Hsl') as (sl0 & Hsl0 & Hrel). simplify_eq.
    exists t, sl'. split; [done|]. by destruct Hrel as [->|(-> & _)].
  - intros Hcan. destruct (Hsingle Hcan) as [Hle Hw0]. split; [done|].
    intros Hne. specialize (Hw0 Hne). apply dict_get_nil. intros k v Hk.
    apply Hs in Hk. by rewrite Hw0 in Hk.
Qed.

Lemma update_slot_length t f σ : length (pool (update_slot t f σ)) = length (pool σ).
Proof. simpl. destruct (pool σ !! t); [|done]. by rewrite length_insert. Qed.

Lemma update_slot_names t f σ :
  (∀ sl, w_name (f sl) = w_name sl) →
  w_name <$> pool (update_slot t f σ) = w_name <$> pool σ.
Proof.
  intros Hn. apply names_related; [apply update_slot_length|].
  intros t' sl'. rewrite update_slot_lookup. case_decide; [subst|by eauto].
  destruct (pool σ !! t') as [sl|]; [|done]. simpl. intros [= <-]. by exists sl.
Qed.

(** A thread changes, but not its name. *)
Lemma ledger_update_gen t f σ :
  (∀ sl, w_name (f sl) = w_name sl) →
  (∀ sl, w_done sl = true → w_done (f sl) = true) →
  (cancelled σ = true ∨ ∀ sl, t_status (f sl) = Done → t_status sl = Done) →
  (∀ sl, pool σ !! t = Some sl → t_quit (f sl) = true →
         is_Some (results σ !! w_name sl) ∨ failed_combine (w_name sl) σ) →
  ledger σ → ledger (update_slot t f σ).
Proof.
  intros Hname Hd Hst Hq [Hreg Hover Hcover Hkeys Hquit Hfin Hdone Honce Hsingle].
  assert (Hlook : ∀ t' sl', pool (update_slot t f σ) !! t' = Some sl' →
            ∃ sl, pool σ !! t' = Some sl ∧ (sl' = sl ∨ (t' = t ∧ sl' = f sl))).
  { intros t' sl'. rewrite update_slot_lookup. case_decide; [subst|by eauto].
    destruct (pool σ !! t') as [sl|]; [|done]. simpl. intros [= <-]. exists sl. auto. }
  pose proof (update_slot_names t f σ Hname) as Hnames.
  split; rewrite ?Hnames; try done.
  - intros Hcan t' sl' (sl & Hsl & Hrel)%Hlook Hs.
    apply (Hover Hcan t' sl Hsl). destruct Hrel as [->|[-> ->]]; [done|].
    destruct Hst as [Hst|Hst]; [|by apply Hst]. simpl in Hcan. congruence.
  - intros t' sl' (sl & Hsl & Hrel)%Hlook Hq'.
    destruct Hrel as [->|[-> ->]]; [by apply (Hquit t' sl)|].
    rewrite Hname. by apply Hq.
  - intros n s Hin. destruct (Hdone n s Hin) as (Hres & t' & sl & Hsl & Hn & Hd').
    split; [done|]. destruct (decide (t = t')) as [->|Hne].
    + exists t', (f sl). rewrite update_slot_lookup, decide_True, Hsl by done.
      split; [done|]. split; [by rewrite Hname|by apply Hd].
    + exists t', sl. by rewrite update_slot_lookup, decide_False.
Qed.

Lemma ledger_update t f σ :
  (∀ sl, w_name (f sl) = w_name sl) →
  (∀ sl, t_quit (f sl) = t_quit sl) →
  (∀ sl, w_done sl = true → w_done (f sl) = true) →
  (cancelled σ = true ∨ ∀ sl, t_status (f sl) = Done → t_status sl = Done) →
  ledger σ → ledger (update_slot t f σ).
Proof.
  intros Hname Hq Hd Hst Hl. apply ledger_update_gen; try done.
  intros sl Hsl. rewrite Hq. intros Hq'. by apply (lg_quit _ Hl t sl).
Qed.

Lemma done_signals_snoc log e :
  done_signals (log ++ [e]) =
    done_signals log ++ match e with WorkerDone n s => [(n, s)] | _ => [] end.
Proof. unfold done_signals. rewrite omap_app. by destruct e. Qed.

Lemma finished_results_snoc log e :
  finished_results (log ++ [e]) =
    finished_results log ++ match e with Finished r => [r] | _ => [] end.
Proof. unfold finished_results. rewrite omap_app. by destruct e. Qed.

(** A signal that is neither a completion nor the end of the batch. *)
Lemma ledger_emit_other e σ : ¬ is_finished e → ¬ is_done e → ledger σ → ledger (emit e σ).
Proof.
  intros Hnf Hnd [Hreg Hover Hcover Hkeys Hquit Hfin Hdone Honce Hsingle].
  split; try done; simpl.
  - intros r [Hin|Heq%list_elem_of_singleton]%elem_of_app; [by apply Hfin|].
    subst. by destruct Hnf.
  - intros n s [Hin|Heq%list_elem_of_singleton]%elem_of_app; [by apply Hdone|].
    subst. by destruct Hnd.
  - rewrite done_signals_snoc. destruct e; rewrite ?app_nil_r; try done; by destruct Hnd.
  - rewrite finished_results_snoc. destruct e; rewrite ?app_nil_r; try done; by destruct Hnf.
Qed.

(** The result of a job that has not reported before is recorded. *)
Lemma ledger_record name s σ :
  name ∈ w_name <$> pool σ → (∀ s', WorkerDone name s' ∉ emitted σ) →
  ledger σ → ledger (set_results (fun r => <[name := s]> r) σ).
Proof.
  intros Hname Hnew [Hreg Hover Hcover Hkeys Hquit Hfin Hdone Honce Hsingle].
  assert (Hmono : ∀ n, is_Some (results σ !! n) → is_Some (<[name := s]> (results σ) !! n)).
  { intros n Hn. destruct (decide (name = n)) as [->|Hne].
    - by rewrite lookup_insert_eq.
    - by rewrite lookup_insert_ne. }
  split; try done; simpl.
  - intros n Hn. destruct (Hcover n Hn) as [?|[?|?]]; auto.
  - intros n. destruct (decide (name = n)) as [->|Hne]; [done|].
    rewrite lookup_insert_ne by done. apply Hkeys.
  - intros t sl Hsl Hq. destruct (Hquit t sl Hsl Hq); auto.
  - intros n s' Hin. destruct (Hdone n s' Hin) as [Hres Hsl]. split; [|done].
    rewrite lookup_insert_ne; [done|]. intros ->. by apply (Hnew s').
Qed.

(** The completion of a job is signalled, once. *)
Lemma ledger_emit_done name s σ :
  results σ !! name = Some s →
  (∃ t sl, pool σ !! t = Some sl ∧ w_name sl = name ∧ w_done sl = true) →
  (∀ s', WorkerDone name s' ∉ emitted σ) →
  ledger σ → ledger (emit (WorkerDone name s) σ).
Proof.
  intros Hres Hslot Hnew [Hreg Hover Hcover Hkeys Hquit Hfin Hdone Honce Hsingle].
  split; try done; simpl.
  - intros r [Hin|Heq%list_elem_of_singleton]%elem_of_app; [by apply Hfin|done].
  - intros n s' [Hin|Heq%list_elem_of_singleton]%elem_of_app; [by apply Hdone|].
    by simplify_eq.
  - rewrite done_signals_snoc, fmap_app. apply NoDup_app. split; [done|].
    split; [|apply NoDup_singleton].
    intros n Hn Heq%list_elem_of_singleton. simpl in Heq. subst n.
    apply list_elem_of_fmap in Hn as ([n s'] & Heq & Hin). simpl in Heq. subst n.
    apply elem_of_done_signals in Hin. by apply (Hnew s').
  - by rewrite finished_results_snoc, app_nil_r.
Qed.

Lemma ledger_cancelled σ : ledger σ → ledger (set_cancelled true σ).
Proof. intros [Hreg Hover Hcover Hkeys Hquit Hfin Hdone Honce Hsingle]. split; done. Qed.

Lemma ledger_mark σ w :
  w.1 ∈ w_name <$> pool σ → ledger σ → ledger (mark_unfinished σ w).
Proof.
  intros Hname Hl. unfold mark_unfinished.
  destruct (results σ !! w.1) eqn:Hw; [done|].
  destruct Hl as [Hreg Hover Hcover Hkeys Hquit Hfin Hdone Honce Hsingle].
  assert (Hmono : ∀ n, is_Some (results σ !! n) → is_Some (<[w.1 := false]> (results σ) !! n)).
  { intros n Hn. destruct (decide (w.1 = n)) as [->|Hne].
    - by rewrite lookup_insert_eq.
    - by rewrite lookup_insert_ne. }
  split; try done; simpl.
  - intros n Hn. destruct (Hcover n Hn) as [?|[?|?]]; auto.
  - intros n. destruct (decide (w.1 = n)) as [<-|Hne]; [done|].
    rewrite lookup_insert_ne by done. apply Hkeys.
  - intros t sl Hsl Hq. destruct (Hquit t sl Hsl Hq); auto.
  - intros n s' Hin. destruct (Hdone n s' Hin) as [Hres Hsl]. split; [|done].
    rewrite lookup_insert_ne; [done|]. intros <-. congruence.
Qed.

(** The end of the batch is signalled with results that cover the jobs. *)
Lemma ledger_finish σ :
  (∀ n, n ∈ w_name <$> pool σ → is_Some (results σ !! n) ∨ failed_combine n σ) →
  (cancelled σ = true ∨ (finished_results (emitted σ) = [] ∧ workers σ = [])) →
  ledger σ → ledger (emit (Finished (results σ)) σ).
Proof.
  intros Hall Hend [Hreg Hover Hcover Hkeys Hquit Hfin Hdone Honce Hsingle].
  split; try done; simpl.
  - intros r [Hin|Heq%list_elem_of_singleton]%elem_of_app; [by apply Hfin|].
    by simplify_eq.
  - intros n s' [Hin|Heq%list_elem_of_singleton]%elem_of_app; [by apply Hdone|done].
  - by rewrite done_signals_snoc, app_nil_r.
  - intros Hcan. destruct Hend as [?|[He Hw]]; [congruence|].
    rewrite finished_results_snoc, He. simpl. split; [lia|done].
Qed.

(** ** The accounts along a batch *)

Lemma dict_get_zip (names : list string) k t n :
  NoDup names → names !! t = Some n →
  dict_get n (zip names (seq k (length names))) = Some (k + t).
Proof.
  revert k t. induction names as [|a l IH]; intros k t Hnd Ht; [done|].
  apply NoDup_cons in Hnd as [Ha Hnd]. simpl. destruct t as [|t]; simpl in Ht.
  - injection Ht as ->. by rewrite String.eqb_refl, Nat.add_0_r.
  - assert (a ≠ n) as Hne%String.eqb_neq.
    { intros ->. apply Ha. by eapply list_elem_of_lookup_2. }
    rewrite Hne, (IH (S k) t) by done. f_equal. lia.
Qed.

Lemma del_thread_gone t (d : list (string * nat)) n :
  NoDup d.*1 →
  (∀ n1 n2, dict_get n1 d = Some t → dict_get n2 d = Some t → n1 = n2) →
  dict_get n (del_thread t d) ≠ Some t.
Proof.
  induction d as [|[k v] d IH]; intros Hnd Huniq; [done|].
  simpl in Hnd. apply NoDup_cons in Hnd as [Hk Hnd]. simpl.
  assert (Hd : ∀ m, m ∈ d.*1 → dict_get m ((k, v) :: d) = dict_get m d).
  { intros m Hm. simpl. destruct (String.eqb_spec k m) as [->|_]; done. }
  destruct (Nat.eqb_spec v t) as [->|Hv].
  - intros Hn. pose proof (dict_get_key _ _ _ Hn) as Hin.
    assert (n = k) as ->; [|done].
    apply Huniq; [by rewrite Hd|]. simpl. by rewrite String.eqb_refl.
  - simpl. destruct (String.eqb_spec k n) as [->|Hne]; [congruence|].
    apply IH; [done|]. intros n1 n2 H1 H2.
    apply Huniq; rewrite Hd; try done; by eapply dict_get_key.
Qed.

Lemma worker_not_reported σ t sl s' :
  queue_inv σ → ledger σ → pool σ !! t = Some sl → w_done sl = false →
  WorkerDone (w_name sl) s' ∉ emitted σ.
Proof.
  intros Hq Hl Hsl Hd Hin.
  destruct (lg_done _ Hl _ _ Hin) as (_ & t' & sl' & Hsl' & Hn & Hd').
  assert (t' = t) as -> by (by eapply (names_injective σ); [apply (inv_names _ Hq)|..]).
  congruence.
Qed.

Lemma slot_name_elem σ t sl : pool σ !! t = Some sl → w_name sl ∈ w_name <$> pool σ.
Proof. intros Hsl. apply list_elem_of_fmap. exists sl. split; [done|]. by eapply list_elem_of_lookup_2. Qed.

Lemma ledger_thread_start t σ : ledger σ → ledger (thread_start t σ).
Proof.
  intros Hl. unfold thread_start. destruct (isRunning t σ); [done|].
  apply ledger_update; try done. by right.
Qed.

Lemma ledger_start_list l σ : ledger σ → ledger (foldl (fun σ t => thread_start t σ) σ l).
Proof.
  revert σ. induction l as [|t l IH]; intros σ Hl; [done|]. simpl.
  by apply IH, ledger_thread_start.
Qed.

Lemma ledger_render σ :
  (workers σ = [] → cancelled σ = true ∨ finished_results (emitted σ) = []) →
  ledger σ → ledger (render σ).
Proof.
  intros Hend Hl. unfold render. cbv zeta. apply ledger_start_list.
  assert (H1 : ledger (set_working true σ)) by (by apply (ledger_books σ)).
  change (workers (set_working true σ)) with (workers σ).
  change (results (set_working true σ)) with (results σ).
  destruct (length (workers σ) =? 0) eqn:Hw; [|done].
  apply length_zero_nil in Hw.
  apply (ledger_books (emit (Finished (results σ)) σ)); [done|].
  apply ledger_finish; [| |done].
  - intros n Hn. destruct (lg_cover _ Hl n Hn) as [Hk|[?|?]]; auto.
    rewrite Hw in Hk. by apply not_elem_of_nil in Hk.
  - destruct (Hend Hw); auto.
Qed.

Lemma ledger_setup maxp batch : unique_jobs batch = true → ledger (setup maxp batch).
Proof.
  intros Hu. pose proof (bool_decide_eq_true_1 _ Hu) as Hnd.
  destruct (pristine_setup maxp batch) as ([Hsl Hthr Hq Hkeys Hidle] & Hn & Hh).
  pose proof (registry_foldl batch (init maxp) eq_refl Hnd) as Hreg. cbv zeta in Hreg.
  fold (setup maxp batch) in Hreg.
  assert (He : results (setup maxp batch) = ∅ ∧ emitted (setup maxp batch) = [])
    by (by rewrite Hidle).
  destruct He as [Hres Hem].
  rewrite Forall_lookup in Hsl.
  split; rewrite ?Hem, ?Hres; try done.
  - intros t Ht. apply Hthr in Ht.
    destruct (lookup_lt_is_Some_2 (pool (setup maxp batch)) t Ht) as [sl Hslt].
    exists (w_name sl). rewrite Hreg, Hn.
    assert (length (pool (setup maxp batch)) = length (jobs batch)) as ->
      by (by rewrite <- Hn, length_fmap).
    rewrite (dict_get_zip (jobs batch) 0 t (w_name sl)); [done|done|].
    by rewrite <- Hn, list_lookup_fmap, Hslt.
  - intros _ t sl Ht Hst. destruct (Hsl _ _ Ht) as (Hns & _). congruence.
  - intros n Hin. left. by apply Hkeys.
  - intros n [b Hb]. by rewrite lookup_empty in Hb.
  - intros t sl Ht Hquit. destruct (Hsl _ _ Ht) as (_ & Hnq & _). congruence.
  - intros r Hin. by apply not_elem_of_nil in Hin.
  - intros n s Hin. by apply not_elem_of_nil in Hin.
  - constructor.
  - intros _. split; [simpl; lia|done].
Qed.

Lemma ledger_start maxp batch : unique_jobs batch = true → ledger (start maxp batch).
Proof.
  intros Hu. apply ledger_render; [|by apply ledger_setup].
  intros _. right.
  destruct (pristine_setup maxp batch) as ([_ _ _ _ Hidle] & _). by rewrite Hidle.
Qed.

(** *** A job reports its completion *)

Lemma ledger_worker_finished t s σ sl :
  pool σ !! t = Some sl → w_done sl = true →
  (∀ s', WorkerDone (w_name sl) s' ∉ emitted σ) →
  ledger σ → ledger (worker_finished t s σ).
Proof.
  intros Hsl Hd Hnew Hl. unfold worker_finished. rewrite Hsl. cbv zeta.
  set (σ3 := set_results _ σ).
  assert (H3 : ledger σ3).
  { apply ledger_record; [by eapply slot_name_elem|done|done]. }
  destruct (cancelled σ3); [done|].
  assert (H4 : ledger (emit (WorkerDone (w_name sl) s) σ3)).
  { apply ledger_emit_done; [|by exists t, sl|done|done]. simpl. apply lookup_insert_eq. }
  pose proof (emit_worker_done_admits (w_name sl) s σ3) as Had.
  pose proof (ledger_admits _ _ H4 Had) as H5.
  unfold thread_quit. apply ledger_update_gen; try done; [by right|].
  intros sl5 Hsl5 _. left.
  destruct (ad_pool _ _ Had _ _ Hsl5) as (sl0 & Hsl0 & Hrel). simpl in Hsl0.
  rewrite Hsl in Hsl0. injection Hsl0 as <-.
  rewrite (ad_results _ _ Had). simpl.
  assert (w_name sl5 = w_name sl) as -> by (by destruct Hrel as [->|(-> & _)]).
  by rewrite lookup_insert_eq.
Qed.

(** *** A thread finishes *)

Lemma ledger_unregister t σ sl :
  queue_inv σ → pool σ !! t = Some sl → t_quit sl = true → t_status sl = Running →
  cancelled σ = false →
  ledger σ →
  let σ' := set_workers (del_thread t)
              (set_threads (fun l => if mem t l then list_remove t l else l) σ) in
  ledger σ' ∧ (t ∉ threads σ') ∧ (∀ n, dict_get n (workers σ') ≠ Some t) ∧
  finished_results (emitted σ') = [].
Proof.
  intros Hq Hsl Hquit Hrun Hcan [Hreg Hover Hcover Hkeys Hqt Hfin Hdone Honce Hsingle].
  cbv zeta.
  assert (Hthr : ∀ t', t' ∈ (if mem t (threads σ) then list_remove t (threads σ) else threads σ) →
                 t' ∈ threads σ ∧ t' ≠ t).
  { intros t'. destruct (mem t (threads σ)) eqn:Hm.
    - intros Hin. split; [by eapply list_remove_elem|]. intros ->.
      by apply (list_remove_not_elem t (threads σ) (inv_threads _ Hq)).
    - apply mem_not_elem in Hm. intros Hin. split; [done|]. by intros ->. }
  assert (Huniq : ∀ n1 n2, dict_get n1 (workers σ) = Some t → dict_get n2 (workers σ) = Some t →
                  n1 = n2).
  { intros n1 n2 H1 H2.
    destruct (inv_workers _ Hq _ _ H1) as (s1 & Hs1 & <-).
    destruct (inv_workers _ Hq _ _ H2) as (s2 & Hs2 & <-). congruence. }
  assert (Hgone : ∀ n, dict_get n (del_thread t (workers σ)) ≠ Some t).
  { intros n. apply del_thread_gone; [apply (inv_keys _ Hq)|done]. }
  assert (Hnone : finished_results (emitted σ) = []).
  { destruct (Hsingle Hcan) as [_ Hw].
    destruct (finished_results (emitted σ)) as [|r rs] eqn:Hf; [done|].
    assert (isRunning t σ = true) as Hr by (unfold isRunning; by rewrite Hsl, Hrun).
    destruct (Hreg t (inv_running _ Hq t Hr)) as [n Hn].
    rewrite Hw in Hn; done. }
  split; [|split; [|split]]; try done.
  - split; simpl; try done.
    + intros t' [Hin Hne]%Hthr. destruct (Hreg t' Hin) as [n Hn]. exists n.
      by apply del_thread_get_ne.
    + intros _ t' sl' Hsl' Hst. destruct (Hover Hcan t' sl' Hsl' Hst) as [Hnt Hnw].
      split.
      * intros [Hin _]%Hthr. done.
      * intros n Hn. apply (Hnw n). eapply del_thread_get; [apply (inv_keys _ Hq)|done].
    + intros n Hn. destruct (Hcover n Hn) as [Hk|[?|?]]; auto.
      apply dict_get_is_Some in Hk as [t0 Hget].
      destruct (decide (t0 = t)) as [->|Hne].
      * destruct (inv_workers _ Hq _ _ Hget) as (sl0 & Hsl0 & <-).
        assert (sl0 = sl) as -> by congruence.
        destruct (Hqt t sl Hsl Hquit); auto.
      * left. eapply dict_get_key. by apply del_thread_get_ne.
    + intros _. split; [by destruct (Hsingle Hcan)|]. by rewrite Hnone.
  - simpl. intros [_ Hne]%Hthr. done.
Qed.

Lemma ledger_retire t σ :
  t ∉ threads σ → (∀ n, dict_get n (workers σ) ≠ Some t) →
  ledger σ → ledger (update_slot t (with_status Done) σ).
Proof.
  intros Hnt Hnw Hl.
  pose proof Hl as [Hreg Hover Hcover Hkeys Hquit Hfin Hdone Honce Hsingle].
  pose proof (update_slot_names t (with_status Done) σ (fun _ => eq_refl)) as Hnames.
  split; rewrite ?Hnames; try done.
  - intros Hcan t' sl'. rewrite update_slot_lookup. case_decide; [by subst|].
    by apply Hover.
  - intros t' sl'. rewrite update_slot_lookup. case_decide; [subst|by apply Hquit].
    destruct (pool σ !! t') as [sl|] eqn:Hsl; [|done]. simpl. intros [= <-].
    by apply (Hquit t' sl).
  - intros n s Hin. destruct (Hdone n s Hin) as (Hres & t' & sl & Hsl & Hn & Hd).
    split; [done|]. destruct (decide (t = t')) as [->|Hne].
    + exists t', (with_status Done sl). by rewrite update_slot_lookup, decide_True, Hsl.
    + exists t', sl. by rewrite update_slot_lookup, decide_False.
Qed.

Lemma quitting_slot t σ :
  quitting t σ = true →
  ∃ sl, pool σ !! t = Some sl ∧ t_status sl = Running ∧ t_quit sl = true.
Proof.
  unfold quitting. destruct (pool σ !! t) as [sl|]; [|done].
  destruct (t_status sl) eqn:Hs; try done. by exists sl.
Qed.

Lemma ledger_thread_fin t σ :
  queue_inv σ → ledger σ → quitting t σ = true →
  ledger (thread_finished t (update_slot t (with_status Done) σ)).
Proof.
  intros Hq Hl (sl & Hsl & Hrun & Hquit)%quitting_slot.
  set (σ1 := update_slot t (with_status Done) σ).
  unfold thread_finished.
  destruct (cancelled σ1) eqn:Hcan.
  { apply ledger_update; try done. by left. }
  change (cancelled σ1) with (cancelled σ) in Hcan. cbv zeta.
  destruct (ledger_unregister t σ sl Hq Hsl Hquit Hrun Hcan Hl) as (Hl' & Hnt & Hnw & Hnone).
  set (σr := set_workers (del_thread t) (set_threads _ σ)) in *.
  pose proof (ledger_retire t σr Hnt Hnw Hl') as Hl1.
  set (σ2 := if mem t (threads σ1) then _ else _).
  set (σ3 := set_workers (del_thread t) σ2).
  set (σ4 := if length (threads σ3) =? 0 then _ else _).
  set (σ5 := if length (workers σ4) =? 0 then _ else _).
  assert (H5 : ledger σ5).
  { assert (Hb4 : books σ4 = books (update_slot t (with_status Done) σr)).
    { unfold σ4, σ3, σ2, σr, σ1, books. simpl.
      destruct (mem t (threads σ)); simpl;
        repeat match goal with |- context [if ?b then _ else _] => destruct b; simpl end; done. }
    assert (H4 : ledger σ4) by (by apply (ledger_books _ _ (eq_sym Hb4))).
    unfold σ5. destruct (length (workers σ4) =? 0) eqn:Hw; [|done].
    apply length_zero_nil in Hw. apply ledger_finish; [| |done].
    - intros n Hn. destruct (lg_cover _ H4 n Hn) as [Hk|[?|?]]; auto.
      rewrite Hw in Hk. by apply not_elem_of_nil in Hk.
    - right. split; [|done].
      assert (emitted σ4 = emitted σr) as -> by (by injection Hb4). done. }
  clearbody σ5. destruct (first_unstarted σ5) as [t2|]; [|done].
  apply (ledger_books (thread_start t2 σ5)); [done|]. by apply ledger_thread_start.
Qed.

(** *** The batch is cancelled *)

Lemma mark_all_fields l σ :
  pool (foldl mark_unfinished σ l) = pool σ ∧ workers (foldl mark_unfinished σ l) = workers σ ∧
  cancelled (foldl mark_unfinished σ l) = cancelled σ ∧
  helpers (foldl mark_unfinished σ l) = helpers σ.
Proof.
  revert σ. induction l as [|w l IH]; intros σ; [done|]. simpl.
  destruct (IH (mark_unfinished σ w)) as (-> & -> & -> & ->).
  unfold mark_unfinished. by destruct (results σ !! w.1).
Qed.

Lemma ledger_mark_all l σ :
  (∀ w, w ∈ l → w.1 ∈ w_name <$> pool σ) → ledger σ → ledger (foldl mark_unfinished σ l).
Proof.
  revert σ. induction l as [|w l IH]; intros σ Hin Hl; [done|]. simpl.
  apply IH.
  - intros w' Hw'. assert (pool (mark_unfinished σ w) = pool σ) as ->.
    { unfold mark_unfinished. by destruct (results σ !! w.1). }
    apply Hin. by right.
  - apply ledger_mark; [|done]. apply Hin. by left.
Qed.

Lemma ledger_clean_up σ : ledger σ → ledger (clean_up σ).
Proof.
  unfold clean_up. generalize (PROCESSES σ). intros l. revert σ.
  induction l as [|p l IH]; intros σ Hl; [done|]. simpl.
  apply IH. apply ledger_update; try done. by right.
Qed.

Lemma ledger_cancel σ : queue_inv σ → ledger σ → ledger (cancel σ).
Proof.
  intros Hq Hl. unfold cancel. cbv zeta.
  set (σ2 := set_cancelled true (clean_up σ)).
  assert (H2 : ledger σ2) by (by apply ledger_cancelled, ledger_clean_up).
  assert (Hw2 : workers σ2 = workers σ) by (simpl; by destruct (clean_up_fields σ)).
  assert (Hn2 : w_name <$> pool σ2 = w_name <$> pool σ).
  { unfold σ2, clean_up. simpl. generalize (PROCESSES σ). intros l. generalize σ.
    induction l as [|p l IH]; intros σ0; [done|]. simpl.
    rewrite IH. by apply update_slot_names. }
  assert (Hc2 : cancelled σ2 = true) by done.
  clearbody σ2.
  destruct (mark_all_fields (workers σ2) σ2) as (Hp3 & Hw3 & Hc3 & Hh3).
  assert (H3 : ledger (foldl mark_unfinished σ2 (workers σ2))).
  { apply ledger_mark_all; [|done]. intros [n t] Hin. simpl. rewrite Hn2.
    assert (n ∈ (workers σ).*1) as [t' Hget]%dict_get_is_Some.
    { rewrite <- Hw2. apply list_elem_of_fmap. by exists (n, t). }
    destruct (inv_workers _ Hq _ _ Hget) as (sl & Hsl & <-). by eapply slot_name_elem. }
  apply ledger_finish; [| |done].
  - intros n Hn. destruct (lg_cover _ H3 n Hn) as [Hk|[?|?]]; auto.
    left. rewrite Hw3 in Hk. apply mark_unfinished_results. by left.
  - left. by rewrite Hc3.
Qed.

(** *** One input *)

Lemma ledger_step σ i σ' :
  sched_inv σ → release_inv σ → ledger σ → step σ i = Some σ' → ledger σ'.
Proof.
  intros Hi Hr Hl. pose proof (inv_queue _ Hi) as Hq.
  destruct i as [t|t line|t msg|t success|t|]; simpl.
  - destruct (_ && _); [|done]. intros [= <-].
    apply (ledger_books (update_slot t (with_process Live) σ)); [done|].
    apply ledger_update; try done. by right.
  - destruct (_ && _); [|done]. unfold _worker_progress.
    destruct (pool σ !! t) as [sl|]; [|by intros [= <-]].
    destruct (progress_percent _ _) as [[pct|]|]; simpl; intros [= <-]; [|done|].
    + apply ledger_emit_other; auto.
    + by apply (ledger_books σ).
  - destruct (active t σ); [|done]. destruct (pool σ !! t) as [sl|]; [|done].
    intros [= <-].
    apply (ledger_revokes (emit (WorkerError (w_name sl) msg) σ)).
    + apply ledger_emit_other; auto.
    + by apply emit_worker_error_revokes.
  - destruct (active t σ && _) eqn:Hact; [|done]. intros [= <-].
    apply andb_true_iff in Hact as [Hact _].
    apply active_slot in Hact as (sl & Hsl & Hd & Hrun).
    pose proof (fun s' => worker_not_reported σ t sl s' Hq Hl Hsl Hd) as Hnew.
    set (σ1 := if has_process t σ then _ else σ).
    assert (H1 : ledger σ1 ∧ emitted σ1 = emitted σ ∧
                 ∃ sl1, pool σ1 !! t = Some sl1 ∧ w_name sl1 = w_name sl).
    { unfold σ1. destruct (has_process t σ); [|by eauto].
      split; [|split].
      - apply (ledger_books (update_slot t (with_process Exited) σ)); [done|].
        apply ledger_update; try done. by right.
      - done.
      - exists (with_process Exited sl). split; [|done]. simpl. rewrite Hsl.
        apply list_lookup_insert_eq. by eapply lookup_lt_Some. }
    clearbody σ1. destruct H1 as (H1 & He1 & sl1 & Hsl1 & Hn1).
    apply (ledger_worker_finished t success _ (with_done sl1)).
    + simpl. rewrite Hsl1. apply list_lookup_insert_eq. by eapply lookup_lt_Some.
    + done.
    + intros s'. simpl. rewrite He1, Hn1. apply Hnew.
    + apply ledger_update; try done. by right.
  - destruct (quitting t σ) eqn:Hquit; [|done]. intros [= <-]. by apply ledger_thread_fin.
  - intros [= <-]. by apply ledger_cancel.
Qed.

Lemma step_names σ i σ' : step σ i = Some σ' → w_name <$> pool σ' = w_name <$> pool σ.
Proof.
  destruct i as [t|t line|t msg|t success|t|]; simpl.
  - destruct (_ && _); [|done]. intros [= <-]. by apply (update_slot_names t _ σ).
  - destruct (_ && _); [|done].
    destruct (_worker_progress t line σ) as [σ1|] eqn:Hp; [|done]. intros [= <-].
    apply worker_progress_core in Hp. unfold core in Hp. by injection Hp as _ -> _ _ _ _.
  - destruct (active t σ); [|done]. destruct (pool σ !! t) as [sl|]; [|done].
    intros [= <-]. eapply frame_names, emit_worker_error_frame.
  - destruct (_ && _); [|done]. intros [= <-].
    set (σ1 := if has_process t σ then _ else σ).
    assert (H1 : w_name <$> pool σ1 = w_name <$> pool σ).
    { unfold σ1. destruct (has_process t σ); [|done]. by apply (update_slot_names t _ σ). }
    clearbody σ1. rewrite <- H1, <- (update_slot_names t with_done σ1) by done.
    generalize (update_slot t with_done σ1). intros σ2.
    unfold worker_finished. destruct (pool σ2 !! t) as [sl|]; [|done]. cbv zeta.
    set (σ3 := set_results _ σ2). change (pool σ2) with (pool σ3).
    destruct (cancelled σ3); [done|].
    unfold thread_quit. rewrite update_slot_names by done.
    eapply frame_names, emit_worker_done_frame.
  - destruct (quitting t σ); [|done]. intros [= <-].
    rewrite (pool_names _ _ (quiet_pool _ _ (quiet_thread_finished t _))).
    by apply update_slot_names.
  - intros [= <-]. by rewrite (pool_names _ _ (quiet_pool _ _ (quiet_cancel σ))).
Qed.

(** What holds of every state a batch reaches. *)
Lemma reach maxp batch ins σ :
  (0 ≤ maxp)%Z → unique_jobs batch = true → steps (start maxp batch) ins = Some σ →
  sched_inv σ ∧ release_inv σ ∧ ledger σ ∧ w_name <$> pool σ = jobs batch.
Proof.
  intros Hmax Hu.
  destruct (start_inv maxp batch Hmax Hu) as (Hi & Hr & _).
  pose proof (ledger_start maxp batch Hu) as Hl.
  assert (Hn : w_name <$> pool (start maxp batch) = jobs batch).
  { destruct (pristine_setup maxp batch) as (_ & <- & _).
    apply (pool_names _ _ (quiet_pool _ _ (quiet_render _))). }
  revert Hi Hr Hl Hn. generalize (start maxp batch). intros σ0. revert σ0.
  induction ins as [|i ins IH]; intros σ0 Hi Hr Hl Hn; simpl.
  - by intros [= <-].
  - destruct (step σ0 i) as [σ1|] eqn:Hs; [|done].
    destruct (step_inv σ0 i σ1 Hi Hr Hs) as [Hi1 Hr1].
    apply IH; [done|done|exact (ledger_step σ0 i σ1 Hi Hr Hl Hs)|].
    by rewrite (step_names _ _ _ Hs).
Qed.

(** ** What a batch reaches *)

Lemma step_helpers σ i σ' :
  step σ i = Some σ' →
  ∃ g, helpers σ' = g <$> helpers σ ∧
       ∀ h, album (g h) = album h ∧ combine_worker (g h) = combine_worker h ∧
            h_workers (g h) ⊆ h_workers h ∧ (h_error h = true → h_error (g h) = true).
Proof.
  assert (Hid : ∀ σ0 σ1, helpers σ1 = helpers σ0 →
            ∃ g, helpers σ1 = g <$> helpers σ0 ∧
                 ∀ h, album (g h) = album h ∧ combine_worker (g h) = combine_worker h ∧
                      h_workers (g h) ⊆ h_workers h ∧ (h_error h = true → h_error (g h) = true)).
  { intros σ0 σ1 ->. exists id. by rewrite list_fmap_id. }
  destruct i as [t|t line|t msg|t success|t|]; simpl.
  - destruct (_ && _); [|done]. intros [= <-]. by apply Hid.
  - destruct (_ && _); [|done].
    destruct (_worker_progress t line σ) as [σ1|] eqn:Hp; [|done]. intros [= <-].
    apply worker_progress_core in Hp. unfold core in Hp. apply Hid. by injection Hp.
  - destruct (active t σ); [|done]. destruct (pool σ !! t) as [sl|]; [|done].
    intros [= <-]. exists (error_update (w_name sl)).
    split; [apply emit_worker_error_helpers|].
    intros h. split; [apply error_update_album|]. split; [apply error_update_combine|].
    split; [by rewrite error_update_workers|].
    intros He. apply error_update_error_iff. by left.
  - destruct (_ && _); [|done]. intros [= <-].
    set (σ1 := if has_process t σ then _ else σ).
    assert (H1 : helpers σ1 = helpers σ) by (unfold σ1; by destruct (has_process t σ)).
    rewrite <- H1. change (helpers σ1) with (helpers (update_slot t with_done σ1)).
    generalize (update_slot t with_done σ1). intros σ2.
    unfold worker_finished. destruct (pool σ2 !! t) as [sl|]; [|by apply Hid]. cbv zeta.
    set (σ3 := set_results _ σ2). change (helpers σ2) with (helpers σ3).
    destruct (cancelled σ3); [by apply Hid|].
    exists (done_update (w_name sl) success).
    split; [apply emit_worker_done_helpers|].
    intros h. split; [apply done_update_album|]. split; [apply done_update_combine|].
    split; [rewrite done_update_workers; set_solver|].
    intros He. apply done_update_error_iff. by left.
  - destruct (quitting t σ); [|done]. intros [= <-]. apply Hid.
    by rewrite (quiet_helpers _ _ (quiet_thread_finished t _)).
  - intros [= <-]. apply Hid. by rewrite (quiet_helpers _ _ (quiet_cancel σ)).
Qed.

Lemma step_cancelled σ i σ' : step σ i = Some σ' → i ≠ Cancel → cancelled σ' = cancelled σ.
Proof.
  destruct i as [t|t line|t msg|t success|t|]; simpl; [| | | | |done].
  - destruct (_ && _); [|done]. by intros [= <-].
  - destruct (_ && _); [|done]. unfold _worker_progress.
    destruct (pool σ !! t) as [sl|]; [|by intros [= <-]].
    destruct (progress_percent _ _) as [[pct|]|]; simpl; by intros [= <-].
  - destruct (active t σ); [|done]. destruct (pool σ !! t) as [sl|]; [|done].
    intros [= <-] _. apply (frame_cancelled _ _ _ (emit_worker_error_frame _ _ _)).
  - destruct (_ && _); [|done]. intros [= <-] _.
    set (σ1 := if has_process t σ then _ else σ).
    assert (H1 : cancelled σ1 = cancelled σ) by (unfold σ1; by destruct (has_process t σ)).
    rewrite <- H1. change (cancelled σ1) with (cancelled (update_slot t with_done σ1)).
    generalize (update_slot t with_done σ1). intros σ2.
    unfold worker_finished. destruct (pool σ2 !! t) as [sl|]; [|done]. cbv zeta.
    set (σ3 := set_results _ σ2). change (cancelled σ2) with (cancelled σ3).
    destruct (cancelled σ3) eqn:Hc; [done|].
    etrans; [|exact Hc].
    apply (frame_cancelled _ _ _ (emit_worker_done_frame _ _ _)).
  - destruct (quitting t σ); [|done]. intros [= <-] _.
    set (σ1 := update_slot t (with_status Done) σ).
    change (cancelled σ) with (cancelled σ1).
    unfold thread_finished. destruct (cancelled σ1) eqn:Hc; [done|]. cbv zeta.
    repeat match goal with |- context [if ?b then _ else _] => destruct b; simpl end;
      destruct (first_unstarted _); simpl;
      rewrite ?(proj2 (proj2 (thread_start_emitted _ _))); done.
Qed.

Lemma reach_all maxp batch ins σ :
  (0 ≤ maxp)%Z → unique_jobs batch = true → steps (start maxp batch) ins = Some σ →
  sched_inv σ ∧ release_inv σ ∧ events_inv σ ∧ ledger σ ∧
  w_name <$> pool σ = jobs batch ∧ helpers_of batch σ ∧
  (Cancel ∉ ins → cancelled σ = false).
Proof.
  intros Hmax Hu Hsteps.
  destruct (reach maxp batch ins σ Hmax Hu Hsteps) as (Hi & Hr & Hl & Hn).
  do 2 (split; [done|]).
  destruct (start_inv maxp batch Hmax Hu) as (Hi0 & Hr0 & _).
  pose proof (start_events maxp batch Hu) as He0.
  destruct (steps_events _ _ _ Hi0 Hr0 He0 Hsteps) as (_ & _ & He).
  do 3 (split; [done|]).
  assert (Hh0 : helpers_of batch (start maxp batch)).
  { destruct (pristine_setup maxp batch) as (Hf & _ & Hh).
    destruct (render_pristine maxp _ Hf) as (_ & _ & _ & _ & Hh' & _).
    fold (start maxp batch) in Hh'. unfold helpers_of. rewrite Hh', Hh. split.
    - rewrite <- list_fmap_compose. apply list_fmap_id.
    - intros h (a & -> & _)%list_elem_of_fmap. done. }
  assert (Hc0 : cancelled (start maxp batch) = false).
  { destruct (pristine_setup maxp batch) as (Hf & _ & _).
    by destruct (render_pristine maxp _ Hf) as (_ & _ & _ & _ & _ & _ & _ & _ & Hc). }
  clear Hi Hr Hl Hn He Hi0 Hr0 He0.
  assert (Hgen : helpers_of batch σ ∧
                 (cancelled (start maxp batch) = false → Cancel ∉ ins → cancelled σ = false));
    [|destruct Hgen as [? Hcc]; split; [done|by apply Hcc]].
  revert Hsteps Hh0. generalize (start maxp batch). clear Hc0. intros σ0. revert σ0.
  induction ins as [|i ins IH]; intros σ0; simpl.
  - intros [= <-]. by auto.
  - destruct (step σ0 i) as [σ1|] eqn:Hs; [|done]. intros Hsteps [Ha Hc].
    destruct (step_helpers _ _ _ Hs) as (g & Hg & Hgh).
    assert (H1 : helpers_of batch σ1).
    { split.
      - rewrite Hg, <- list_fmap_compose, <- Ha. apply list_fmap_ext.
        intros _ h _. simpl. by destruct (Hgh h) as (? & _).
      - intros h. rewrite Hg. intros (h0 & -> & Hin)%list_elem_of_fmap.
        destruct (Hgh h0) as (-> & -> & _). by apply Hc. }
    destruct (IH σ1 Hsteps H1) as [Hh Hcc]. split; [done|].
    intros Hc0 Hnot. apply Hcc.
    + rewrite (step_cancelled _ _ _ Hs); [done|]. intros ->. apply Hnot, list_elem_of_here.
    + intros Hin. apply Hnot. by apply list_elem_of_further.
Qed.

(** ** The results of a batch *)

Lemma failed_combine_album maxp batch ins σ n :
  (0 ≤ maxp)%Z → unique_jobs batch = true → steps (start maxp batch) ins = Some σ →
  failed_combine n σ →
  ∃ a, a ∈ single_albums batch ∧ a_fileOutput a = n ∧ album_failed a σ.
Proof.
  intros Hmax Hu Hsteps (h & Hin & Hc & Herr).
  destruct (reach_all maxp batch ins σ Hmax Hu Hsteps) as (_ & _ & He & _ & _ & [Ha Hcw] & _).
  exists (album h). split; [|split].
  - rewrite <- Ha. apply list_elem_of_fmap. by exists h.
  - by rewrite <- Hcw.
  - destruct (ev_error _ He h Hin Herr) as (u & Hu' & Hev).
    unfold upstream in Hu'. apply list_elem_of_fmap in Hu' as (song & -> & Hsong).
    by exists song.
Qed.

(** X15. Whenever the end of the batch is signalled, by the last thread
    that finishes or by a cancellation, the results that are sent hold
    entries for jobs of the batch only, and an entry for every job except
    the combine job of an album one of whose songs has reported a
    failure or raised an error. *)
Theorem finished_results_cover_jobs maxp batch ins σ r n :
  (0 ≤ maxp)%Z → unique_jobs batch = true →
  steps (start maxp batch) ins = Some σ → r ∈ finished_results (emitted σ) →
  (is_Some (r !! n) → n ∈ jobs batch) ∧
  (n ∈ jobs batch →
     is_Some (r !! n) ∨
     ∃ a, a ∈ single_albums batch ∧ a_fileOutput a = n ∧ album_failed a σ).
Proof.
  intros Hmax Hu Hsteps Hr%elem_of_finished_results.
  destruct (reach_all maxp batch ins σ Hmax Hu Hsteps) as (_ & _ & _ & Hl & Hn & _).
  destruct (lg_fin _ Hl r Hr) as [Ha Hb]. rewrite Hn in Ha, Hb. split; [apply Ha|].
  intros Hin. destruct (Hb n Hin) as [?|Hf]; [by left|right].
  by apply (failed_combine_album maxp batch ins).
Qed.

Lemma finished_results_cover_jobs_witness :
  ∃ σ r, steps (start 1 [SubmitSong song_a]) [Popen 0; Fin 0 true; ThreadFin 0] = Some σ ∧
         r ∈ finished_results (emitted σ) ∧
         (is_Some (r !! "a.mp4") → "a.mp4" ∈ jobs [SubmitSong song_a]) ∧
         ("a.mp4" ∈ jobs [SubmitSong song_a] →
            is_Some (r !! "a.mp4") ∨
            ∃ a, a ∈ single_albums [SubmitSong song_a] ∧ a_fileOutput a = "a.mp4" ∧
                 album_failed a σ).
Proof.
  after (start 1 [SubmitSong song_a]) [Popen 0; Fin 0 true; ThreadFin 0].
  exists {["a.mp4" := true]}.
  assert (Hs : steps (start 1 [SubmitSong song_a]) [Popen 0; Fin 0 true; ThreadFin 0]
               = Some (default (start 1 [SubmitSong song_a])
                         (steps (start 1 [SubmitSong song_a])
                                [Popen 0; Fin 0 true; ThreadFin 0])))
    by (vm_compute; reflexivity).
  assert (Hr : ({["a.mp4" := true]} : gmap string bool)
               ∈ finished_results (emitted (default (start 1 [SubmitSong song_a])
                         (steps (start 1 [SubmitSong song_a])
                                [Popen 0; Fin 0 true; ThreadFin 0])))).
  { assert (finished_results (emitted (default (start 1 [SubmitSong song_a])
                         (steps (start 1 [SubmitSong song_a])
                                [Popen 0; Fin 0 true; ThreadFin 0])))
            = [{["a.mp4" := true]}]) as -> by (vm_compute; reflexivity).
    apply list_elem_of_here. }
  split; [exact Hs|]. split; [exact Hr|].
  apply (finished_results_cover_jobs 1 [SubmitSong song_a] [Popen 0; Fin 0 true; ThreadFin 0]);
    [lia|vm_compute; reflexivity|exact Hs|exact Hr].
Defined.

(** X16. In a batch without an album that is rendered to a single file,
    every signal of the end of the batch carries exactly one entry for
    each job. *)
Theorem finished_results_complete_without_single_albums maxp batch ins σ r :
  (0 ≤ maxp)%Z → unique_jobs batch = true → single_albums batch = [] →
  steps (start maxp batch) ins = Some σ → r ∈ finished_results (emitted σ) →
  dom r = list_to_set (jobs batch) ∧ size r = length (jobs batch).
Proof.
  intros Hmax Hu Hsingle Hsteps Hr%elem_of_finished_results.
  destruct (reach_all maxp batch ins σ Hmax Hu Hsteps) as (_ & _ & _ & Hl & Hn & [Ha _] & _).
  destruct (lg_fin _ Hl r Hr) as [Hkeys Hall]. rewrite Hn in Hkeys, Hall.
  assert (Hdom : dom r = list_to_set (jobs batch)).
  { apply set_eq. intros n. rewrite elem_of_dom, elem_of_list_to_set. split; [apply Hkeys|].
    intros Hin. destruct (Hall n Hin) as [?|(h & Hh & _)]; [done|].
    rewrite Hsingle in Ha. apply fmap_nil_inv in Ha. rewrite Ha in Hh.
    by apply not_elem_of_nil in Hh. }
  split; [done|].
  rewrite <- size_dom, Hdom. apply size_list_to_set. exact (bool_decide_eq_true_1 _ Hu).
Qed.

Lemma finished_results_complete_witness :
  ∃ σ r, steps (start 1 [SubmitSong song_a; SubmitSong song_b])
           [Popen 0; Fin 0 true; ThreadFin 0; Popen 1; Fin 1 false; ThreadFin 1] = Some σ ∧
         r ∈ finished_results (emitted σ) ∧
         dom r = list_to_set (jobs [SubmitSong song_a; SubmitSong song_b]) ∧
         size r = length (jobs [SubmitSong song_a; SubmitSong song_b]).
Proof.
  after (start 1 [SubmitSong song_a; SubmitSong song_b])
        [Popen 0; Fin 0 true; ThreadFin 0; Popen 1; Fin 1 false; ThreadFin 1].
  exists {["a.mp4" := true; "b.mp4" := false]}.
  assert (Hs : steps (start 1 [SubmitSong song_a; SubmitSong song_b])
                 [Popen 0; Fin 0 true; ThreadFin 0; Popen 1; Fin 1 false; ThreadFin 1]
               = Some (default (start 1 [SubmitSong song_a; SubmitSong song_b])
                         (steps (start 1 [SubmitSong song_a; SubmitSong song_b])
                            [Popen 0; Fin 0 true; ThreadFin 0; Popen 1; Fin 1 false; ThreadFin 1])))
    by (vm_compute; reflexivity).
  assert (Hr : ({["a.mp4" := true; "b.mp4" := false]} : gmap string bool)
               ∈ finished_results (emitted (default (start 1 [SubmitSong song_a; SubmitSong song_b])
                         (steps (start 1 [SubmitSong song_a; SubmitSong song_b])
                            [Popen 0; Fin 0 true; ThreadFin 0; Popen 1; Fin 1 false; ThreadFin 1])))).
  { assert (finished_results (emitted (default (start 1 [SubmitSong song_a; SubmitSong song_b])
                         (steps (start 1 [SubmitSong song_a; SubmitSong song_b])
                            [Popen 0; Fin 0 true; ThreadFin 0; Popen 1; Fin 1 false; ThreadFin 1])))
            = [{["a.mp4" := true; "b.mp4" := false]}]) as -> by (vm_compute; reflexivity).
    apply list_elem_of_here. }
  split; [exact Hs|]. split; [exact Hr|].
  eapply (finished_results_complete_without_single_albums 1 [SubmitSong song_a; SubmitSong song_b]
           [Popen 0; Fin 0 true; ThreadFin 0; Popen 1; Fin 1 false; ThreadFin 1]);
    [lia|vm_compute; reflexivity|reflexivity|exact Hs|exact Hr].
Defined.

Lemma not_running_stuck σ :
  (∀ t, isRunning t σ = false) → ∀ i, i ≠ Cancel → step σ i = None.
Proof.
  intros Hnone.
  assert (Hact : ∀ t, active t σ = false).
  { intros t. specialize (Hnone t). unfold active, isRunning in *.
    destruct (pool σ !! t) as [sl|]; [|done]. by destruct (t_status sl). }
  assert (Hquit : ∀ t, quitting t σ = false).
  { intros t. specialize (Hnone t). unfold quitting, isRunning in *.
    destruct (pool σ !! t) as [sl|]; [|done]. by destruct (t_status sl). }
  intros [t|t line|t msg|t success|t|] Hi; simpl; rewrite ?Hact, ?Hquit; done.
Qed.



(** X18. The signals of completion agree with the results: a job signals
    its completion at most once, the result recorded for it is the
    success it has signalled, and results are recorded for jobs of the
    batch only. *)
Theorem completion_signals_agree_with_results maxp batch ins σ :
  (0 ≤ maxp)%Z → unique_jobs batch = true → steps (start maxp batch) ins = Some σ →
  NoDup (done_signals (emitted σ)).*1 ∧
  (∀ n s, WorkerDone n s ∈ emitted σ → results σ !! n = Some s) ∧
  (∀ n, is_Some (results σ !! n) → n ∈ jobs batch).
Proof.
  intros Hmax Hu Hsteps.
  destruct (reach_all maxp batch ins σ Hmax Hu Hsteps) as (_ & _ & _ & Hl & Hn & _).
  split; [apply (lg_once _ Hl)|]. split.
  - intros n s Hin. by destruct (lg_done _ Hl n s Hin).
  - intros n Hin. rewrite <- Hn. by apply (lg_keys _ Hl).
Qed.

Lemma completion_signals_agree_witness :
  ∃ σ, steps (start 1 [SubmitSong song_a]) [Popen 0; Fin 0 false] = Some σ ∧
       NoDup (done_signals (emitted σ)).*1 ∧
       (∀ n s, WorkerDone n s ∈ emitted σ → results σ !! n = Some s) ∧
       (∀ n, is_Some (results σ !! n) → n ∈ jobs [SubmitSong song_a]).
Proof.
  after (start 1 [SubmitSong song_a]) [Popen 0; Fin 0 false].
  split; [vm_compute; reflexivity|].
  apply (completion_signals_agree_with_results 1 [SubmitSong song_a] [Popen 0; Fin 0 false]);
    [lia|vm_compute; reflexivity|vm_compute; reflexivity].
Defined.



(** ** The state of a thread along a batch *)

Lemma keeps_status_refl σ : keeps_status σ σ.
Proof. split; [done|]. intros t sl' Hsl. by exists sl'. Qed.

Lemma keeps_status_trans σ1 σ2 σ3 :
  keeps_status σ1 σ2 → keeps_status σ2 σ3 → keeps_status σ1 σ3.
Proof.
  intros [Hl1 H1] [Hl2 H2]. split; [congruence|].
  intros t sl3 (sl2 & Hsl2 & Hs2)%H2. destruct (H1 _ _ Hsl2) as (sl1 & Hsl1 & Hs1).
  exists sl1. split; [done|congruence].
Qed.

Lemma keeps_status_pool σ σ' : pool σ' = pool σ → keeps_status σ σ'.
Proof. intros Hp. split; [by rewrite Hp|]. intros t sl'. rewrite Hp. by exists sl'. Qed.

Lemma keeps_status_update t f σ :
  (∀ sl, t_status (f sl) = t_status sl) → keeps_status σ (update_slot t f σ).
Proof.
  intros Hf. split; [apply update_slot_length|].
  intros t' sl'. rewrite update_slot_lookup. case_decide; [subst|by eauto].
  destruct (pool σ !! t') as [sl|]; [|done]. simpl. intros [= <-]. by exists sl.
Qed.

Lemma keeps_status_foldl {A} (f : state → A → state) (l : list A) σ :
  (∀ σ a, keeps_status σ (f σ a)) → keeps_status σ (foldl f σ l).
Proof.
  intros Hf. revert σ. induction l as [|a l IH]; intros σ; [apply keeps_status_refl|].
  simpl. eapply keeps_status_trans; [apply Hf|apply IH].
Qed.

Lemma cancel_worker_status name σ : keeps_status σ (cancel_worker name σ).
Proof.
  unfold cancel_worker. destruct (dict_get name (workers σ)) as [thread|];
    [|apply keeps_status_refl]. cbv zeta.
  eapply keeps_status_trans; [apply (keeps_status_update thread with_quit σ); done|].
  apply keeps_status_pool. unfold thread_quit.
  repeat match goal with |- context [if ?b then _ else _] => destruct b; simpl end; done.
Qed.

Lemma emit_worker_error_status n m σ : keeps_status σ (emit_worker_error n m σ).
Proof.
  unfold emit_worker_error.
  eapply keeps_status_trans; [apply (keeps_status_pool σ (emit (WorkerError n m) σ)); done|].
  apply keeps_status_foldl. intros σ0 i. rewrite helper_worker_error_unfold.
  destruct (helpers σ0 !! i) as [h|]; [|apply keeps_status_refl].
  destruct (bool_decide _); [|apply keeps_status_refl].
  eapply keeps_status_trans; [|apply cancel_worker_status].
  by apply keeps_status_pool.
Qed.

Lemma clean_up_status σ : keeps_status σ (clean_up σ).
Proof.
  unfold clean_up. apply keeps_status_foldl. intros σ0 p. by apply keeps_status_update.
Qed.

Lemma cancel_status σ : keeps_status σ (cancel σ).
Proof.
  unfold cancel. cbv zeta.
  eapply keeps_status_trans; [apply clean_up_status|].
  apply keeps_status_pool.
  exact (proj1 (mark_all_fields (workers (set_cancelled true (clean_up σ)))
                  (set_cancelled true (clean_up σ)))).
Qed.

(** How the state of a thread changes when one input is handled: it
    stays as it was, the thread finishes, or it is started from the
    queue or the registry of a batch that is not cancelled. *)
Lemma step_status σ i σ' :
  step σ i = Some σ' →
  length (pool σ') = length (pool σ) ∧
  ∀ t sl', pool σ' !! t = Some sl' →
    ∃ sl, pool σ !! t = Some sl ∧
      (t_status sl' = t_status sl ∨ (i = ThreadFin t ∧ t_status sl' = Done) ∨
       (t_status sl' = Running ∧ cancelled σ = false ∧
        (t ∈ threads σ ∨ ∃ n, dict_get n (workers σ) = Some t))).
Proof.
  assert (Hkeep : ∀ σ1, keeps_status σ σ1 →
            length (pool σ1) = length (pool σ) ∧
            ∀ t sl', pool σ1 !! t = Some sl' →
              ∃ sl, pool σ !! t = Some sl ∧
                (t_status sl' = t_status sl ∨ (i = ThreadFin t ∧ t_status sl' = Done) ∨
                 (t_status sl' = Running ∧ cancelled σ = false ∧
                  (t ∈ threads σ ∨ ∃ n, dict_get n (workers σ) = Some t)))).
  { intros σ1 [Hl H]. split; [done|]. intros t sl' (sl & Hsl & Hs)%H. exists sl. auto. }
  destruct i as [t0|t0 line|t0 msg|t0 success|t0|]; simpl.
  - destruct (_ && _); [|done]. intros [= <-]. apply Hkeep.
    eapply keeps_status_trans; [apply (keeps_status_update t0 (with_process Live) σ); done|].
    by apply keeps_status_pool.
  - destruct (_ && _); [|done].
    destruct (_worker_progress t0 line σ) as [σ1|] eqn:Hp; [|done]. intros [= <-].
    apply worker_progress_core in Hp. unfold core in Hp. apply Hkeep, keeps_status_pool.
    by injection Hp.
  - destruct (active t0 σ); [|done]. destruct (pool σ !! t0) as [sl0|]; [|done].
    intros [= <-]. apply Hkeep, emit_worker_error_status.
  - destruct (_ && _); [|done]. intros [= <-].
    set (σ1 := if has_process t0 σ then _ else σ).
    set (σ2 := update_slot t0 with_done σ1).
    assert (H2 : keeps_status σ σ2 ∧ threads σ2 = threads σ ∧ workers σ2 = workers σ ∧
                 cancelled σ2 = cancelled σ).
    { split.
      - eapply keeps_status_trans; [|apply (keeps_status_update t0 with_done σ1); done].
        unfold σ1. destruct (has_process t0 σ); [|apply keeps_status_refl].
        eapply keeps_status_trans;
          [apply (keeps_status_update t0 (with_process Exited) σ); done|].
        by apply keeps_status_pool.
      - unfold σ2, σ1. by destruct (has_process t0 σ). }
    clearbody σ2. destruct H2 as ([Hl2 Hk2] & Ht2 & Hw2 & Hc2).
    unfold worker_finished. destruct (pool σ2 !! t0) as [sl0|]; [|by apply Hkeep].
    cbv zeta. set (σ3 := set_results _ σ2).
    destruct (cancelled σ3) eqn:Hc3; [by apply Hkeep|].
    pose proof (emit_worker_done_admits (w_name sl0) success σ3) as Had.
    split.
    { unfold thread_quit. rewrite update_slot_length, (ad_length _ _ Had). done. }
    intros t sl'. unfold thread_quit. rewrite update_slot_lookup.
    intros Hlook.
    assert (∃ sl5, pool (emit_worker_done (w_name sl0) success σ3) !! t = Some sl5 ∧
                   t_status sl' = t_status sl5) as (sl5 & Hsl5 & Hs5).
    { case_decide; [subst|by eauto].
      destruct (pool (emit_worker_done _ _ _) !! t) as [sl5|]; [|done].
      simpl in Hlook. injection Hlook as <-. by exists sl5. }
    destruct (ad_pool _ _ Had _ _ Hsl5) as (sl3 & Hsl3 & Hrel).
    destruct (Hk2 t sl3 Hsl3) as (sl & Hsl & Hs). exists sl. split; [done|].
    destruct Hrel as [->|(-> & Hst & Hin)]; [left; congruence|].
    right. right. split; [by rewrite Hs5|]. split; [by rewrite <- Hc2|].
    simpl in Hin. by rewrite <- Ht2, <- Hw2.
  - destruct (quitting t0 σ); [|done]. intros [= <-].
    set (σ1 := update_slot t0 (with_status Done) σ).
    assert (H1 : ∀ t sl1, pool σ1 !! t = Some sl1 →
              ∃ sl, pool σ !! t = Some sl ∧
                    (t_status sl1 = t_status sl ∨ (t0 = t ∧ t_status sl1 = Done))).
    { intros t sl1. unfold σ1. rewrite update_slot_lookup. case_decide; [subst|by eauto].
      destruct (pool σ !! t) as [sl|]; [|done]. simpl. intros [= <-]. exists sl. auto. }
    assert (Hl1 : length (pool σ1) = length (pool σ)) by apply update_slot_length.
    assert (Hfin : ∀ t sl1, pool σ1 !! t = Some sl1 →
              ∃ sl, pool σ !! t = Some sl ∧
                (t_status sl1 = t_status sl ∨ (ThreadFin t0 = ThreadFin t ∧ t_status sl1 = Done) ∨
                 (t_status sl1 = Running ∧ cancelled σ = false ∧
                  (t ∈ threads σ ∨ ∃ n, dict_get n (workers σ) = Some t)))).
    { intros t sl1 (sl & Hsl & [Hs|[-> Hs]])%H1; exists sl; auto. }
    unfold thread_finished. destruct (cancelled σ1) eqn:Hc; [done|].
    change (cancelled σ1) with (cancelled σ) in Hc. cbv zeta.
    set (σ2 := if mem t0 (threads σ1) then _ else _).
    set (σ3 := set_workers (del_thread t0) σ2).
    set (σ4 := if length (threads σ3) =? 0 then _ else _).
    set (σ5 := if length (workers σ4) =? 0 then _ else _).
    assert (H5 : pool σ5 = pool σ1 ∧ ∀ t, t ∈ threads σ5 → t ∈ threads σ).
    { unfold σ5, σ4, σ3, σ2. simpl. destruct (mem t0 (threads σ)) eqn:Hm; simpl;
        repeat match goal with |- context [if ?b then _ else _] => destruct b; simpl end;
        (split; [done|]); try done; intros t; apply list_remove_elem. }
    clearbody σ5. destruct H5 as [Hp5 Ht5].
    destruct (first_unstarted σ5) as [t2|] eqn:Hfirst; [|by rewrite Hp5].
    apply first_unstarted_Some in Hfirst as [Hin2 _].
    change (pool (set_working true (thread_start t2 σ5))) with (pool (thread_start t2 σ5)).
    split; [by rewrite thread_start_length, Hp5|].
    intros t sl' (sl5 & Hsl5 & Hrel)%thread_start_pool. rewrite Hp5 in Hsl5.
    destruct Hrel as [->|(-> & _ & ->)]; [by apply Hfin|].
    destruct (H1 _ _ Hsl5) as (sl & Hsl & _). exists sl. split; [done|].
    right. right. split; [done|]. split; [done|]. left. by apply Ht5.
  - intros [= <-]. apply Hkeep, cancel_status.
Qed.

Lemma finished_stays σ ins σ' t sl :
  sched_inv σ → release_inv σ → ledger σ → steps σ ins = Some σ' →
  pool σ !! t = Some sl → t_status sl = Done →
  ∃ sl', pool σ' !! t = Some sl' ∧ t_status sl' = Done.
Proof.
  revert σ sl. induction ins as [|i ins IH]; intros σ sl Hi Hr Hl; simpl.
  - intros [= <-] Hsl Hd. by exists sl.
  - destruct (step σ i) as [σ1|] eqn:Hs; [|done]. intros Hsteps Hsl Hd.
    destruct (step_inv σ i σ1 Hi Hr Hs) as [Hi1 Hr1].
    pose proof (ledger_step σ i σ1 Hi Hr Hl Hs) as Hl1.
    destruct (step_status σ i σ1 Hs) as [Hlen Hst].
    destruct (lookup_lt_is_Some_2 (pool σ1) t) as [sl1 Hsl1].
    { rewrite Hlen. by eapply lookup_lt_Some. }
    apply (IH σ1 sl1 Hi1 Hr1 Hl1 Hsteps Hsl1).
    destruct (Hst t sl1 Hsl1) as (sl0 & Hsl0 & Hcases).
    assert (sl0 = sl) as -> by congruence.
    destruct Hcases as [Hsame|[[_ ?]|(_ & Hc & Hin)]]; [congruence|done|].
    destruct (lg_over _ Hl Hc t sl Hsl Hd) as [Hnt Hnw].
    destruct Hin as [Hin|[n Hn]]; [done|]. by destruct (Hnw n).
Qed.



(** X21. Once the batch is cancelled no thread is started any more: a
    thread that is running afterwards was running when the batch was
    cancelled. *)
Theorem nothing_starts_after_cancel σ ins σ' t :
  cancelled σ = true → steps σ ins = Some σ' →
  isRunning t σ' = true → isRunning t σ = true.
Proof.
  revert σ. induction ins as [|i ins IH]; intros σ Hc; simpl.
  - by intros [= <-].
  - destruct (step σ i) as [σ1|] eqn:Hs; [|done]. intros Hsteps Hrun.
    destruct (step_after_cancel σ i σ1 Hc Hs) as [Hc1 _].
    specialize (IH σ1 Hc1 Hsteps Hrun).
    unfold isRunning in IH. destruct (pool σ1 !! t) as [sl1|] eqn:Hsl1; [|done].
    destruct (step_status σ i σ1 Hs) as [_ Hst].
    destruct (Hst t sl1 Hsl1) as (sl & Hsl & Hcases). unfold isRunning. rewrite Hsl.
    destruct Hcases as [<-|[[_ Hd]|(_ & ? & _)]]; [done| |congruence].
    by rewrite Hd in IH.
Qed.

Lemma nothing_starts_after_cancel_witness :
  ∃ σ', steps (cancel (start 1 [SubmitSong song_a; SubmitSong song_b]))
          [Popen 0; Fin 0 true] = Some σ' ∧
        (isRunning 1 σ' = true → isRunning 1 (cancel (start 1 [SubmitSong song_a; SubmitSong song_b])) = true).
Proof.
  after (cancel (start 1 [SubmitSong song_a; SubmitSong song_b])) [Popen 0; Fin 0 true].
  split; [vm_compute; reflexivity|].
  apply (nothing_starts_after_cancel (cancel (start 1 [SubmitSong song_a; SubmitSong song_b]))
           [Popen 0; Fin 0 true]); vm_compute; reflexivity.
Defined.

(** When a thread finishes in a batch that is not cancelled, either a
    waiting thread of the queue is started in its place or no thread of
    the queue is waiting. *)
Lemma thread_fin_next σ t :
  queue_inv σ → ledger σ → cancelled σ = false → quitting t σ = true →
  let σ' := thread_finished t (update_slot t (with_status Done) σ) in
  (∃ t2, t2 ∈ threads σ ∧ t2 ≠ t ∧ isRunning t2 σ = false ∧ isRunning t2 σ' = true) ∨
  ((∀ t', t' ∈ threads σ' → isRunning t' σ' = true) ∧
   (∀ t', t' ∈ threads σ → t' ≠ t → isRunning t' σ = true)).
Proof.
  intros Hq Hl Hc Hquit. cbv zeta.
  set (σ1 := update_slot t (with_status Done) σ).
  assert (Hrun1 : ∀ t0, t0 ≠ t → isRunning t0 σ1 = isRunning t0 σ).
  { intros t0 Hne. unfold σ1. rewrite isRunning_update. by rewrite decide_False. }
  unfold thread_finished. change (cancelled σ1) with (cancelled σ). rewrite Hc. cbv zeta.
  set (σ2 := if mem t (threads σ1) then _ else _).
  set (σ3 := set_workers (del_thread t) σ2).
  set (σ4 := if length (threads σ3) =? 0 then _ else _).
  set (σ5 := if length (workers σ4) =? 0 then _ else _).
  assert (H5 : pool σ5 = pool σ1 ∧
               threads σ5 = (if mem t (threads σ) then list_remove t (threads σ) else threads σ)).
  { unfold σ5, σ4, σ3, σ2. simpl. destruct (mem t (threads σ)) eqn:Hm; simpl;
      repeat match goal with |- context [if ?b then _ else _] => destruct b; simpl end; done. }
  clearbody σ5. destruct H5 as [Hp5 Ht5].
  assert (Hrun5 : ∀ t0, isRunning t0 σ5 = isRunning t0 σ1).
  { intros t0. unfold isRunning. by rewrite Hp5. }
  assert (Hthr : ∀ t0, t0 ∈ threads σ5 → t0 ∈ threads σ ∧ t0 ≠ t).
  { intros t0. rewrite Ht5. destruct (mem t (threads σ)) eqn:Hm.
    - intros Hin. split; [by eapply list_remove_elem|]. intros ->.
      by apply (list_remove_not_elem t (threads σ) (inv_threads _ Hq)).
    - apply mem_not_elem in Hm. intros Hin. split; [done|]. by intros ->. }
  assert (Hin5 : ∀ t', t' ∈ threads σ → t' ≠ t → t' ∈ threads σ5).
  { intros t' Hin Hne. rewrite Ht5. destruct (mem t (threads σ)); [|done].
    by apply list_remove_elem_ne. }
  destruct (first_unstarted σ5) as [t2|] eqn:Hfirst.
  - left. apply first_unstarted_Some in Hfirst as [Hin2 Hidle2].
    destruct (Hthr t2 Hin2) as [Hin Hne]. exists t2.
    split; [done|]. split; [done|]. split; [by rewrite <- Hrun1, <- Hrun5|].
    change (isRunning t2 (set_working true (thread_start t2 σ5)))
      with (isRunning t2 (thread_start t2 σ5)).
    apply thread_start_self. rewrite Hp5. unfold σ1. rewrite update_slot_length.
    destruct (lg_reg _ Hl t2 Hin) as [n Hn].
    destruct (inv_workers _ Hq _ _ Hn) as (sl2 & Hsl2 & _). by eapply lookup_lt_Some.
  - right. unfold first_unstarted in Hfirst.
    assert (Hall : ∀ t', t' ∈ threads σ5 → isRunning t' σ5 = true).
    { intros t' Hin. pose proof (find_none _ _ Hfirst t') as Hnone. simpl in Hnone.
      apply negb_false_iff, Hnone. by apply list_elem_of_In. }
    split; [done|]. intros t' Hin Hne.
    rewrite <- Hrun1, <- Hrun5 by done. by apply Hall, Hin5.
Qed.



(** ** What [cancel] records *)

Lemma mark_unfinished_absent l σ n :
  results σ !! n = None → n ∉ l.*1 → results (foldl mark_unfinished σ l) !! n = None.
Proof.
  revert σ. induction l as [|[k t] l IH]; intros σ Hn Hnot; [done|]. simpl.
  simpl in Hnot. apply not_elem_of_cons in Hnot as [Hne Hnot].
  apply IH; [|done]. unfold mark_unfinished. simpl.
  destruct (results σ !! k); simpl; [done|]. by rewrite lookup_insert_ne.
Qed.

Lemma mark_all_noop l σ :
  (∀ w, w ∈ l → is_Some (results σ !! w.1)) → foldl mark_unfinished σ l = σ.
Proof.
  induction l as [|w l IH]; intros Hall; [done|]. simpl.
  assert (mark_unfinished σ w = σ) as ->.
  { unfold mark_unfinished. destruct (Hall w) as [b ->]; [apply list_elem_of_here|done]. }
  apply IH. intros w' Hw'. apply Hall. by apply list_elem_of_further.
Qed.

Lemma cancel_fields σ :
  results (cancel σ)
    = results (foldl mark_unfinished (set_cancelled true (clean_up σ)) (workers σ)) ∧
  workers (cancel σ) = workers σ.
Proof.
  unfold cancel. cbv zeta. destruct (clean_up_fields σ) as [Hr Hw].
  change (workers (set_cancelled true (clean_up σ))) with (workers (clean_up σ)).
  rewrite Hw. split; [done|]. simpl.
  destruct (mark_all_fields (workers σ) (set_cancelled true (clean_up σ))) as (_ & -> & _).
  done.
Qed.

(** X23. [cancel] keeps every result that is recorded and records a
    failure for every registered job without one, and for no other job;
    it sets the cancellation flag and signals the end of the batch with
    these results.  Cancelling once more changes no result. *)
Theorem cancel_records_unfinished_jobs σ n :
  results (cancel σ) !! n
    = match results σ !! n with
      | Some b => Some b
      | None => if bool_decide (n ∈ (workers σ).*1) then Some false else None
      end ∧
  cancelled (cancel σ) = true ∧
  last (emitted (cancel σ)) = Some (Finished (results (cancel σ))) ∧
  results (cancel (cancel σ)) = results (cancel σ).
Proof.
  destruct (cancel_fields σ) as [Hr Hw].
  destruct (clean_up_fields σ) as [Hr0 _].
  set (σ2 := set_cancelled true (clean_up σ)) in *.
  assert (Hr2 : results σ2 = results σ) by done.
  split; [|split; [|split]].
  - rewrite Hr, <- Hr2. destruct (results σ2 !! n) as [b|] eqn:Hn.
    + by apply mark_unfinished_keeps.
    + case_bool_decide as Hk.
      * by apply mark_unfinished_new.
      * by apply mark_unfinished_absent.
  - by destruct (cancel_emitted σ).
  - unfold cancel. cbv zeta. apply last_snoc.
  - destruct (cancel_fields (cancel σ)) as [Hr' Hw']. rewrite Hr', Hw.
    rewrite mark_all_noop; [by destruct (clean_up_fields (cancel σ))|].
    intros w Hin. simpl.
    destruct (clean_up_fields (cancel σ)) as [-> _]. rewrite Hr.
    apply mark_unfinished_results. left. apply list_elem_of_fmap. by exists w.
Qed.

(** ** The queue does not stall *)

Lemma keeps_status_running σ σ' t : keeps_status σ σ' → isRunning t σ' = isRunning t σ.
Proof.
  intros [Hl Hk]. unfold isRunning. destruct (pool σ' !! t) as [sl'|] eqn:Hsl'.
  - destruct (Hk _ _ Hsl') as (sl & -> & ->). done.
  - apply lookup_ge_None in Hsl'. rewrite Hl in Hsl'. apply lookup_ge_None in Hsl'.
    by rewrite Hsl'.
Qed.

Lemma moving_keeps σ σ' :
  keeps_status σ σ' → cancelled σ' = cancelled σ → (∀ t, t ∈ threads σ' → t ∈ threads σ) →
  moving σ → moving σ'.
Proof.
  intros Hk Hc Ht Hmv Hc' t Hin Hidle.
  rewrite (keeps_status_running _ _ t Hk) in Hidle. rewrite Hc in Hc'.
  destruct (Hmv Hc' t (Ht t Hin) Hidle) as [t' Ht']. exists t'.
  by rewrite (keeps_status_running _ _ t' Hk).
Qed.

Lemma moving_step σ i σ' :
  sched_inv σ → release_inv σ → ledger σ → moving σ → step σ i = Some σ' → moving σ'.
Proof.
  intros Hi Hr Hl Hmv Hs.
  destruct (step_status σ i σ' Hs) as [Hlen Hst].
  destruct i as [t0|t0 line|t0 msg|t0 success|t0|];
    try pose proof (step_cancelled _ _ _ Hs ltac:(discriminate)) as Hcan;
    simpl in Hs; [| | | | |].
  - destruct (_ && _); [|done]. injection Hs as <-.
    apply (moving_keeps σ); try done.
    eapply keeps_status_trans; [apply (keeps_status_update t0 (with_process Live) σ); done|].
    by apply keeps_status_pool.
  - destruct (_ && _); [|done].
    destruct (_worker_progress t0 line σ) as [σ1|] eqn:Hp; [|done]. injection Hs as <-.
    apply worker_progress_core in Hp. unfold core in Hp.
    injection Hp as _ Hp Ht _ _ _.
    apply (moving_keeps σ); try done; [by apply keeps_status_pool|by rewrite Ht].
  - destruct (active t0 σ); [|done]. destruct (pool σ !! t0) as [sl0|]; [|done].
    injection Hs as <-.
    apply (moving_keeps σ); try done; [apply emit_worker_error_status|].
    apply (rv_threads _ _ (emit_worker_error_revokes (w_name sl0) msg σ Hi Hr)).
  - destruct (active t0 σ && _) eqn:Hact; [|done].
    apply andb_true_iff in Hact as [Hact _].
    apply active_slot in Hact as (sl0 & Hsl0 & _ & Hrun0).
    intros _ t _ _. exists t0.
    destruct (lookup_lt_is_Some_2 (pool σ') t0) as [sl' Hsl'].
    { rewrite Hlen. by eapply lookup_lt_Some. }
    destruct (Hst t0 sl' Hsl') as (sl & Hsl & Hcases).
    assert (sl = sl0) as -> by congruence.
    unfold isRunning. rewrite Hsl'.
    destruct Hcases as [->|[[? _]|(-> & _)]]; [by rewrite Hrun0|done|done].
  - destruct (quitting t0 σ) eqn:Hquit; [|done]. injection Hs as <-.
    intros Hc' t Hin Hidle. rewrite Hcan in Hc'.
    destruct (thread_fin_next σ t0 (inv_queue _ Hi) Hl Hc' Hquit) as [(t2 & _ & _ & _ & H2)|[Hall _]].
    + by exists t2.
    + rewrite (Hall t Hin) in Hidle. done.
  - injection Hs as <-. intros Hc'.
    destruct (cancel_emitted σ) as [Hc _]. congruence.
Qed.

Lemma moving_start maxp batch : (1 ≤ maxp)%Z → moving (start maxp batch).
Proof.
  intros Hmax _ t Hin _.
  destruct (pristine_setup maxp batch) as (Hf & _ & _).
  destruct (render_pristine maxp _ Hf) as (Hrun & _ & Ht & _).
  fold (start maxp batch) in Hrun, Ht. rewrite Ht in Hin.
  destruct (threads (setup maxp batch)) as [|t0 ts] eqn:Hts.
  { by apply not_elem_of_nil in Hin. }
  exists t0. apply Hrun.
  destruct (Z.to_nat maxp) as [|k] eqn:Hk; [lia|]. simpl. apply list_elem_of_here.
Qed.

Lemma moving_steps σ ins σ' :
  sched_inv σ → release_inv σ → ledger σ → moving σ → steps σ ins = Some σ' → moving σ'.
Proof.
  revert σ. induction ins as [|i ins IH]; intros σ Hi Hr Hl Hmv; simpl.
  - by intros [= <-].
  - destruct (step σ i) as [σ1|] eqn:Hs; [|done].
    destruct (step_inv σ i σ1 Hi Hr Hs) as [Hi1 Hr1].
    apply IH; [done|done|exact (ledger_step σ i σ1 Hi Hr Hl Hs)|].
    exact (moving_step σ i σ1 Hi Hr Hl Hmv Hs).
Qed.





(** ** The helpers along a batch *)

Lemma later_helper_refl h : later_helper h h.
Proof. by repeat split. Qed.

Lemma later_helper_trans h1 h2 h3 : later_helper h1 h2 → later_helper h2 h3 → later_helper h1 h3.
Proof.
  intros (Ha1 & Hc1 & Hw1 & He1) (Ha2 & Hc2 & Hw2 & He2).
  split; [congruence|]. split; [congruence|]. split; [set_solver|auto].
Qed.

(** X26. While a batch runs the renderer keeps its helpers, in their
    order: a helper keeps its album and its combine job, the set of
    songs it waits for only shrinks, and an error it has seen is never
    cleared. *)
Theorem helpers_only_lose_pending_songs σ ins σ' :
  steps σ ins = Some σ' → Forall2 later_helper (helpers σ) (helpers σ').
Proof.
  revert σ. induction ins as [|i ins IH]; intros σ; simpl.
  - intros [= <-]. apply Forall2_same_length_lookup. split; [done|].
    intros j h h' H1 H2. assert (h' = h) as -> by congruence. apply later_helper_refl.
  - destruct (step σ i) as [σ1|] eqn:Hs; [|done]. intros Hsteps.
    destruct (step_helpers _ _ _ Hs) as (g & Hg & Hgh).
    specialize (IH σ1 Hsteps). rewrite Hg, Forall2_fmap_l in IH.
    eapply Forall2_impl; [exact IH|].
    intros h h' Hlater. simpl in Hlater.
    eapply later_helper_trans; [|exact Hlater]. apply Hgh.
Qed.

Lemma helpers_only_lose_pending_songs_witness :
  ∃ σ', steps (start 1 [SubmitAlbum album_of_two]) [Popen 0; Fin 0 true] = Some σ' ∧
        Forall2 later_helper (helpers (start 1 [SubmitAlbum album_of_two])) (helpers σ').
Proof.
  after (start 1 [SubmitAlbum album_of_two]) [Popen 0; Fin 0 true].
  split; [vm_compute; reflexivity|].
  apply (helpers_only_lose_pending_songs (start 1 [SubmitAlbum album_of_two])
           [Popen 0; Fin 0 true]).
  vm_compute; reflexivity.
Defined.
